(** * jmcomic-crawler: the per-channel job queue and the job life cycle

    A shallow embedding of [QueueManager] (enqueue / getSummary / cancel /
    clear / maybeStart / processJob / updateStatus / recallStatus) and of the
    helpers [formatErr] and [safeSend], followed by the properties of the
    queue and of the polling engine.

    JavaScript arrays and [AbortController]s are heap objects that several
    holders may reference: the channel map, and every suspended run loop,
    hold a *reference* to a queue array.  The embedding keeps an explicit
    store of arrays so that this aliasing is visible. *)

From Stdlib Require Import ZArith Lia.
From stdpp Require Import base gmap strings list fin_maps pretty.

Local Open Scope Z_scope.
Local Open Scope string_scope.
Local Open Scope list_scope.

(** ** Data model *)

Inductive OutputFormat := Zip | Pdf.

Record Submit := mkSubmit {
  album_id : string;
  password : option string;
  encrypt : option bool;
  output_format : option OutputFormat;
  quality : option Z
}.

(** [controller] is the reference to the job's [AbortController]; the
    mutable fields [statusMsg], [lastStatus] and [backendTask] are only
    touched by [processJob] and live in [Job.St] below. *)
Record QueueJob := mkJob {
  id : string;
  channelCid : string;
  submit : Submit;
  enqueuedAt : Z;
  controller : nat
}.

Module Queue.

(** A suspended activation of [maybeStart]: the channel it was started for,
    the array [q] it captured, and the [job] whose [processJob] it awaits. *)
Record Loop := mkLoop {
  l_cid : string;
  l_q : nat;
  l_job : QueueJob
}.

(** [store] holds the queue arrays (a reference is an index), [queues] is
    [this.queues], [running] is [this.running], [aborted] is the set of
    controllers whose signal is aborted, [loops] are the suspended
    activations of [maybeStart]. *)
Record QueueManager := mkQM {
  store : list (list QueueJob);
  queues : gmap string nat;
  running : gset string;
  aborted : gset nat;
  loops : list Loop
}.

Definition init : QueueManager := mkQM [] ∅ ∅ ∅ [].

(** What the run loops do, as a history. *)
Inductive Event :=
| EvStart (cid : string) (j : QueueJob)   (* processJob(j) is called *)
| EvEnd (cid : string) (j : QueueJob)     (* processJob(j) has settled *)
| EvShift (cid : string) (removed : option QueueJob). (* q.shift() *)

(** The array behind a reference. *)
Definition arr (st : list (list QueueJob)) (l : nat) : list QueueJob :=
  default [] (st !! l).

(** The queue the channel map currently shows for [cid]. *)
Definition queue_of (s : QueueManager) (cid : string) : list QueueJob :=
  match queues s !! cid with
  | Some l => arr (store s) l
  | None => []
  end.

(** [maybeStart], up to its first suspension: the guard on [running], the
    guard on the queue, [running.add], [job = q[0]] and the call of
    [processJob(job)], which suspends at its first [await]. *)
Definition maybeStart (cid : string) (s : QueueManager)
  : QueueManager * list Event :=
  if decide (cid ∈ running s) then (s, [])
  else match queues s !! cid with
       | None => (s, [])
       | Some l =>
           match arr (store s) l with
           | [] => (s, [])
           | job :: _ =>
               (mkQM (store s) (queues s) ({[cid]} ∪ running s) (aborted s)
                     (loops s ++ [mkLoop cid l job]),
                [EvStart cid job])
           end
       end.

(** [maybeStart], from the moment [processJob] settles: [q.shift()] in the
    inner [finally], the loop test, and either the next [processJob] or the
    outer [finally].  The array is the one the activation captured, whatever
    the channel map shows now. *)
Definition settle (i : nat) (s : QueueManager) : QueueManager * list Event :=
  match loops s !! i with
  | None => (s, [])
  | Some lp =>
      let q := arr (store s) (l_q lp) in
      let q' := tail q in
      let st' := <[l_q lp := q']> (store s) in
      match q' with
      | job :: _ =>
          (mkQM st' (queues s) (running s) (aborted s)
                (<[i := mkLoop (l_cid lp) (l_q lp) job]> (loops s)),
           [EvEnd (l_cid lp) (l_job lp); EvShift (l_cid lp) (head q);
            EvStart (l_cid lp) job])
      | [] =>
          (mkQM st' (delete (l_cid lp) (queues s))
                (running s ∖ {[l_cid lp]}) (aborted s) (delete i (loops s)),
           [EvEnd (l_cid lp) (l_job lp); EvShift (l_cid lp) (head q)])
      end
  end.

(** The first three statements of [enqueue]: [q = queues.get(cid) ?? []]
    (a fresh array is allocated when the channel has none), [q.push(job)],
    [queues.set(cid, q)].  Returns the reference [q]. *)
Definition push (job : QueueJob) (s : QueueManager) : nat * QueueManager :=
  let cid := channelCid job in
  let '(l, st0) := match queues s !! cid with
                   | Some l => (l, store s)
                   | None => (length (store s), store s ++ [[]])
                   end in
  (l, mkQM (alter (λ q, q ++ [job]) l st0) (<[cid := l]> (queues s))
           (running s) (aborted s) (loops s)).

Definition enqueue (job : QueueJob) (s : QueueManager)
  : nat * QueueManager * list Event :=
  let '(l, s1) := push job s in
  let '(s2, evs) := maybeStart (channelCid job) s1 in
  (length (arr (store s2) l), s2, evs).

Inductive JobState := Running | Waiting.

#[global] Instance JobState_eq_dec : EqDecision JobState.
Proof. solve_decision. Defined.

Record Item := mkItem {
  item_id : string;
  item_album_id : string;
  item_state : JobState
}.

Record ChannelSummary := mkSummary {
  sum_running : bool;
  sum_length : nat;
  sum_items : list Item
}.

Definition summarize (s : QueueManager) (cid : string) (q : list QueueJob)
  : ChannelSummary :=
  let r := bool_decide (cid ∈ running s) in
  mkSummary r (length q)
    (imap (λ idx job,
             mkItem (id job) (album_id (submit job))
                    (if Nat.eqb idx 0 && r then Running else Waiting)) q).

Definition getSummary (s : QueueManager) : gmap string ChannelSummary :=
  map_imap (λ cid l, Some (summarize s cid (arr (store s) l))) (queues s).

(** [q.findIndex(j => j.id === localJobId)] together with the element. *)
Definition findIndex (localJobId : string) (q : list QueueJob)
  : option (nat * QueueJob) :=
  list_find (λ j, id j = localJobId) q.

Definition cancel (channelCid0 localJobId : string) (s : QueueManager)
  : bool * QueueManager :=
  match queues s !! channelCid0 with
  | None => (false, s)
  | Some l =>
      let q := arr (store s) l in
      if bool_decide (length q = 0%nat) then (false, s)
      else match findIndex localJobId q with
           | None => (false, s)
           | Some (idx, job) =>
               let q' := delete idx q in
               (true,
                mkQM (<[l := q']> (store s))
                     (if bool_decide (length q' = 0%nat)
                      then delete channelCid0 (queues s) else queues s)
                     (running s)
                     ({[controller job]} ∪ aborted s)
                     (loops s))
           end
  end.

Definition clear (channelCid0 : string) (s : QueueManager)
  : nat * QueueManager :=
  match queues s !! channelCid0 with
  | None => (0%nat, s)
  | Some l =>
      let q := arr (store s) l in
      (length q,
       mkQM (store s) (delete channelCid0 (queues s))
            (running s ∖ {[channelCid0]})
            (list_to_set (controller <$> q) ∪ aborted s)
            (loops s))
  end.

(** What can happen to a manager: the three public mutators are called, or
    the [processJob] awaited by the [i]-th suspended activation settles.
    None of the mutators suspends, and [processJob] always suspends at least
    once (its first statement awaits), so these are the atomic steps. *)
Inductive Op :=
| OpEnqueue (job : QueueJob)
| OpCancel (cid localJobId : string)
| OpClear (cid : string)
| OpSettle (i : nat).

Definition step (op : Op) (s : QueueManager) : QueueManager * list Event :=
  match op with
  | OpEnqueue job => let '(_, s', evs) := enqueue job s in (s', evs)
  | OpCancel cid jid => ((cancel cid jid s).2, [])
  | OpClear cid => ((clear cid s).2, [])
  | OpSettle i => settle i s
  end.

Fixpoint run (ops : list Op) (s : QueueManager) : QueueManager * list Event :=
  match ops with
  | [] => (s, [])
  | op :: ops' =>
      let '(s1, e1) := step op s in
      let '(s2, e2) := run ops' s1 in
      (s2, e1 ++ e2)
  end.

(** *** Observations on histories and reachable states *)

(** The jobs whose [processJob] settled, started, for channel [c], in order. *)
Definition ended (c : string) (evs : list Event) : list QueueJob :=
  omap (λ e, match e with
             | EvEnd c' j => if decide (c' = c) then Some j else None
             | _ => None
             end) evs.

Definition started (c : string) (evs : list Event) : list QueueJob :=
  omap (λ e, match e with
             | EvStart c' j => if decide (c' = c) then Some j else None
             | _ => None
             end) evs.

(** The jobs handed to [enqueue] for channel [c], in order. *)
Definition enqueued (c : string) (ops : list Op) : list QueueJob :=
  omap (λ op, match op with
              | OpEnqueue j =>
                  if decide (channelCid j = c) then Some j else None
              | _ => None
              end) ops.

(** Histories made of enqueues and of settling jobs only. *)
Definition calm (op : Op) : bool :=
  match op with
  | OpEnqueue _ | OpSettle _ => true
  | OpCancel _ _ | OpClear _ => false
  end.

Definition is_settle (op : Op) : bool :=
  match op with
  | OpSettle _ => true
  | _ => false
  end.

(** How many items [getSummary] labels [Waiting] for a channel. *)
Definition waiting_count (s : QueueManager) (cid : string) : nat :=
  match getSummary s !! cid with
  | Some e => length (filter (λ it, item_state it = Waiting) (sum_items e))
  | None => 0%nat
  end.

(** How the channel map, the store and the suspended activations fit
    together: mapped arrays are allocated and non-empty, an array belongs to
    one channel only. *)
Record shaped (s : QueueManager) : Prop := mkShaped {
  sh_nonempty : ∀ c l, queues s !! c = Some l →
                       ∃ j q, store s !! l = Some (j :: q);
  sh_bound : ∀ lp, lp ∈ loops s → (l_q lp < length (store s))%nat;
  sh_owner : ∀ lp c, lp ∈ loops s → queues s !! c = Some (l_q lp) →
                     c = l_cid lp;
  sh_inj : ∀ c c' l, queues s !! c = Some l → queues s !! c' = Some l →
                     c = c'
}.

(** Invariant of every reachable state. *)
Record wf (s : QueueManager) : Prop := mkWf {
  wf_shaped : shaped s;
  wf_running : ∀ c, is_Some (queues s !! c) → c ∈ running s
}.

(** Invariant of the states reached by enqueues and settling jobs alone. *)
Record tidy (s : QueueManager) : Prop := mkTidy {
  tidy_wf : wf s;
  tidy_map : ∀ lp, lp ∈ loops s → queues s !! l_cid lp = Some (l_q lp);
  tidy_head : ∀ lp, lp ∈ loops s →
                    head (arr (store s) (l_q lp)) = Some (l_job lp);
  tidy_nodup : NoDup (l_cid <$> loops s);
  tidy_running : ∀ c, c ∈ running s → c ∈ l_cid <$> loops s
}.

(** The channel an operation works on: the job's channel, the channel
    named in the call, or the channel of the suspended activation. *)
Definition op_channel (s : QueueManager) (op : Op) : option string :=
  match op with
  | OpEnqueue job => Some (channelCid job)
  | OpCancel cid _ => Some cid
  | OpClear cid => Some cid
  | OpSettle i => l_cid <$> loops s !! i
  end.

(** All the jobs handed to [enqueue], in order. *)
Definition enqueued_all (ops : list Op) : list QueueJob :=
  omap (λ op, match op with
              | OpEnqueue j => Some j
              | _ => None
              end) ops.

(** Every job in the store, and every signalled token, comes from the jobs
    of [E]. *)
Definition from_jobs (E : list QueueJob) (s : QueueManager) : Prop :=
  (∀ l q j, store s !! l = Some q → j ∈ q → j ∈ E)
  ∧ (∀ x, x ∈ aborted s → x ∈ controller <$> E).

(** The jobs whose [processJob] the suspended activations of channel [c]
    are awaiting. *)
Definition in_flight (c : string) (s : QueueManager) : list QueueJob :=
  l_job <$> filter (λ lp, l_cid lp = c) (loops s).

End Queue.

(** ** The life cycle of one job: [processJob] and its helpers *)

Module Job.

Record Config := mkConfig {
  endpoint : string;
  queryInterval : Z;
  config_encrypt : bool;
  config_password : option string;
  timeout : Z
}.

(** The backend's task record; [metadata], which the plugin never reads, is
    left out. *)
Record Task := mkTask {
  task_id : string;
  task_album_id : string;
  status : string;
  progress : Z;
  total_images : Z;
  stage : string;
  duplicate : bool;
  download_url : string;
  artifact_filename : string;
  error : string;
  task_password : string
}.

(** What a request to the backend resolves with.  The code types it as
    [Task], which nothing checks at run time: it is a task object, or
    [null] or [undefined], of which no property can be read.  (Of any
    other value the properties read as absent, like those of a task object
    without them.) *)
Inductive Answer :=
| Object (task : Task)
| Null
| Undefined.

Definition nullish (a : Answer) : bool :=
  match a with
  | Object _ => false
  | _ => true
  end.

(** [string | string[] | undefined] *)
Inductive StatusMessageId :=
| MsgUndefined
| MsgId (mid : string)
| MsgIds (mids : list string).

#[global] Instance StatusMessageId_eq_dec : EqDecision StatusMessageId.
Proof. solve_decision. Defined.

(** A thrown value, as far as [formatErr] tells thrown values apart: a
    falsy value, a string, or an object with its [message] (empty when it
    has none) and the text [JSON.stringify] (or [String]) gives for it. *)
Inductive Thrown :=
| ThrownFalsy
| ThrownString (s : string)
| ThrownObject (message json : string).

(** What is handed to [session.send]: a text, or [h.file(url, {filename})]. *)
Inductive Content :=
| CText (text : string)
| CFile (url : string) (filename : option string).

Inductive Event :=
| EvSend (c : Content) (r : StatusMessageId + Thrown)
| EvDelete (mid : string) (ok : bool)
| EvPost (url : string) (body : Submit) (r : Answer + Thrown)
| EvGet (url : string) (r : Answer + Thrown)
| EvSleep (ms : Z)
| EvStatusMsg (old new : StatusMessageId)    (* job.statusMsg = new *)
| EvNow (t : Z).                             (* Date.now() returned t *)

(** The world around one run of [processJob]: what the [n]-th call of each
    collaborator answers.  [started_at] is the clock at the call of
    [processJob]: the code never reads it, and a reading made before any
    other call would return it. *)
Record Env := mkEnv {
  send_result : nat → StatusMessageId + Thrown;
  has_bot : bool;
  delete_ok : nat → bool;
  post_result : Answer + Thrown;
  get_result : nat → Answer + Thrown;
  signal_aborted : nat → bool;
  clock : nat → Z;
  started_at : Z
}.

(** The mutable fields of the job, the number of calls made so far to each
    collaborator, and the calls and field writes so far. *)
Record St := mkSt {
  statusMsg : StatusMessageId;
  lastStatus : option string;
  backendTask : option Answer;
  n_send : nat;
  n_delete : nat;
  n_get : nat;
  n_aborted : nat;
  n_clock : nat;
  trace : list Event
}.

Definition fresh : St := mkSt MsgUndefined None None 0 0 0 0 0 [].

(** How the job ended: which [return] or [break] of [processJob] was taken. *)
Inductive Outcome :=
| SubmitFailed
| Cancelled
| TimedOut
| Delivered
| BackendFailed.

(** What one round of the polling loop asks for. *)
Inductive Ctl := Continue | Break (o : Outcome).

(** JavaScript truthiness of a string, and of a message reference. *)
Definition truthy (s : string) : bool := negb (String.eqb s "").

Definition holds (m : StatusMessageId) : bool :=
  match m with
  | MsgUndefined => false
  | MsgId mid => truthy mid
  | MsgIds _ => true
  end.

Definition formatErr (e : Thrown) : string :=
  match e with
  | ThrownFalsy => "未知错误"
  | ThrownString s => if truthy s then s else "未知错误"
  | ThrownObject message json => if truthy message then message else json
  end.

(** The [TypeError] thrown when property [prop] of [null] or [undefined]
    is read, with the message Node gives it. *)
Definition type_error (a : Answer) (prop : string) : Thrown :=
  ThrownObject ("Cannot read properties of "
                +:+ match a with
                    | Undefined => "undefined"
                    | _ => "null"
                    end
                +:+ " (reading '" +:+ prop +:+ "')") "{}".

(** *** State and exceptions *)

Definition M (A : Type) : Type := St → (A + Thrown) * St.

Definition ret {A} (a : A) : M A := λ st, (inl a, st).

Definition bind {A B} (m : M A) (k : A → M B) : M B :=
  λ st, match m st with
        | (inl a, st') => k a st'
        | (inr e, st') => (inr e, st')
        end.

(** [try { m } catch (e) { h e }] *)
Definition catch {A} (m : M A) (h : Thrown → M A) : M A :=
  λ st, match m st with
        | (inl a, st') => (inl a, st')
        | (inr e, st') => h e st'
        end.

(** The outcome of a [try] block, for the code after it to inspect. *)
Definition throw {A} (e : Thrown) : M A := λ st, (inr e, st).

(** The first read of a property, [prop], of an answer: it throws unless
    the answer is an object. *)
Definition object_of (a : Answer) (prop : string) : M Task :=
  match a with
  | Object task => ret task
  | _ => throw (type_error a prop)
  end.

Definition attempt {A} (m : M A) : M (A + Thrown) :=
  λ st, match m st with
        | (r, st') => (inl r, st')
        end.

Notation "x <- m ;; k" := (bind m (λ x, k))
  (at level 100, m at next level, right associativity).
Notation "m ;;; k" := (bind m (λ _, k))
  (at level 100, right associativity).

Definition emit (e : Event) (st : St) : St :=
  mkSt (statusMsg st) (lastStatus st) (backendTask st) (n_send st)
       (n_delete st) (n_get st) (n_aborted st) (n_clock st) (trace st ++ [e]).

Section Run.
Context (config : Config) (env : Env) (job : QueueJob).

(** [session.send(content)] *)
Definition send (c : Content) : M StatusMessageId :=
  λ st, let r := send_result env (n_send st) in
        (r, emit (EvSend c r)
              (mkSt (statusMsg st) (lastStatus st) (backendTask st)
                    (S (n_send st)) (n_delete st) (n_get st) (n_aborted st)
                    (n_clock st) (trace st))).

(** [session.bot?.deleteMessage(channelId, mid)] *)
Definition deleteMessage (mid : string) : M unit :=
  if has_bot env then
    λ st, let ok := delete_ok env (n_delete st) in
          (if ok then inl () else inr ThrownFalsy,
           emit (EvDelete mid ok)
             (mkSt (statusMsg st) (lastStatus st) (backendTask st)
                   (n_send st) (S (n_delete st)) (n_get st) (n_aborted st)
                   (n_clock st) (trace st)))
  else ret ().

(** [ctx.http.post(url, body, {timeout})] *)
Definition http_post (url : string) (body : Submit) : M Answer :=
  λ st, (post_result env, emit (EvPost url body (post_result env)) st).

(** [ctx.http.get(url, {timeout})] *)
Definition http_get (url : string) : M Answer :=
  λ st, let r := get_result env (n_get st) in
        (r, emit (EvGet url r)
              (mkSt (statusMsg st) (lastStatus st) (backendTask st)
                    (n_send st) (n_delete st) (S (n_get st)) (n_aborted st)
                    (n_clock st) (trace st))).

Definition sleep (ms : Z) : M unit := λ st, (inl (), emit (EvSleep ms) st).

(** [Date.now()] *)
Definition now : M Z :=
  λ st, let t := clock env (n_clock st) in
        (inl t, emit (EvNow t)
                  (mkSt (statusMsg st) (lastStatus st) (backendTask st)
                        (n_send st) (n_delete st) (n_get st) (n_aborted st)
                        (S (n_clock st)) (trace st))).

(** [job.controller.signal.aborted] *)
Definition aborted : M bool :=
  λ st, (inl (signal_aborted env (n_aborted st)),
         mkSt (statusMsg st) (lastStatus st) (backendTask st) (n_send st)
              (n_delete st) (n_get st) (S (n_aborted st)) (n_clock st)
              (trace st)).

Definition get_statusMsg : M StatusMessageId := λ st, (inl (statusMsg st), st).

Definition set_statusMsg (v : StatusMessageId) : M unit :=
  λ st, (inl (),
         emit (EvStatusMsg (statusMsg st) v)
           (mkSt v (lastStatus st) (backendTask st) (n_send st)
                 (n_delete st) (n_get st) (n_aborted st) (n_clock st)
                 (trace st))).

Definition set_lastStatus (text : string) : M unit :=
  λ st, (inl (),
         mkSt (statusMsg st) (Some text) (backendTask st) (n_send st)
              (n_delete st) (n_get st) (n_aborted st) (n_clock st)
              (trace st)).

Definition set_backendTask (t : Answer) : M unit :=
  λ st, (inl (),
         mkSt (statusMsg st) (lastStatus st) (Some t) (n_send st)
              (n_delete st) (n_get st) (n_aborted st) (n_clock st)
              (trace st)).

Definition safeSend (c : Content) : M StatusMessageId :=
  catch (send c) (λ _, ret MsgUndefined).

(** [for (const mid of id) await deleteMessage(mid)] *)
Fixpoint deleteAll (mids : list string) : M unit :=
  match mids with
  | [] => ret ()
  | mid :: rest => deleteMessage mid ;;; deleteAll rest
  end.

Definition recallStatus : M unit :=
  id <- get_statusMsg ;;
  if negb (holds id) then ret ()
  else
    catch (match id with
           | MsgIds mids => deleteAll mids
           | MsgId mid => deleteMessage mid
           | MsgUndefined => ret ()
           end) (λ _, ret ()) ;;;
    set_statusMsg MsgUndefined.

Definition updateStatus (text : string) : M unit :=
  recallStatus ;;;
  r <- safeSend (CText text) ;;
  set_statusMsg r ;;;
  set_lastStatus text.

Definition finalSubmit : Submit :=
  let s := submit job in
  mkSubmit (album_id s)
           (match password s with
            | Some p => Some p
            | None => config_password config
            end)
           (if config_encrypt config then Some true else encrypt s)
           (match output_format s with
            | Some f => Some f
            | None => Some Zip
            end)
           (quality s).

(** The branch taken when the backend reports [status === "done"]. *)
Definition deliver (task : Task) : M unit :=
  updateStatus "打包完成，开始发送文件..." ;;;
  catch
    (if truthy (download_url task) then
       let filename := if truthy (artifact_filename task)
                       then Some (artifact_filename task) else None in
       let url := endpoint config +:+ download_url task in
       send (CFile url filename) ;;; ret ()
     else
       send (CText ("下载地址：" +:+ download_url task)) ;;; ret ())
    (λ e, send (CText ("发送文件失败：" +:+ formatErr e
                       +:+ " · 下载地址：" +:+ download_url task)) ;;;
          ret ()) ;;;
  recallStatus ;;;
  safeSend (CText ("完成 [" +:+ album_id (submit job) +:+ "] | 密码："
                   +:+ (if truthy (task_password task)
                        then task_password task else "无"))) ;;;
  ret ().

(** One round of [while (true)]. *)
Definition poll_round (created : Task) (startAt : Z) : M Ctl :=
  a <- aborted ;;
  if a then updateStatus "任务已取消" ;;; ret (Break Cancelled)
  else
    t <- now ;;
    if (timeout config <? t - startAt)%Z
    then updateStatus "任务超时" ;;; ret (Break TimedOut)
    else
      r <- attempt (http_get (endpoint config +:+ "/tasks/"
                              +:+ task_id created)) ;;
      match r with
      | inr _ =>
          updateStatus "查询失败，重试中..." ;;;
          sleep (queryInterval config) ;;;
          ret Continue
      | inl a =>
          set_backendTask a ;;;
          task <- object_of a "status" ;;
          if String.eqb (status task) "done"
          then deliver task ;;; ret (Break Delivered)
          else if String.eqb (status task) "error" || truthy (error task)
          then updateStatus ("任务失败：" +:+
                             (if truthy (error task)
                              then error task else "未知错误")) ;;;
               ret (Break BackendFailed)
          else sleep (queryInterval config) ;;; ret Continue
      end.

(** The polling loop, cut after [fuel] rounds: [None] when the job is
    still polling then. *)
Fixpoint poll_loop (fuel : nat) (created : Task) (startAt : Z)
  : M (option Outcome) :=
  match fuel with
  | O => ret None
  | S fuel' =>
      c <- poll_round created startAt ;;
      match c with
      | Continue => poll_loop fuel' created startAt
      | Break o => ret (Some o)
      end
  end.

(** [processJob] from the creation of the backend task on. *)
Definition submit_and_poll (fuel : nat) : M (option Outcome) :=
  c <- attempt (http_post (endpoint config +:+ "/tasks") finalSubmit) ;;
  match c with
  | inr err =>
      updateStatus ("创建任务失败：" +:+ formatErr err) ;;;
      ret (Some SubmitFailed)
  | inl a =>
      set_backendTask a ;;;
      created <- object_of a "task_id" ;;
      updateStatus ("任务已创建：" +:+ task_id created
                    +:+ "，开始下载（共"
                    +:+ (if Z.eqb (total_images created) 0 then "?"
                         else pretty (total_images created))
                    +:+ "张）") ;;;
      startAt <- now ;;
      poll_loop fuel created startAt
  end.

Definition processJob (fuel : nat) : M (option Outcome) :=
  r <- safeSend (CText ("开始下载 [" +:+ album_id (submit job)
                        +:+ "]，正在创建任务...")) ;;
  set_statusMsg r ;;;
  submit_and_poll fuel.
End Run.

(** *** Observations on traces *)

(** Calls made by [recallStatus]: deletions, and the reset of the field. *)
Definition recall_event (e : Event) : bool :=
  match e with
  | EvDelete _ _ => true
  | EvStatusMsg _ MsgUndefined => true
  | _ => false
  end.

(** Calls that belong to the delivery of the artifact: the notice that the
    job enters delivery, and any file attachment. *)
Definition delivering (e : Event) : bool :=
  match e with
  | EvSend (CFile _ _) _ => true
  | EvSend (CText t) _ => String.eqb t "打包完成，开始发送文件..."
  | _ => false
  end.

(** A write to [job.statusMsg] never replaces a reference that is held by
    another reference: a held reference is only ever reset. *)
Definition ref_kept (e : Event) : bool :=
  match e with
  | EvStatusMsg old new => negb (holds old && holds new)
  | _ => true
  end.

Definition no_delivery (tr : list Event) : bool :=
  forallb (λ e, negb (delivering e)) tr.

(** What [safeSend] returns for an answer of [session.send]. *)
Definition sent (r : StatusMessageId + Thrown) : StatusMessageId :=
  match r with
  | inl v => v
  | inr _ => MsgUndefined
  end.

(** A backend answer that leaves the job polling: a failed query, or a task
    that is neither done nor failed. *)
Definition pending (r : Answer + Thrown) : bool :=
  match r with
  | inr _ => true
  | inl (Object t) =>
      negb (String.eqb (status t) "done")
      && negb (String.eqb (status t) "error" || truthy (error t))
  | inl _ => false
  end.

(** What [deliver] hands to the chat: the artifact, the report of a failed
    delivery, the completion notice. *)
Definition artifact (config : Config) (task : Task) : Content :=
  if truthy (download_url task)
  then CFile (endpoint config +:+ download_url task)
             (if truthy (artifact_filename task)
              then Some (artifact_filename task) else None)
  else CText ("下载地址：" +:+ download_url task).

Definition failure_report (e : Thrown) (task : Task) : Content :=
  CText ("发送文件失败：" +:+ formatErr e +:+ " · 下载地址：" +:+ download_url task).

Definition completion_notice (job : QueueJob) (task : Task) : Content :=
  CText ("完成 [" +:+ album_id (submit job) +:+ "] | 密码："
         +:+ (if truthy (task_password task) then task_password task
              else "无")).

(** Why a round that starts in [st] may end the job with outcome [o]. *)
Definition stop_cause (config : Config) (env : Env) (startAt : Z) (st : St)
    (o : Outcome) : Prop :=
  match o with
  | Cancelled => signal_aborted env (n_aborted st) = true
  | TimedOut =>
      signal_aborted env (n_aborted st) = false
      ∧ (timeout config < clock env (n_clock st) - startAt)%Z
  | Delivered =>
      ∃ task, get_result env (n_get st) = inl (Object task)
              ∧ status task = "done"
  | BackendFailed =>
      ∃ task, get_result env (n_get st) = inl (Object task)
              ∧ (status task = "error" ∨ error task ≠ "")
  | SubmitFailed => False
  end.





(** The polling counters and the fetched task are untouched. *)
Record same_poll (st st' : St) : Prop := mkSamePoll {
  sp_get : n_get st' = n_get st;
  sp_aborted : n_aborted st' = n_aborted st;
  sp_clock : n_clock st' = n_clock st;
  sp_task : backendTask st' = backendTask st
}.

(** A computation that only adds events allowed by [q] to the trace. *)
Definition emits (q : Event → bool) {A} (m : M A) : Prop :=
  ∀ st, ∃ tr, trace (m st).2 = trace st ++ tr ∧ forallb q tr = true.

(** The calls allowed once the submission has been made, given what it
    answered: no further submission, queries only for the task that was
    created, pauses of one [queryInterval] only. *)
Definition after_submit (config : Config) (p : Answer + Thrown) (e : Event)
  : bool :=
  match e with
  | EvPost _ _ _ => false
  | EvGet url _ =>
      match p with
      | inl (Object created) =>
          String.eqb url (endpoint config +:+ "/tasks/" +:+ task_id created)
      | _ => false
      end
  | EvSleep ms => Z.eqb ms (queryInterval config)
  | _ => true
  end.


(** *** What a recall and a status update ask of the chat *)

(** The message ids a reference stands for. *)
Definition ids_of (m : StatusMessageId) : list string :=
  match m with
  | MsgUndefined => []
  | MsgId mid => [mid]
  | MsgIds mids => mids
  end.

(** Recalling the messages [mids], the first deletion being the [n]-th
    asked of the platform: one [deleteMessage] per id, in order, up to and
    including the first one that fails. *)
Fixpoint deletions (env : Env) (n : nat) (mids : list string) : list Event :=
  match mids with
  | [] => []
  | mid :: rest =>
      EvDelete mid (delete_ok env n)
      :: (if delete_ok env n then deletions env (S n) rest else [])
  end.

(** The deletions of a recall when the field holds [m]: none when no
    reference is held or the session has no bot. *)
Definition recall_deletions (env : Env) (m : StatusMessageId) (n : nat)
  : list Event :=
  if holds m && has_bot env then deletions env n (ids_of m) else [].

(** A recall when the field holds [m]: the deletions, then the reset of
    the field; nothing at all when no reference is held. *)
Definition recall_trace (env : Env) (m : StatusMessageId) (n : nat)
  : list Event :=
  recall_deletions env m n
  ++ (if holds m then [EvStatusMsg m MsgUndefined] else []).

(** The field after a recall. *)
Definition recalled (m : StatusMessageId) : StatusMessageId :=
  if holds m then MsgUndefined else m.

(** A status update with [text] when the field holds [m], [n] deletions
    and [k] sends having been asked so far: the recall, the post, and the
    write of what the post returned. *)
Definition update_trace (env : Env) (m : StatusMessageId) (n k : nat)
    (text : string) : list Event :=
  recall_trace env m n
  ++ [EvSend (CText text) (send_result env k);
      EvStatusMsg (recalled m) (sent (send_result env k))].

(** The two notices of [processJob] before the polling. *)
Definition start_notice (job : QueueJob) : string :=
  "开始下载 [" +:+ album_id (submit job) +:+ "]，正在创建任务...".

Definition created_notice (created : Task) : string :=
  "任务已创建：" +:+ task_id created +:+ "，开始下载（共"
  +:+ (if Z.eqb (total_images created) 0 then "?"
       else pretty (total_images created))
  +:+ "张）".

(** The calls of [processJob] up to the first round of the polling, when
    it starts with an empty field and the submission answers [created]:
    the start notice, the submission, the created notice, and only then
    the reading of the clock taken as [startAt]. *)
Definition prelude_trace (config : Config) (env : Env) (job : QueueJob)
    (created : Task) : list Event :=
  [EvSend (CText (start_notice job)) (send_result env 0);
   EvStatusMsg MsgUndefined (sent (send_result env 0));
   EvPost (endpoint config +:+ "/tasks") (finalSubmit config job)
     (inl (Object created))]
  ++ update_trace env (sent (send_result env 0)) 0 1 (created_notice created)
  ++ [EvNow (clock env 0)].

(** *** Time and the chat, as a trace shows them *)

(** The clock readings made before any call: no time has passed since
    [processJob] was called when they are made. *)
Fixpoint at_call (tr : list Event) : list Z :=
  match tr with
  | EvNow t :: tr' => t :: at_call tr'
  | _ => []
  end.



(** The causes for which a round that starts in [st] throws [e]: the
    token is not signalled, the budget is not exceeded, and the query is
    answered by a task that is done (the delivery and its report failed),
    or by [null] or [undefined]. *)
Definition throw_cause (config : Config) (env : Env) (startAt : Z) (st : St)
    (e : Thrown) : Prop :=
  signal_aborted env (n_aborted st) = false
  ∧ (clock env (n_clock st) - startAt <= timeout config)%Z
  ∧ ((∃ task e1,
        get_result env (n_get st) = inl (Object task)
        ∧ status task = "done"
        ∧ send_result env (S (n_send st)) = inr e1
        ∧ send_result env (S (S (n_send st))) = inr e)
     ∨ (∃ a, get_result env (n_get st) = inl a
             ∧ nullish a = true
             ∧ e = type_error a "status")).

End Job.

(** ** The commands registered by [apply] *)

Module Command.
Import Job.

(** The options of [jm] as its handler reads them: [password] and
    [quality] may be absent, [no-encrypt] and [pdf] are read for their
    truthiness; [zip] is declared but never read. *)
Record Options := mkOptions {
  opt_password : option string;
  opt_no_encrypt : bool;
  opt_pdf : bool;
  opt_quality : option Z
}.

(** The module-level [jobCounter] and the [QueueManager] made by [apply]. *)
Record Plugin := mkPlugin {
  jobCounter : nat;
  queue : Queue.QueueManager
}.

(** The plugin once [apply] has returned. *)
Definition loaded : Plugin := mkPlugin 0 Queue.init.

(** What a handler answers with: the string it returns, or the text it
    hands to [safeSend] itself. *)
Inductive Reply :=
| Returned (text : string)
| Sent (text : string).

(** An optional argument that passes the guard [if (!x) return ...]. *)
Definition given (x : option string) : option string :=
  match x with
  | Some a => if truthy a then Some a else None
  | None => None
  end.

(** The [submit] object literal of the [jm] handler. *)
Definition build_submit (config : Config) (options : Options) (id0 : string)
  : Submit :=
  mkSubmit id0
           (match opt_password options with
            | Some p => Some p
            | None => config_password config
            end)
           (Some (if config_encrypt config then true
                  else negb (opt_no_encrypt options)))
           (Some (if opt_pdf options then Pdf else Zip))
           (opt_quality options).

(** The [job] object literal of the [jm] handler, [n] being the value of
    [++jobCounter]; the new [AbortController] gets the reference [n]. *)
Definition new_job (config : Config) (cid : string) (options : Options)
    (id0 : string) (now : Z) (n : nat) : QueueJob :=
  mkJob ("J" +:+ pretty n) cid (build_submit config options id0) now n.

Definition jm (config : Config) (cid : string) (options : Options)
    (id0 : option string) (now : Z) (p : Plugin)
  : Reply * Plugin * list Queue.Event :=
  match given id0 with
  | None => (Returned "请输入本子ID", p, [])
  | Some a =>
      let n := S (jobCounter p) in
      let '(pos, q, evs) :=
        Queue.enqueue (new_job config cid options a now n) (queue p) in
      (Sent ("已加入队列（位置 " +:+ pretty pos +:+ "）[" +:+ a +:+ "]"),
       mkPlugin n q, evs)
  end.

Definition tasks_cancel (cid : string) (jobId : option string) (p : Plugin)
  : Reply * Plugin :=
  match given jobId with
  | None => (Returned "请提供任务ID", p)
  | Some jid =>
      let '(ok, q) := Queue.cancel cid jid (queue p) in
      (Returned ((if ok then "已取消 " else "未找到任务 ") +:+ jid),
       mkPlugin (jobCounter p) q)
  end.

Definition tasks_clear (cid : string) (p : Plugin) : Reply * Plugin :=
  let '(n, q) := Queue.clear cid (queue p) in
  (Returned ("已清空 " +:+ pretty n +:+ " 个任务"), mkPlugin (jobCounter p) q).

(** The two [lines.push] of [.list]. *)
Definition item_line (it : Queue.Item) : string :=
  "  - "
  +:+ (if decide (Queue.item_state it = Queue.Running) then "▶" else "…")
  +:+ " " +:+ Queue.item_id it +:+ " #" +:+ Queue.item_album_id it.

Definition channel_lines (cid : string) (s : Queue.ChannelSummary)
  : list string :=
  ("频道 " +:+ cid +:+ " · 运行中: "
   +:+ (if Queue.sum_running s then "是" else "否")
   +:+ " · 队列: " +:+ pretty (Queue.sum_length s))
  :: (item_line <$> Queue.sum_items s).

(** [.list] without [-a]: the entries of the other channels are skipped, so
    [lines] holds the lines of the caller's channel, if it has an entry. *)
Definition list_lines (selfCid : string) (p : Plugin) : list string :=
  match Queue.getSummary (queue p) !! selfCid with
  | Some s => channel_lines selfCid s
  | None => []
  end.

Definition tasks_list (selfCid : string) (p : Plugin) : Reply :=
  let lines := list_lines selfCid p in
  Returned (if bool_decide (lines = []) then "暂无任务。"
            else String.concat (String (Ascii.ascii_of_nat 10) EmptyString) lines).

(** What happens to the plugin: a command that changes it is handled, or
    the [processJob] awaited by the [i]-th suspended activation settles. *)
Inductive Act :=
| ActJm (cid : string) (options : Options) (id0 : option string) (now : Z)
| ActCancel (cid : string) (jobId : option string)
| ActClear (cid : string)
| ActSettle (i : nat).

Definition exec (config : Config) (a : Act) (p : Plugin)
  : Plugin * list Queue.Event :=
  match a with
  | ActJm cid options id0 now =>
      let '(_, p', evs) := jm config cid options id0 now p in (p', evs)
  | ActCancel cid jobId => ((tasks_cancel cid jobId p).2, [])
  | ActClear cid => ((tasks_clear cid p).2, [])
  | ActSettle i =>
      let '(q, evs) := Queue.settle i (queue p) in
      (mkPlugin (jobCounter p) q, evs)
  end.

Fixpoint play (config : Config) (acts : list Act) (p : Plugin)
  : Plugin * list Queue.Event :=
  match acts with
  | [] => (p, [])
  | a :: acts' =>
      let '(p1, e1) := exec config a p in
      let '(p2, e2) := play config acts' p1 in
      (p2, e1 ++ e2)
  end.

(** [j] is a job the [jm] handler built, with a counter value up to [n]. *)
Definition issued (config : Config) (n : nat) (j : QueueJob) : Prop :=
  ∃ k cid options id0 now,
    (k ≤ n)%nat ∧ j = new_job config cid options id0 now k.

(** Every array holds jobs the handler built, under pairwise distinct ids. *)
Definition numbered (config : Config) (p : Plugin) : Prop :=
  ∀ l q, Queue.store (queue p) !! l = Some q →
         NoDup (id <$> q) ∧ ∀ j, j ∈ q → issued config (jobCounter p) j.

(** The line [.list] shows for a job. *)
Definition job_line (mark : string) (j : QueueJob) : string :=
  "  - " +:+ mark +:+ " " +:+ id j +:+ " #" +:+ album_id (submit j).

End Command.

(** ** Sample jobs and worlds used by the concrete runs *)

Module Samples.
Import Job.

Definition sample_submit : Submit := mkSubmit "12345" None None None None.
Definition jobA : QueueJob := mkJob "J1" "c" sample_submit 0 1.
Definition jobB : QueueJob := mkJob "J2" "c" sample_submit 0 2.
Definition jobC : QueueJob := mkJob "J3" "c" sample_submit 0 3.
Definition sample_options : Command.Options :=
  Command.mkOptions None true true (Some 80).

Definition sample_config : Config :=
  mkConfig "http://127.0.0.1:7210" 500 true None 1000.
Definition task_pending : Task :=
  mkTask "T1" "12345" "pending" 0 0 "" false "" "" "" "".
Definition task_done : Task :=
  mkTask "T1" "12345" "done" 10 10 "" false "/files/a.zip" "a.zip" "" "abcd".

(** Every message is sent and numbered. *)
Definition sends_ok (n : nat) : StatusMessageId + Thrown :=
  inl (MsgIds [pretty n]).

(** The backend never leaves the pending state; the clock advances by
    500 ms per reading. *)
Definition env_stuck : Env :=
  mkEnv sends_ok true (λ _, true) (inl (Object task_pending))
        (λ _, inl (Object task_pending)) (λ _, false)
        (λ n, Z.of_nat n * 500) 0.

(** The submission takes five seconds, then the first query reports the
    task done. *)
Definition env_slow : Env :=
  mkEnv sends_ok true (λ _, true) (inl (Object task_pending))
        (λ _, inl (Object task_done)) (λ _, false) (λ _, 5000) 0.

(** The first query fails, the second reports the task done. *)
Definition env_retry : Env :=
  mkEnv sends_ok true (λ _, true) (inl (Object task_pending))
        (λ n, if Nat.eqb n 0 then inr (ThrownObject "ETIMEDOUT" "{}")
              else inl (Object task_done))
        (λ _, false) (λ n, Z.of_nat n * 500) 0.

(** The chat accepts the three status notices and then goes offline; the
    first query reports the task done. *)
Definition env_offline : Env :=
  mkEnv (λ n, if Nat.ltb n 3 then sends_ok n
              else inr (ThrownString "offline"))
        true (λ _, true) (inl (Object task_pending))
        (λ _, inl (Object task_done))
        (λ _, false) (λ n, Z.of_nat n * 500) 0.

(** The backend reports a failure with a detail. *)
Definition task_error : Task :=
  mkTask "T1" "12345" "error" 3 10 "download" false "" "" "album not found"
         "".

Definition env_backend_error : Env :=
  mkEnv sends_ok true (λ _, true) (inl (Object task_pending))
        (λ n, if Nat.eqb n 0 then inl (Object task_pending)
              else inl (Object task_error))
        (λ _, false) (λ n, Z.of_nat n * 100) 0.

(** The token is signalled before the first round, and the clock is past
    the budget as well. *)
Definition env_cancelled_late : Env :=
  mkEnv sends_ok true (λ _, true) (inl (Object task_pending))
        (λ _, inl (Object task_pending)) (λ _, true)
        (λ n, Z.of_nat n * 5000) 0.

(** The platform deletes one message and refuses the next ones; the job
    holds the references of a status sent as three messages. *)
Definition env_delete_once : Env :=
  mkEnv sends_ok true (λ n, Nat.ltb n 1) (inl (Object task_pending))
        (λ _, inl (Object task_pending)) (λ _, false)
        (λ n, Z.of_nat n * 500) 0.

Definition st_three_parts : St :=
  mkSt (MsgIds ["m1"; "m2"; "m3"]) None None 0 0 0 0 0 [].

(** The submission creates the task, then every query resolves with
    [null]; nobody cancels and the clock stands still. *)
Definition env_null_answer : Env :=
  mkEnv sends_ok true (λ _, true) (inl (Object task_pending))
        (λ _, inl Null) (λ _, false) (λ _, 0) 0.


End Samples.

Module QueueFacts.
Import Queue Samples.

Section Store.
Implicit Types (st : list (list QueueJob)) (q : list QueueJob) (l : nat).

Lemma arr_lookup st l q : st !! l = Some q → arr st l = q.
Proof. unfold arr. by intros ->. Qed.

Lemma arr_insert_eq st l q : (l < length st)%nat → arr (<[l:=q]> st) l = q.
Proof. intros H. unfold arr. by rewrite list_lookup_insert_eq. Qed.

Lemma arr_insert_ne st l l' q : l ≠ l' → arr (<[l:=q]> st) l' = arr st l'.
Proof. intros H. unfold arr. by rewrite list_lookup_insert_ne. Qed.

Lemma arr_alter_eq st l f :
  (l < length st)%nat → arr (alter f l st) l = f (arr st l).
Proof.
  intros H. unfold arr. rewrite list_lookup_alter_eq.
  destruct (lookup_lt_is_Some_2 st l H) as [q ->]. done.
Qed.

Lemma arr_alter_ne st l l' f : l ≠ l' → arr (alter f l st) l' = arr st l'.
Proof. intros H. unfold arr. by rewrite list_lookup_alter_ne. Qed.

Lemma arr_app_l st l q : (l < length st)%nat → arr (st ++ [q]) l = arr st l.
Proof. intros H. unfold arr. by rewrite lookup_app_l. Qed.

Lemma arr_app_new st q : arr (st ++ [q]) (length st) = q.
Proof. unfold arr. by rewrite list_lookup_middle. Qed.
End Store.

(** *** Every reachable state is well formed *)

Lemma shaped_lt s c l : shaped s → queues s !! c = Some l →
  (l < length (store s))%nat.
Proof.
  intros Hs Hc. destruct (sh_nonempty s Hs c l Hc) as (j & q & Hl).
  by eapply lookup_lt_Some.
Qed.

Lemma wf_init : wf init.
Proof.
  split; [split|]; simpl.
  - intros c l H. by rewrite lookup_empty in H.
  - intros lp H. by apply elem_of_nil in H.
  - intros lp c H. by apply elem_of_nil in H.
  - intros c c' l H. by rewrite lookup_empty in H.
  - intros c [l H]. by rewrite lookup_empty in H.
Qed.

Lemma wf_maybeStart cid s :
  shaped s →
  (∀ c, c ≠ cid → is_Some (queues s !! c) → c ∈ running s) →
  wf (maybeStart cid s).1.
Proof.
  intros Hs Hr. unfold maybeStart.
  destruct (decide (cid ∈ running s)) as [Hin|Hnin]; simpl.
  { split; [done|]. intros c Hc. destruct (decide (c = cid)); subst; auto. }
  destruct (queues s !! cid) as [l|] eqn:E; simpl.
  2:{ split; [done|]. intros c [l Hc].
      destruct (decide (c = cid)); subst; [congruence|eauto]. }
  destruct (sh_nonempty s Hs cid l E) as (j & q & Hl).
  rewrite (arr_lookup _ _ _ Hl). simpl.
  split; [split|]; simpl.
  - apply Hs.
  - intros lp [H|H%list_elem_of_singleton]%elem_of_app.
    + by apply Hs.
    + subst lp. simpl. by eapply lookup_lt_Some.
  - intros lp c [H|H%list_elem_of_singleton]%elem_of_app Hc.
    + by apply Hs.
    + subst lp. simpl in *. by eapply (sh_inj s Hs).
  - apply Hs.
  - intros c Hc. destruct (decide (c = cid)); subst; [set_solver|].
    apply elem_of_union_r. auto.
Qed.

Lemma shaped_push job s : shaped s → shaped (push job s).2.
Proof.
  intros Hs. unfold push.
  destruct (queues s !! channelCid job) as [l|] eqn:E; simpl.
  - rewrite (insert_id _ _ _ E). split; simpl.
    + intros c l0 Hc. destruct (sh_nonempty s Hs c l0 Hc) as (j & q & Hl).
      destruct (decide (l = l0)) as [->|Hne].
      * exists j, (q ++ [job]). rewrite list_lookup_alter_eq, Hl. done.
      * exists j, q. by rewrite list_lookup_alter_ne.
    + intros lp H. rewrite length_alter. by apply Hs.
    + apply Hs.
    + apply Hs.
  - split; simpl.
    + intros c l0 Hc. destruct (decide (c = channelCid job)) as [->|Hne].
      * rewrite lookup_insert_eq in Hc. injection Hc as <-.
        exists job, []. rewrite list_lookup_alter_eq, list_lookup_middle; done.
      * rewrite lookup_insert_ne in Hc by done.
        pose proof (shaped_lt s c l0 Hs Hc) as Hlt.
        destruct (sh_nonempty s Hs c l0 Hc) as (j & q & Hl).
        exists j, q. rewrite list_lookup_alter_ne by lia.
        by rewrite lookup_app_l.
    + intros lp H. rewrite length_alter, length_app. simpl.
      pose proof (sh_bound s Hs lp H). lia.
    + intros lp c H Hc. destruct (decide (c = channelCid job)) as [->|Hne].
      * rewrite lookup_insert_eq in Hc. injection Hc as Hc.
        pose proof (sh_bound s Hs lp H). lia.
      * rewrite lookup_insert_ne in Hc by done. by apply Hs.
    + intros c c' l0 Hc Hc'.
      destruct (decide (c = channelCid job)) as [->|Hne];
        destruct (decide (c' = channelCid job)) as [->|Hne']; try done.
      * rewrite lookup_insert_eq in Hc. injection Hc as <-.
        rewrite lookup_insert_ne in Hc' by done.
        pose proof (shaped_lt s c' _ Hs Hc'). lia.
      * rewrite lookup_insert_eq in Hc'. injection Hc' as <-.
        rewrite lookup_insert_ne in Hc by done.
        pose proof (shaped_lt s c _ Hs Hc). lia.
      * rewrite lookup_insert_ne in Hc, Hc' by done. by eapply (sh_inj s Hs).
Qed.

Lemma push_fields job s :
  queues (push job s).2 = <[channelCid job := (push job s).1]> (queues s)
  ∧ running (push job s).2 = running s
  ∧ aborted (push job s).2 = aborted s
  ∧ loops (push job s).2 = loops s.
Proof. unfold push. by destruct (queues s !! channelCid job). Qed.

Lemma wf_enqueue job s : wf s → wf (enqueue job s).1.2.
Proof.
  intros [Hs Hr]. unfold enqueue.
  pose proof (shaped_push job s Hs) as Hs1.
  destruct (push_fields job s) as (Hq & Hrun & _ & _).
  destruct (push job s) as [l s1]; simpl in *.
  pose proof (wf_maybeStart (channelCid job) s1 Hs1) as Hw.
  destruct (maybeStart (channelCid job) s1) as [s2 evs]; simpl in *.
  apply Hw. intros c Hne Hc. rewrite Hq, lookup_insert_ne in Hc by done.
  rewrite Hrun. auto.
Qed.

Lemma elem_of_insert_inv {A} (l : list A) i x y :
  y ∈ <[i:=x]> l → y = x ∨ y ∈ l.
Proof.
  intros (k & Hk)%list_elem_of_lookup_1.
  apply list_lookup_insert_Some in Hk as [(_ & -> & _)|(_ & Hk)]; [by left|].
  right. by eapply list_elem_of_lookup_2.
Qed.

Lemma elem_of_delete_inv {A} (l : list A) i y : y ∈ delete i l → y ∈ l.
Proof. intros H. eapply elem_of_sublist; [done|apply sublist_delete]. Qed.

Lemma wf_cancel cid jid s : wf s → wf (cancel cid jid s).2.
Proof.
  intros [Hs Hr]. unfold cancel.
  destruct (queues s !! cid) as [l|] eqn:E; [|done].
  case_bool_decide as Hlen0; [done|].
  destruct (findIndex jid (arr (store s) l)) as [[idx job]|]; [|done].
  simpl. set (q' := delete idx (arr (store s) l)).
  set (qs' := if bool_decide (length q' = 0%nat)
              then delete cid (queues s) else queues s).
  assert (Hsub : ∀ c l0, qs' !! c = Some l0 → queues s !! c = Some l0).
  { intros c l0. unfold qs'. case_bool_decide; [|done].
    by intros [_ ?]%lookup_delete_Some. }
  pose proof (shaped_lt s cid l Hs E) as Hlt.
  split; [split|]; simpl.
  - intros c l0 Hc. pose proof (Hsub _ _ Hc) as Hc0.
    destruct (decide (l0 = l)) as [->|Hne].
    + assert (c = cid) as -> by (by eapply (sh_inj s Hs)).
      rewrite list_lookup_insert_eq by done.
      unfold qs' in Hc. case_bool_decide as Hlen.
      * by rewrite lookup_delete_eq in Hc.
      * destruct q' as [|j q]; [done|]. by exists j, q.
    + rewrite list_lookup_insert_ne by done. by eapply (sh_nonempty s Hs).
  - intros lp H. rewrite length_insert. by apply (sh_bound s Hs).
  - intros lp c H Hc. apply (sh_owner s Hs); auto.
  - intros c c' l0 Hc Hc'. eapply (sh_inj s Hs); eauto.
  - intros c [l0 Hc]. apply Hr. eauto.
Qed.

Lemma wf_clear cid s : wf s → wf (clear cid s).2.
Proof.
  intros [Hs Hr]. unfold clear.
  destruct (queues s !! cid) as [l|] eqn:E; [|done].
  split; [split|]; simpl.
  - intros c l0 [_ Hc]%lookup_delete_Some. by eapply (sh_nonempty s Hs).
  - apply (sh_bound s Hs).
  - intros lp c H [_ Hc]%lookup_delete_Some. by apply (sh_owner s Hs).
  - intros c c' l0 [_ Hc]%lookup_delete_Some [_ Hc']%lookup_delete_Some.
    by eapply (sh_inj s Hs).
  - intros c [l0 [Hne Hc]%lookup_delete_Some].
    apply elem_of_difference. split; [apply Hr; eauto|set_solver].
Qed.

Lemma wf_settle i s : wf s → wf (settle i s).1.
Proof.
  intros [Hs Hr]. unfold settle.
  destruct (loops s !! i) as [lp|] eqn:E; [|done].
  pose proof (list_elem_of_lookup_2 _ _ _ E) as Hin.
  pose proof (sh_bound s Hs lp Hin) as Hlt.
  destruct (tail (arr (store s) (l_q lp))) as [|job r] eqn:T; simpl.
  - split; [split|]; simpl.
    + intros c l0 [Hne Hc]%lookup_delete_Some.
      destruct (decide (l0 = l_q lp)) as [->|Hne'].
      * by pose proof (sh_owner s Hs lp c Hin Hc).
      * rewrite list_lookup_insert_ne by done. by eapply (sh_nonempty s Hs).
    + intros lp' H%elem_of_delete_inv. rewrite length_insert.
      by apply (sh_bound s Hs).
    + intros lp' c H%elem_of_delete_inv [_ Hc]%lookup_delete_Some.
      by apply (sh_owner s Hs).
    + intros c c' l0 [_ Hc]%lookup_delete_Some [_ Hc']%lookup_delete_Some.
      by eapply (sh_inj s Hs).
    + intros c [l0 [Hne Hc]%lookup_delete_Some].
      apply elem_of_difference. split; [apply Hr; eauto|set_solver].
  - split; [split|]; simpl.
    + intros c l0 Hc. destruct (decide (l0 = l_q lp)) as [->|Hne'].
      * rewrite list_lookup_insert_eq by done. by exists job, r.
      * rewrite list_lookup_insert_ne by done. by eapply (sh_nonempty s Hs).
    + intros lp' [->|H]%elem_of_insert_inv; rewrite length_insert; simpl;
        [done|by apply (sh_bound s Hs)].
    + intros lp' c [->|H]%elem_of_insert_inv Hc; simpl in *;
        by apply (sh_owner s Hs).
    + apply (sh_inj s Hs).
    + done.
Qed.

Lemma wf_step op s : wf s → wf (step op s).1.
Proof.
  intros H. destruct op as [job|cid jid|cid|i]; simpl.
  - pose proof (wf_enqueue job s H) as Hw.
    by destruct (enqueue job s) as [[pos s'] evs].
  - by apply wf_cancel.
  - by apply wf_clear.
  - by apply wf_settle.
Qed.

Lemma wf_run ops : ∀ s, wf s → wf (run ops s).1.
Proof.
  induction ops as [|op ops IH]; intros s H; simpl; [done|].
  pose proof (wf_step op s H) as H1.
  destruct (step op s) as [s1 e1]; simpl in *.
  pose proof (IH s1 H1) as H2.
  by destruct (run ops s1) as [s2 e2].
Qed.

Lemma wf_reachable ops : wf (run ops init).1.
Proof. apply wf_run, wf_init. Qed.

(** *** Reading the queue of a channel *)

Lemma maybeStart_fields cid s :
  store (maybeStart cid s).1 = store s
  ∧ queues (maybeStart cid s).1 = queues s
  ∧ aborted (maybeStart cid s).1 = aborted s.
Proof.
  unfold maybeStart. case_decide; [done|].
  destruct (queues s !! cid); [|done]. by destruct (arr (store s) n).
Qed.

Lemma queue_of_lookup s c l :
  queues s !! c = Some l → queue_of s c = arr (store s) l.
Proof. unfold queue_of. by intros ->. Qed.

Lemma queue_of_None s c : queues s !! c = None → queue_of s c = [].
Proof. unfold queue_of. by intros ->. Qed.

(** [push] appends at the tail of what the channel map shows. *)
Lemma push_queue job s :
  shaped s →
  queues (push job s).2 !! channelCid job = Some (push job s).1
  ∧ arr (store (push job s).2) (push job s).1
    = queue_of s (channelCid job) ++ [job].
Proof.
  intros Hs. unfold push, queue_of.
  destruct (queues s !! channelCid job) as [l|] eqn:E; simpl.
  - rewrite lookup_insert_eq. split; [done|].
    rewrite arr_alter_eq; [done|]. by eapply shaped_lt.
  - rewrite lookup_insert_eq. split; [done|].
    rewrite arr_alter_eq by (rewrite length_app; simpl; lia).
    by rewrite arr_app_new.
Qed.

Lemma enqueue_queue job s :
  shaped s →
  queue_of (enqueue job s).1.2 (channelCid job)
    = queue_of s (channelCid job) ++ [job]
  ∧ (enqueue job s).1.1 = S (length (queue_of s (channelCid job))).
Proof.
  intros Hs. unfold enqueue.
  destruct (push_queue job s Hs) as [Hq Ha].
  destruct (push job s) as [l s1]; simpl in *.
  destruct (maybeStart_fields (channelCid job) s1) as (Hst & Hqs & _).
  destruct (maybeStart (channelCid job) s1) as [s2 evs]; simpl in *.
  unfold queue_of at 1. rewrite Hqs, Hq, Hst, Ha.
  split; [done|]. rewrite length_app. simpl. lia.
Qed.

Lemma waiting_all (g : nat → QueueJob → Item) (q : list QueueJob) :
  (∀ i x, item_state (g i x) = Waiting) →
  length (filter (λ it, item_state it = Waiting) (imap g q)) = length q.
Proof.
  revert g. induction q as [|x q IH]; intros g Hg; simpl; [done|].
  rewrite filter_cons_True by apply Hg. simpl. f_equal. apply IH.
  intros i y. apply Hg.
Qed.

(** In a reachable state the head of a mapped queue is the only item that
    [getSummary] does not label [Waiting]. *)
Lemma waiting_count_mapped s c l :
  wf s → queues s !! c = Some l →
  S (waiting_count s c) = length (queue_of s c).
Proof.
  intros Hw Hc. unfold waiting_count, getSummary.
  rewrite map_lookup_imap, Hc. simpl.
  rewrite (queue_of_lookup _ _ _ Hc).
  destruct (sh_nonempty s (wf_shaped s Hw) c l Hc) as (j & q & Hl).
  rewrite (arr_lookup _ _ _ Hl). simpl.
  rewrite bool_decide_eq_true_2 by (apply (wf_running s Hw); eauto).
  simpl. rewrite filter_cons_False by (simpl; congruence).
  f_equal. by apply waiting_all.
Qed.

Lemma getSummary_lookup s c :
  getSummary s !! c
  = (λ l, summarize s c (arr (store s) l)) <$> queues s !! c.
Proof.
  unfold getSummary. rewrite map_lookup_imap.
  by destruct (queues s !! c).
Qed.

(** *** Histories of enqueues and settling jobs *)

Lemma elem_of_insert_other {A} (l : list A) i x y :
  y ∈ <[i:=x]> l → y = x ∨ ∃ k, k ≠ i ∧ l !! k = Some y.
Proof.
  intros (k & Hk)%list_elem_of_lookup_1.
  apply list_lookup_insert_Some in Hk as [(_ & -> & _)|(? & Hk)]; [by left|].
  right. exists k. auto.
Qed.

Lemma elem_of_delete_other {A} (l : list A) i y :
  y ∈ delete i l → ∃ k, k ≠ i ∧ l !! k = Some y.
Proof.
  intros (j & Hj)%list_elem_of_lookup_1. rewrite list_lookup_delete in Hj.
  case_decide; eexists; (split; [|exact Hj]); lia.
Qed.

Lemma elem_of_delete_keep {A} (l : list A) i k y :
  l !! k = Some y → k ≠ i → y ∈ delete i l.
Proof.
  intros Hk Hne. destruct (decide (k < i)%nat).
  - apply (list_elem_of_lookup_2 _ k). by rewrite list_lookup_delete_lt.
  - apply (list_elem_of_lookup_2 _ (pred k)).
    rewrite list_lookup_delete_ge by lia.
    by replace (S (pred k)) with k by lia.
Qed.

Lemma tidy_init : tidy init.
Proof.
  split; simpl.
  - apply wf_init.
  - intros lp H. by apply elem_of_nil in H.
  - intros lp H. by apply elem_of_nil in H.
  - constructor.
  - intros c H. by apply not_elem_of_empty in H.
Qed.

Lemma tidy_same_cid s i k lp lp' :
  tidy s → loops s !! i = Some lp → loops s !! k = Some lp' →
  l_cid lp = l_cid lp' → i = k.
Proof.
  intros Ht Hi Hk Heq.
  eapply (NoDup_lookup _ _ _ (l_cid lp) (tidy_nodup s Ht)).
  - by rewrite list_lookup_fmap, Hi.
  - by rewrite list_lookup_fmap, Hk, Heq.
Qed.

Lemma tidy_same_q s i k lp lp' :
  tidy s → loops s !! i = Some lp → loops s !! k = Some lp' →
  l_q lp = l_q lp' → i = k.
Proof.
  intros Ht Hi Hk Heq. eapply tidy_same_cid; [done..|].
  eapply (sh_inj s (wf_shaped s (tidy_wf s Ht))).
  - eapply (tidy_map s Ht). by eapply list_elem_of_lookup_2.
  - rewrite Heq. eapply (tidy_map s Ht). by eapply list_elem_of_lookup_2.
Qed.

Lemma tidy_running_mapped s c :
  tidy s → c ∈ running s → ∃ l, queues s !! c = Some l.
Proof.
  intros Ht Hc. apply (tidy_running s Ht) in Hc.
  apply list_elem_of_fmap in Hc as (lp & -> & Hlp).
  eexists. by apply (tidy_map s Ht).
Qed.

(** [enqueue] into a channel that is marked running: the job is appended
    and nothing is started. *)
Lemma enqueue_running job s :
  channelCid job ∈ running s →
  loops (enqueue job s).1.2 = loops s
  ∧ running (enqueue job s).1.2 = running s
  ∧ aborted (enqueue job s).1.2 = aborted s
  ∧ (enqueue job s).2 = []
  ∧ store (enqueue job s).1.2 = store (push job s).2
  ∧ queues (enqueue job s).1.2 = queues (push job s).2.
Proof.
  intros Hr. unfold enqueue.
  destruct (push_fields job s) as (_ & Hrun & Hab & Hlo).
  destruct (push job s) as [l s1]; simpl in *.
  unfold maybeStart. rewrite decide_True by (by rewrite Hrun). done.
Qed.

(** [enqueue] into a channel without a queue that is not marked running:
    a fresh array is allocated and an activation starts on the job. *)
Lemma enqueue_idle job s :
  queues s !! channelCid job = None → channelCid job ∉ running s →
  enqueue job s
  = (1%nat,
     mkQM (alter (λ q, q ++ [job]) (length (store s)) (store s ++ [[]]))
          (<[channelCid job := length (store s)]> (queues s))
          ({[channelCid job]} ∪ running s) (aborted s)
          (loops s ++ [mkLoop (channelCid job) (length (store s)) job]),
     [EvStart (channelCid job) job]).
Proof.
  intros Hq Hr. unfold enqueue, push. rewrite Hq. unfold maybeStart. simpl.
  rewrite decide_False by done. rewrite lookup_insert_eq.
  rewrite arr_alter_eq by (rewrite length_app; simpl; lia).
  rewrite arr_app_new. simpl.
  rewrite arr_alter_eq by (rewrite length_app; simpl; lia).
  by rewrite arr_app_new.
Qed.

Lemma tidy_enqueue job s : tidy s → tidy (enqueue job s).1.2.
Proof.
  intros Ht. pose proof (tidy_wf s Ht) as Hw.
  pose proof (wf_enqueue job s Hw) as Hw'.
  destruct (decide (channelCid job ∈ running s)) as [Hr|Hr].
  - destruct (tidy_running_mapped s _ Ht Hr) as [l Hl].
    destruct (enqueue_running job s Hr) as (Hlo & Hrun & _ & _ & Hst & Hqs).
    split; [done|..].
    + intros lp Hlp. rewrite Hlo in Hlp. rewrite Hqs.
      destruct (push_fields job s) as (-> & _).
      unfold push. rewrite Hl. simpl. rewrite (insert_id _ _ _ Hl).
      by apply (tidy_map s Ht).
    + intros lp Hlp. rewrite Hlo in Hlp. rewrite Hst.
      pose proof (tidy_head s Ht lp Hlp) as Hh.
      unfold push. rewrite Hl. simpl.
      destruct (decide (l = l_q lp)) as [->|Hne].
      * rewrite arr_alter_eq
          by (apply (sh_bound s (wf_shaped s Hw)); done).
        by destruct (arr (store s) (l_q lp)).
      * by rewrite arr_alter_ne.
    + rewrite Hlo. apply (tidy_nodup s Ht).
    + intros c. rewrite Hlo, Hrun. apply (tidy_running s Ht).
  - assert (queues s !! channelCid job = None) as Hq.
    { destruct (queues s !! channelCid job) eqn:E; [|done].
      exfalso. apply Hr, (wf_running s Hw). eauto. }
    rewrite (enqueue_idle job s Hq Hr) in *. simpl in *.
    assert (Hfresh : ∀ lp, lp ∈ loops s → l_cid lp ≠ channelCid job).
    { intros lp Hlp Heq. pose proof (tidy_map s Ht lp Hlp). congruence. }
    split; [done|..]; simpl.
    + intros lp [Hlp|Hlp%list_elem_of_singleton]%elem_of_app;
        [|subst lp]; simpl.
      * rewrite lookup_insert_ne by (by apply not_eq_sym, Hfresh).
        by apply (tidy_map s Ht).
      * by rewrite lookup_insert_eq.
    + intros lp [Hlp|Hlp%list_elem_of_singleton]%elem_of_app;
        [|subst lp]; simpl.
      * pose proof (sh_bound s (wf_shaped s Hw) lp Hlp).
        rewrite arr_alter_ne by lia. rewrite arr_app_l by done.
        by apply (tidy_head s Ht).
      * rewrite arr_alter_eq by (rewrite length_app; simpl; lia).
        by rewrite arr_app_new.
    + rewrite fmap_app. apply NoDup_app. split; [apply (tidy_nodup s Ht)|].
      split; [|apply NoDup_singleton].
      intros c (lp & -> & Hlp)%list_elem_of_fmap Hc. simpl in Hc.
      apply list_elem_of_singleton in Hc. by eapply Hfresh.
    + intros c Hc. rewrite fmap_app. apply elem_of_app.
      apply elem_of_union in Hc as [Hc%elem_of_singleton|Hc]; [subst c|].
      * right. simpl. by apply list_elem_of_singleton.
      * left. by apply (tidy_running s Ht).
Qed.

(** What [settle] does in a tidy state: the captured array is the mapped
    one and its head is the job that was executed. *)
Lemma settle_tidy s i lp :
  tidy s → loops s !! i = Some lp →
  ∃ rest,
    arr (store s) (l_q lp) = l_job lp :: rest
    ∧ queues s !! l_cid lp = Some (l_q lp)
    ∧ (l_q lp < length (store s))%nat
    ∧ settle i s
      = match rest with
        | job :: _ =>
            (mkQM (<[l_q lp := rest]> (store s)) (queues s) (running s)
                  (aborted s)
                  (<[i := mkLoop (l_cid lp) (l_q lp) job]> (loops s)),
             [EvEnd (l_cid lp) (l_job lp);
              EvShift (l_cid lp) (Some (l_job lp));
              EvStart (l_cid lp) job])
        | [] =>
            (mkQM (<[l_q lp := rest]> (store s))
                  (delete (l_cid lp) (queues s))
                  (running s ∖ {[l_cid lp]}) (aborted s)
                  (delete i (loops s)),
             [EvEnd (l_cid lp) (l_job lp);
              EvShift (l_cid lp) (Some (l_job lp))])
        end.
Proof.
  intros Ht Hi. pose proof (list_elem_of_lookup_2 _ _ _ Hi) as Hin.
  pose proof (tidy_head s Ht lp Hin) as Hh.
  destruct (arr (store s) (l_q lp)) as [|j rest] eqn:Ha; [done|].
  injection Hh as ->. exists rest. split; [done|].
  split; [by apply (tidy_map s Ht)|].
  split; [by apply (sh_bound s (wf_shaped s (tidy_wf s Ht)))|].
  unfold settle. rewrite Hi, Ha. simpl. by destruct rest.
Qed.

Lemma tidy_settle i s : tidy s → tidy (settle i s).1.
Proof.
  intros Ht. pose proof (wf_settle i s (tidy_wf s Ht)) as Hw'.
  destruct (loops s !! i) as [lp|] eqn:Hi.
  2:{ unfold settle. by rewrite Hi. }
  destruct (settle_tidy s i lp Ht Hi) as (rest & Ha & Hm & Hlt & Hs).
  rewrite Hs in *. clear Hs.
  assert (Hcid : ∀ k lp', k ≠ i → loops s !! k = Some lp' →
                          l_cid lp' ≠ l_cid lp).
  { intros k lp' Hne Hk Heq. apply Hne. by eapply tidy_same_cid. }
  assert (Hq : ∀ k lp', k ≠ i → loops s !! k = Some lp' → l_q lp ≠ l_q lp').
  { intros k lp' Hne Hk Heq. apply Hne. by eapply tidy_same_q. }
  destruct rest as [|job r]; simpl in *.
  - split; [done|..]; simpl.
    + intros lp' (k & Hne & Hk)%elem_of_delete_other.
      rewrite lookup_delete_ne by (apply not_eq_sym; eauto).
      apply (tidy_map s Ht). by eapply list_elem_of_lookup_2.
    + intros lp' (k & Hne & Hk)%elem_of_delete_other.
      rewrite arr_insert_ne by eauto.
      apply (tidy_head s Ht). by eapply list_elem_of_lookup_2.
    + rewrite list_fmap_delete.
      eapply sublist_NoDup; [apply (tidy_nodup s Ht)|apply sublist_delete].
    + intros c [Hc Hne]%elem_of_difference.
      apply (tidy_running s Ht) in Hc.
      apply list_elem_of_fmap in Hc as (lp' & -> & Hlp').
      apply list_elem_of_lookup_1 in Hlp' as (k & Hk).
      apply list_elem_of_fmap. exists lp'. split; [done|].
      apply (elem_of_delete_keep _ _ k); [done|].
      intros ->. rewrite Hi in Hk. injection Hk as <-. set_solver.
  - assert (Hfm : l_cid <$> <[i:=mkLoop (l_cid lp) (l_q lp) job]> (loops s)
                  = l_cid <$> loops s).
    { rewrite list_fmap_insert. simpl. apply list_insert_id.
      by rewrite list_lookup_fmap, Hi. }
    split; [done|..]; simpl.
    + intros lp' [->|(k & Hne & Hk)]%elem_of_insert_other; [done|].
      apply (tidy_map s Ht). by eapply list_elem_of_lookup_2.
    + intros lp' [->|(k & Hne & Hk)]%elem_of_insert_other; simpl.
      * by rewrite arr_insert_eq.
      * rewrite arr_insert_ne by eauto.
        apply (tidy_head s Ht). by eapply list_elem_of_lookup_2.
    + rewrite Hfm. apply (tidy_nodup s Ht).
    + intros c Hc. rewrite Hfm. by apply (tidy_running s Ht).
Qed.

Lemma tidy_step op s : calm op = true → tidy s → tidy (step op s).1.
Proof.
  intros Hc Ht. destruct op as [job|cid jid|cid|i]; try done; simpl.
  - pose proof (tidy_enqueue job s Ht) as H.
    by destruct (enqueue job s) as [[pos s'] evs].
  - by apply tidy_settle.
Qed.

Lemma push_queue_other job s c :
  shaped s → c ≠ channelCid job →
  queue_of (push job s).2 c = queue_of s c.
Proof.
  intros Hs Hne. unfold push, queue_of.
  destruct (queues s !! channelCid job) as [l|] eqn:E; simpl;
    rewrite lookup_insert_ne by done;
    destruct (queues s !! c) as [l'|] eqn:Ec; try done.
  - rewrite arr_alter_ne; [done|]. intros ->. apply Hne.
    by eapply (sh_inj s Hs).
  - pose proof (shaped_lt s c l' Hs Ec).
    rewrite arr_alter_ne by lia. by rewrite arr_app_l.
Qed.

Lemma enqueue_queue_other job s c :
  shaped s → c ≠ channelCid job →
  queue_of (enqueue job s).1.2 c = queue_of s c.
Proof.
  intros Hs Hne. rewrite <- (push_queue_other job s c Hs Hne).
  unfold enqueue. destruct (push job s) as [l s1]; simpl.
  destruct (maybeStart_fields (channelCid job) s1) as (Hst & Hqs & _).
  destruct (maybeStart (channelCid job) s1) as [s2 evs]; simpl in *.
  unfold queue_of. by rewrite Hst, Hqs.
Qed.

Lemma settle_queue_other s i lp c :
  tidy s → loops s !! i = Some lp → c ≠ l_cid lp →
  queue_of (settle i s).1 c = queue_of s c.
Proof.
  intros Ht Hi Hne.
  destruct (settle_tidy s i lp Ht Hi) as (rest & Ha & Hm & Hlt & ->).
  assert (∀ l', queues s !! c = Some l' → l_q lp ≠ l') as Hl.
  { intros l' Hc <-. apply Hne.
    by eapply (sh_inj s (wf_shaped s (tidy_wf s Ht))). }
  unfold queue_of.
  destruct rest; simpl; [rewrite lookup_delete_ne by done|];
    (destruct (queues s !! c) as [l'|]; [|done]);
    by rewrite arr_insert_ne by eauto.
Qed.

Lemma ended_app c e1 e2 : ended c (e1 ++ e2) = ended c e1 ++ ended c e2.
Proof. apply omap_app. Qed.

Lemma started_app c e1 e2 :
  started c (e1 ++ e2) = started c e1 ++ started c e2.
Proof. apply omap_app. Qed.

Lemma enqueued_cons c op ops :
  enqueued c (op :: ops) = enqueued c [op] ++ enqueued c ops.
Proof. apply (omap_app _ [op] ops). Qed.

(** One step of a calm history, seen from channel [c]: what ended and what
    is still queued is what was queued and what was enqueued, in order; the
    job in flight is the head of the queue. *)
Lemma step_account op s c :
  calm op = true → tidy s →
  ended c (step op s).2 ++ queue_of (step op s).1 c
    = queue_of s c ++ enqueued c [op]
  ∧ take 1 (queue_of s c) ++ started c (step op s).2
    = ended c (step op s).2 ++ take 1 (queue_of (step op s).1 c).
Proof.
  intros Hcalm Ht. pose proof (tidy_wf s Ht) as Hw.
  pose proof (wf_shaped s Hw) as Hs.
  destruct op as [job|cid jid|cid|i]; try done; simpl.
  - destruct (decide (c = channelCid job)) as [->|Hne].
    + destruct (enqueue_queue job s Hs) as [Hq _].
      destruct (decide (channelCid job ∈ running s)) as [Hr|Hr].
      * destruct (enqueue_running job s Hr) as (_ & _ & _ & He & _).
        destruct (tidy_running_mapped s _ Ht Hr) as [l Hl].
        destruct (sh_nonempty s Hs _ l Hl) as (j & q & Hjq).
        destruct (enqueue job s) as [[pos s'] evs]; simpl in *. subst evs.
        rewrite Hq, decide_True by done. simpl.
        rewrite (queue_of_lookup _ _ _ Hl), (arr_lookup _ _ _ Hjq). done.
      * assert (queues s !! channelCid job = None) as Hn.
        { destruct (queues s !! channelCid job) eqn:E; [|done].
          exfalso. apply Hr, (wf_running s Hw). eauto. }
        rewrite (enqueue_idle job s Hn Hr) in *. simpl in *.
        rewrite Hq, (queue_of_None _ _ Hn), decide_True by done. done.
    + pose proof (enqueue_queue_other job s c Hs Hne) as Hq.
      assert ((enqueue job s).2 = []
              ∨ (enqueue job s).2 = [EvStart (channelCid job) job]) as He.
      { destruct (decide (channelCid job ∈ running s)) as [Hr|Hr].
        - left. by destruct (enqueue_running job s Hr) as (_ & _ & _ & ? & _).
        - right. rewrite enqueue_idle; [done| |done].
          destruct (queues s !! channelCid job) eqn:E; [|done].
          exfalso. apply Hr, (wf_running s Hw). eauto. }
      destruct (enqueue job s) as [[pos s'] evs]; simpl in *.
      rewrite Hq, decide_False by (by apply not_eq_sym).
      destruct He as [->| ->]; simpl;
        rewrite ?decide_False by (by apply not_eq_sym);
        by rewrite ?app_nil_r.
  - destruct (loops s !! i) as [lp|] eqn:Hi.
    2:{ unfold settle. rewrite Hi. simpl. by rewrite !app_nil_r. }
    destruct (decide (c = l_cid lp)) as [->|Hne].
    + destruct (settle_tidy s i lp Ht Hi) as (rest & Ha & Hm & Hlt & ->).
      rewrite (queue_of_lookup _ _ _ Hm), Ha.
      unfold queue_of. destruct rest as [|job r]; simpl.
      * rewrite lookup_delete_eq, decide_True by done. done.
      * rewrite Hm, !decide_True by done. simpl.
        rewrite arr_insert_eq by done. by rewrite app_nil_r.
    + rewrite (settle_queue_other s i lp c Ht Hi Hne).
      destruct (settle_tidy s i lp Ht Hi) as (rest & _ & _ & _ & ->).
      destruct rest; simpl;
        rewrite ?decide_False by (by apply not_eq_sym);
        by rewrite ?app_nil_r.
Qed.

Lemma run_account ops : ∀ s c,
  forallb calm ops = true → tidy s →
  tidy (run ops s).1
  ∧ ended c (run ops s).2 ++ queue_of (run ops s).1 c
    = queue_of s c ++ enqueued c ops
  ∧ take 1 (queue_of s c) ++ started c (run ops s).2
    = ended c (run ops s).2 ++ take 1 (queue_of (run ops s).1 c).
Proof.
  induction ops as [|op ops IH]; intros s c Hcalm Ht.
  { simpl. by rewrite !app_nil_r. }
  simpl in Hcalm. apply andb_true_iff in Hcalm as [Hop Hops].
  pose proof (tidy_step op s Hop Ht) as Ht1.
  destruct (step_account op s c Hop Ht) as [Hf Hst].
  rewrite enqueued_cons. cbn [run].
  destruct (step op s) as [s1 e1]; cbn [fst snd] in *.
  destruct (IH s1 c Hops Ht1) as (Ht2 & Hf2 & Hst2).
  destruct (run ops s1) as [s2 e2]; cbn [fst snd] in *.
  split; [done|]. rewrite ended_app, started_app. split.
  - rewrite <- app_assoc, Hf2, !app_assoc. by rewrite Hf.
  - rewrite app_assoc, Hst, <- !app_assoc. by rewrite Hst2.
Qed.

Lemma run_app ops1 : ∀ ops2 s,
  run (ops1 ++ ops2) s
  = ((run ops2 (run ops1 s).1).1, (run ops1 s).2 ++ (run ops2 (run ops1 s).1).2).
Proof.
  induction ops1 as [|op ops1 IH]; intros ops2 s; simpl.
  { by destruct (run ops2 s). }
  destruct (step op s) as [s1 e1]. rewrite IH.
  destruct (run ops1 s1) as [s2 e2]; simpl.
  destruct (run ops2 s2) as [s3 e3]; simpl. by rewrite app_assoc.
Qed.

(** Every queued job of a channel settles, in queue order, once the
    [processJob] calls of that channel settle one after the other. *)
Lemma drain c n : ∀ s,
  tidy s → length (queue_of s c) = n →
  ∃ settles,
    forallb is_settle settles = true
    ∧ queue_of (run settles s).1 c = []
    ∧ ended c (run settles s).2 = queue_of s c.
Proof.
  induction n as [|n IH]; intros s Ht Hlen.
  { exists []. simpl. by destruct (queue_of s c). }
  destruct (queues s !! c) as [l|] eqn:Hc.
  2:{ by rewrite (queue_of_None _ _ Hc) in Hlen. }
  assert (c ∈ running s) as Hr by (apply (wf_running s (tidy_wf s Ht)); eauto).
  apply (tidy_running s Ht) in Hr.
  apply list_elem_of_fmap in Hr as (lp & -> & Hlp).
  apply list_elem_of_lookup_1 in Hlp as (i & Hi).
  destruct (settle_tidy s i lp Ht Hi) as (rest & Ha & Hm & Hlt & Hs).
  pose proof (tidy_settle i s Ht) as Ht1.
  rewrite (queue_of_lookup _ _ _ Hm), Ha in *. simpl in Hlen.
  assert (queue_of (settle i s).1 (l_cid lp) = rest
          ∧ ended (l_cid lp) (settle i s).2 = [l_job lp]) as [Hq He].
  { rewrite Hs. unfold queue_of. destruct rest as [|job r]; simpl.
    - rewrite lookup_delete_eq, decide_True by done. done.
    - rewrite Hm, !decide_True by done. simpl.
      by rewrite arr_insert_eq by done. }
  destruct (IH (settle i s).1 Ht1) as (settles & Hf & Hq' & He').
  { rewrite Hq. lia. }
  exists (OpSettle i :: settles). simpl.
  destruct (settle i s) as [s1 e1]; simpl in *.
  destruct (run settles s1) as [s2 e2]; simpl in *.
  split; [done|]. split; [done|].
  by rewrite ended_app, He, He', Hq.
Qed.

(** Cancelling a job that waits behind the running one keeps the state
    tidy: the array loses that job only, so the jobs that settle afterwards
    are the remaining ones, in their order. *)
Lemma tidy_cancel_waiting cid jid s idx job :
  tidy s →
  findIndex jid (queue_of s cid) = Some (idx, job) → (0 < idx)%nat →
  tidy (cancel cid jid s).2
  ∧ queue_of (cancel cid jid s).2 cid = delete idx (queue_of s cid)
  ∧ ∀ c, c ≠ cid → queue_of (cancel cid jid s).2 c = queue_of s c.
Proof.
  intros Ht Hf Hidx. pose proof (tidy_wf s Ht) as Hw.
  pose proof (wf_cancel cid jid s Hw) as Hw'.
  destruct (queues s !! cid) as [l|] eqn:Hc.
  2:{ by rewrite (queue_of_None _ _ Hc) in Hf. }
  rewrite (queue_of_lookup _ _ _ Hc) in *.
  pose proof (shaped_lt s cid l (wf_shaped s Hw) Hc) as Hlt.
  pose proof Hf as Hf'. apply list_find_Some in Hf' as (Hl & _ & _).
  destruct (arr (store s) l) as [|j0 q0] eqn:Ha; [done|].
  destruct idx as [|idx]; [lia|]. simpl in Hl.
  unfold cancel in *. rewrite Hc, Ha in *. simpl in *. rewrite Hf in *.
  simpl in *. split; [|split].
  - split; [done|..]; simpl.
    + intros lp Hlp. by apply (tidy_map s Ht).
    + intros lp Hlp. pose proof (tidy_head s Ht lp Hlp) as Hh.
      destruct (decide (l = l_q lp)) as [->|Hne].
      * rewrite arr_insert_eq by done. by rewrite Ha in Hh.
      * by rewrite arr_insert_ne.
    + apply (tidy_nodup s Ht).
    + apply (tidy_running s Ht).
  - unfold queue_of. simpl. rewrite Hc. by rewrite arr_insert_eq.
  - intros c Hne. unfold queue_of. simpl.
    destruct (queues s !! c) as [l'|] eqn:Hc'; [|done].
    rewrite arr_insert_ne; [done|]. intros ->. apply Hne.
    by eapply (sh_inj s (wf_shaped s Hw)).
Qed.

Lemma cancel_waiting_keeps_order ops1 ops2 cid jid idx job c :
  forallb calm ops1 = true → forallb calm ops2 = true →
  findIndex jid (queue_of (run ops1 init).1 cid) = Some (idx, job) →
  (0 < idx)%nat →
  ended c (run ops2 (cancel cid jid (run ops1 init).1).2).2
  ++ queue_of (run ops2 (cancel cid jid (run ops1 init).1).2).1 c
  = (if decide (c = cid)
     then delete idx (queue_of (run ops1 init).1 c)
     else queue_of (run ops1 init).1 c)
    ++ enqueued c ops2.
Proof.
  intros H1 H2 Hf Hidx.
  destruct (run_account ops1 init c H1 tidy_init) as (Ht & _).
  destruct (tidy_cancel_waiting cid jid _ idx job Ht Hf Hidx)
    as (Ht' & Hq & Hother).
  destruct (run_account ops2 _ c H2 Ht') as (_ & -> & _).
  destruct (decide (c = cid)) as [->|Hne]; [by rewrite Hq|].
  by rewrite Hother.
Qed.

(** C1: in a history made of enqueues (into any channels) and of jobs
    settling, for every channel [c]: the jobs of [c] that have settled,
    followed by the jobs still in its queue, are exactly the jobs enqueued
    into [c], in enqueue order (so jobs settle in enqueue order and none is
    skipped); the jobs of [c] that started are those that settled plus at
    most one, the head of the queue (so at most one is in flight); no two
    suspended run loops belong to the same channel, and each works on the
    head of its channel's queue; once the pending [processJob] calls of
    [c] settle one after the other, all the enqueued jobs have settled, in
    enqueue order; and an enqueue into a channel marked running starts
    nothing: the loops are unchanged, no [processJob] is called, the job is
    appended to the channel's queue. *)
Theorem fifo_single_flight (ops : list Op) (c : string) :
  forallb calm ops = true →
  ended c (run ops init).2 ++ queue_of (run ops init).1 c = enqueued c ops
  ∧ started c (run ops init).2
    = ended c (run ops init).2 ++ take 1 (queue_of (run ops init).1 c)
  ∧ (length (started c (run ops init).2)
     ≤ length (ended c (run ops init).2) + 1)%nat
  ∧ NoDup (l_cid <$> loops (run ops init).1)
  ∧ Forall (λ lp, head (queue_of (run ops init).1 (l_cid lp))
                  = Some (l_job lp)) (loops (run ops init).1)
  ∧ (∃ settles,
       forallb is_settle settles = true
       ∧ queue_of (run (ops ++ settles) init).1 c = []
       ∧ ended c (run (ops ++ settles) init).2 = enqueued c ops)
  ∧ ∀ job, channelCid job = c → c ∈ running (run ops init).1 →
      loops (enqueue job (run ops init).1).1.2 = loops (run ops init).1
      ∧ running (enqueue job (run ops init).1).1.2
        = running (run ops init).1
      ∧ (enqueue job (run ops init).1).2 = []
      ∧ queue_of (enqueue job (run ops init).1).1.2 c
        = queue_of (run ops init).1 c ++ [job].
Proof.
  intros Hcalm.
  destruct (run_account ops init c Hcalm tidy_init) as (Ht & Hf & Hs).
  pose proof (run_app ops) as Happ.
  set (s := (run ops init).1) in *. set (evs := (run ops init).2) in *.
  assert (started c evs = ended c evs ++ take 1 (queue_of s c)) as Hst.
  { by rewrite <- Hs. }
  split; [exact Hf|]. split; [exact Hst|].
  split; [|split; [|split; [|split]]].
  - rewrite Hst, length_app, length_take. lia.
  - apply (tidy_nodup s Ht).
  - apply Forall_forall. intros lp Hlp.
    rewrite (queue_of_lookup _ _ _ (tidy_map s Ht lp Hlp)).
    by apply (tidy_head s Ht).
  - destruct (drain c _ s Ht eq_refl) as (settles & Hse & Hq & He).
    exists settles. rewrite Happ. fold s. fold evs. simpl.
    split; [done|]. split; [done|]. by rewrite ended_app, He.
  - intros job <- Hr.
    destruct (enqueue_running job s Hr) as (Hlo & Hrun & _ & He & _).
    destruct (enqueue_queue job s (wf_shaped s (tidy_wf s Ht))) as [Hq _].
    done.
Qed.

Lemma fifo_single_flight_witness :
  (ended "c" (run [OpEnqueue jobA; OpEnqueue jobB; OpSettle 0] init).2)
  ++ (queue_of (run [OpEnqueue jobA; OpEnqueue jobB; OpSettle 0] init).1 "c")
  = [jobA; jobB].
Proof.
  destruct (fifo_single_flight [OpEnqueue jobA; OpEnqueue jobB; OpSettle 0]
              "c") as [H _]; [reflexivity|exact H].
Defined.

(** C2 (failing run): two jobs are enqueued into a channel, the running
    one is cancelled, then its [processJob] settles.  [cancel] already
    spliced the running job out of the array, so the [q.shift()] of the run
    loop removes the job behind it: [jobB] leaves the queue although it was
    neither executed nor cancelled, and the channel ends up empty. *)
Theorem cancel_running_drops_next :
  (run [OpEnqueue jobA; OpEnqueue jobB; OpCancel "c" "J1"; OpSettle 0] init).2
  = [EvStart "c" jobA; EvEnd "c" jobA; EvShift "c" (Some jobB)]
  ∧ queues (run [OpEnqueue jobA; OpEnqueue jobB; OpCancel "c" "J1";
                 OpSettle 0] init).1 = ∅
  ∧ loops (run [OpEnqueue jobA; OpEnqueue jobB; OpCancel "c" "J1";
                OpSettle 0] init).1 = []
  ∧ aborted (run [OpEnqueue jobA; OpEnqueue jobB; OpCancel "c" "J1";
                  OpSettle 0] init).1 = {[controller jobA]}.
Proof. by vm_compute. Qed.

(** The same slip with a single job: the running job is cancelled, which
    drops the channel from the map while the channel stays marked running;
    the next enqueue therefore starts nothing, and when the cancelled job
    settles the run loop deletes the channel, and the new job with it. *)
Lemma cancel_running_then_enqueue_drops :
  (run [OpEnqueue jobA; OpCancel "c" "J1"; OpEnqueue jobB; OpSettle 0] init).2
  = [EvStart "c" jobA; EvEnd "c" jobA; EvShift "c" None]
  ∧ queues (run [OpEnqueue jobA; OpCancel "c" "J1"; OpEnqueue jobB;
                 OpSettle 0] init).1 = ∅
  ∧ loops (run [OpEnqueue jobA; OpCancel "c" "J1"; OpEnqueue jobB;
                OpSettle 0] init).1 = [].
Proof. by vm_compute. Qed.

(** What [clear] does get right, from every reachable state: it returns
    the length of the channel's queue (0 when the channel is unknown, and
    then nothing changes), aborts the controller of every job of the queue,
    drops the channel from the map and from the running set, so that
    [getSummary] has no entry for it. *)
Lemma clear_spec (ops : list Op) (cid : string) :
  (clear cid (run ops init).1).1 = length (queue_of (run ops init).1 cid)
  ∧ Forall (λ j, controller j ∈ aborted (clear cid (run ops init).1).2)
           (queue_of (run ops init).1 cid)
  ∧ queues (clear cid (run ops init).1).2 !! cid = None
  ∧ queue_of (clear cid (run ops init).1).2 cid = []
  ∧ (is_Some (queues (run ops init).1 !! cid) →
     cid ∉ running (clear cid (run ops init).1).2)
  ∧ getSummary (clear cid (run ops init).1).2 !! cid = None
  ∧ (queues (run ops init).1 !! cid = None →
     clear cid (run ops init).1 = (0%nat, (run ops init).1)).
Proof.
  set (s := (run ops init).1). unfold clear, queue_of.
  destruct (queues s !! cid) as [l|] eqn:Hc; simpl.
  - rewrite getSummary_lookup. simpl. rewrite lookup_delete_eq.
    split; [done|]. split; [|split; [done|split; [done|split]]].
    + apply Forall_forall. intros j Hj. apply elem_of_union_l.
      apply elem_of_list_to_set, list_elem_of_fmap. eauto.
    + intros _ [_ H]%elem_of_difference. apply H. by apply elem_of_singleton.
    + done.
  - rewrite getSummary_lookup, Hc.
    split; [done|]. split; [done|]. split; [done|]. split; [done|].
    split; [|done]. by intros [? ?].
Qed.

(** C3 (failing run): two jobs are queued in a channel, the first one
    running, and the channel is cleared.  [clear] returns 2, aborts both
    controllers and removes the channel from the map and from the running
    set, so [getSummary] is empty; but the suspended run loop keeps the
    array, which still holds both jobs.  When the running job settles the
    loop goes on to a further iteration and calls [processJob] on the
    cleared job; and an enqueue issued after the clear starts a second loop
    for the channel while the first one is still suspended. *)
Theorem clear_leaves_loop_running :
  (clear "c" (run [OpEnqueue jobA; OpEnqueue jobB] init).1).1 = 2%nat
  ∧ getSummary (clear "c" (run [OpEnqueue jobA; OpEnqueue jobB] init).1).2 = ∅
  ∧ running (clear "c" (run [OpEnqueue jobA; OpEnqueue jobB] init).1).2 = ∅
  ∧ aborted (clear "c" (run [OpEnqueue jobA; OpEnqueue jobB] init).1).2
    = {[controller jobA; controller jobB]}
  ∧ loops (clear "c" (run [OpEnqueue jobA; OpEnqueue jobB] init).1).2
    = [mkLoop "c" 0 jobA]
  ∧ arr (store (clear "c" (run [OpEnqueue jobA; OpEnqueue jobB] init).1).2)
        0 = [jobA; jobB]
  ∧ (settle 0 (clear "c" (run [OpEnqueue jobA; OpEnqueue jobB] init).1).2).2
    = [EvEnd "c" jobA; EvShift "c" (Some jobA); EvStart "c" jobB]
  ∧ loops (enqueue jobC
             (clear "c" (run [OpEnqueue jobA; OpEnqueue jobB] init).1).2).1.2
    = [mkLoop "c" 0 jobA; mkLoop "c" 1 jobC].
Proof. by vm_compute. Qed.

(** C10: in every reachable state (any interleaving of enqueue, cancel,
    clear and settling jobs) every entry of the channel map refers to a
    non-empty array; [getSummary] has exactly the channels of the map, and
    reports a length of at least 1 for each of them. *)
Theorem no_empty_queue_in_map (ops : list Op) :
  map_Forall (λ _ l, arr (store (run ops init).1) l ≠ [])
             (queues (run ops init).1)
  ∧ dom (getSummary (run ops init).1) = dom (queues (run ops init).1)
  ∧ map_Forall (λ _ e, (0 < sum_length e)%nat) (getSummary (run ops init).1).
Proof.
  pose proof (wf_reachable ops) as Hw. set (s := (run ops init).1) in *.
  assert (Hne : ∀ c l, queues s !! c = Some l → arr (store s) l ≠ []).
  { intros c l Hc.
    destruct (sh_nonempty s (wf_shaped s Hw) c l Hc) as (j & q & Hl).
    by rewrite (arr_lookup _ _ _ Hl). }
  split; [|split].
  - intros c l Hc. by eapply Hne.
  - apply set_eq. intros c. rewrite !elem_of_dom, getSummary_lookup.
    by rewrite fmap_is_Some.
  - intros c e. rewrite getSummary_lookup.
    destruct (queues s !! c) as [l|] eqn:Hc; [|done].
    simpl. intros [= <-]. simpl. specialize (Hne c l Hc).
    destruct (arr (store s) l); [done|simpl; lia].
Qed.

(** C5, with the position as the code counts it: from every reachable
    state, [enqueue] appends the job at the tail of the queue the channel
    map shows for its channel (an absent queue counts as empty and is
    created), and returns the length of the queue after the append, which
    is the 1-based index of the job: 1 when the channel has no queue, and
    [k + 2] when the channel has a queue with [k] items that [getSummary]
    labels waiting (the head of a mapped queue is always labelled
    running). *)
Theorem enqueue_position (ops : list Op) (job : QueueJob) :
  queue_of (enqueue job (run ops init).1).1.2 (channelCid job)
    = queue_of (run ops init).1 (channelCid job) ++ [job]
  ∧ is_Some (queues (enqueue job (run ops init).1).1.2 !! channelCid job)
  ∧ (enqueue job (run ops init).1).1.1
    = S (length (queue_of (run ops init).1 (channelCid job)))
  ∧ queue_of (enqueue job (run ops init).1).1.2 (channelCid job)
      !! ((enqueue job (run ops init).1).1.1 - 1)%nat = Some job
  ∧ (enqueue job (run ops init).1).1.1
    = match queues (run ops init).1 !! channelCid job with
      | None => 1%nat
      | Some _ => (waiting_count (run ops init).1 (channelCid job) + 2)%nat
      end.
Proof.
  pose proof (wf_reachable ops) as Hw. set (s := (run ops init).1) in *.
  destruct (enqueue_queue job s (wf_shaped s Hw)) as [Hq Hpos].
  split; [done|]. split; [|split; [done|split]].
  - destruct (queues (enqueue job s).1.2 !! channelCid job) eqn:E; [eauto|].
    rewrite (queue_of_None _ _ E) in Hq.
    by destruct (queue_of s (channelCid job)).
  - rewrite Hq, Hpos. simpl. rewrite Nat.sub_0_r.
    by rewrite list_lookup_middle.
  - rewrite Hpos. destruct (queues s !! channelCid job) as [l|] eqn:Hc.
    + rewrite <- (waiting_count_mapped s _ l Hw Hc). lia.
    + by rewrite (queue_of_None _ _ Hc).
Qed.

(** C5 with the position counted from the waiting jobs fails: with one
    job running and no job waiting, the next enqueue returns 2, not
    0 + 1. *)
Lemma enqueue_position_counterexample :
  ¬ (∀ (ops : list Op) (job : QueueJob),
       (enqueue job (run ops init).1).1.1
       = S (waiting_count (run ops init).1 (channelCid job))).
Proof.
  intros H. specialize (H [OpEnqueue jobA] jobB).
  vm_compute in H. discriminate H.
Qed.

(** C6: from every reachable state, [cancel] returns false and leaves the
    manager unchanged when the channel has no queue or no job of the queue
    has the given id; when [job] is the first job of the queue with that id,
    at index [idx], [cancel] returns true, the array loses exactly that
    element (the other jobs keep their order), the job's controller is
    aborted, and nothing else changes but the channel map, which drops the
    channel when the array became empty. *)
Theorem cancel_spec (ops : list Op) (cid jid : string) :
  ((∀ j, j ∈ queue_of (run ops init).1 cid → id j ≠ jid) →
   cancel cid jid (run ops init).1 = (false, (run ops init).1))
  ∧ (∀ idx job,
       queue_of (run ops init).1 cid !! idx = Some job →
       id job = jid →
       (∀ k j, (k < idx)%nat →
               queue_of (run ops init).1 cid !! k = Some j → id j ≠ jid) →
       (cancel cid jid (run ops init).1).1 = true
       ∧ controller job ∈ aborted (cancel cid jid (run ops init).1).2
       ∧ (∀ l, queues (run ops init).1 !! cid = Some l →
               arr (store (cancel cid jid (run ops init).1).2) l
               = delete idx (queue_of (run ops init).1 cid))
       ∧ queue_of (cancel cid jid (run ops init).1).2 cid
         = delete idx (queue_of (run ops init).1 cid)
       ∧ running (cancel cid jid (run ops init).1).2
         = running (run ops init).1
       ∧ loops (cancel cid jid (run ops init).1).2 = loops (run ops init).1).
Proof.
  pose proof (wf_reachable ops) as Hw. set (s := (run ops init).1) in *.
  split.
  - intros Hno. unfold cancel, queue_of in *.
    destruct (queues s !! cid) as [l|] eqn:Hc; [|done].
    case_bool_decide; [done|].
    destruct (findIndex jid (arr (store s) l)) as [[idx job]|] eqn:F; [|done].
    apply list_find_Some in F as (Hl & Hid & _).
    exfalso. eapply Hno; [|done]. by eapply list_elem_of_lookup_2.
  - intros idx job Hl Hid Hfirst. unfold cancel.
    destruct (queues s !! cid) as [l|] eqn:Hc.
    2:{ by rewrite (queue_of_None _ _ Hc) in Hl. }
    rewrite (queue_of_lookup _ _ _ Hc) in *.
    pose proof (shaped_lt s cid l (wf_shaped s Hw) Hc) as Hlt.
    case_bool_decide as Hlen.
    { destruct (arr (store s) l); [done|simpl in Hlen; lia]. }
    assert (findIndex jid (arr (store s) l) = Some (idx, job)) as ->.
    { apply list_find_Some. split; [done|]. split; [done|].
      intros k j Hk Hlk. by eapply Hfirst. }
    simpl. split; [done|]. split; [set_solver|].
    split; [|split; [|done]].
    + intros l' [= <-]. by rewrite arr_insert_eq.
    + unfold queue_of. simpl. case_bool_decide as Hlen'.
      * rewrite lookup_delete_eq.
        by destruct (delete idx (arr (store s) l)).
      * rewrite Hc. simpl. by rewrite arr_insert_eq.
Qed.

Lemma cancel_spec_witness :
  cancel "c" "J9" (run [OpEnqueue jobA; OpEnqueue jobB] init).1
  = (false, (run [OpEnqueue jobA; OpEnqueue jobB] init).1)
  ∧ (cancel "c" "J2" (run [OpEnqueue jobA; OpEnqueue jobB] init).1).1 = true
  ∧ queue_of (cancel "c" "J2" (run [OpEnqueue jobA; OpEnqueue jobB] init).1).2
             "c" = [jobA].
Proof.
  destruct (cancel_spec [OpEnqueue jobA; OpEnqueue jobB] "c" "J9") as [H1 _].
  destruct (cancel_spec [OpEnqueue jobA; OpEnqueue jobB] "c" "J2") as [_ H2].
  split.
  - apply H1. vm_compute. intros j Hj.
    apply elem_of_cons in Hj as [->|Hj]; [discriminate|].
    apply elem_of_cons in Hj as [->|Hj]; [discriminate|].
    by apply elem_of_nil in Hj.
  - destruct (H2 1%nat jobB) as (Ht & _ & _ & Hq & _).
    + reflexivity.
    + reflexivity.
    + intros k j Hk Hl. assert (k = 0%nat) as -> by lia.
      vm_compute in Hl. injection Hl as <-. discriminate.
    + split; [exact Ht|]. rewrite Hq. reflexivity.
Defined.

End QueueFacts.

Module JobFacts.
Import Job Samples.

Section Facts.
Context (config : Config) (env : Env) (job : QueueJob).

Lemma same_poll_refl st : same_poll st st.
Proof. by split. Qed.

Lemma same_poll_trans st1 st2 st3 :
  same_poll st1 st2 → same_poll st2 st3 → same_poll st1 st3.
Proof. intros [] []. split; congruence. Qed.

(** [deleteMessage] and the loop over the ids only delete. *)
Lemma deleteMessage_spec mid st :
  ∃ r st' tr,
    deleteMessage env mid st = (r, st')
    ∧ statusMsg st' = statusMsg st ∧ lastStatus st' = lastStatus st
    ∧ n_send st' = n_send st ∧ same_poll st st'
    ∧ trace st' = trace st ++ tr ∧ forallb recall_event tr = true.
Proof.
  unfold deleteMessage. destruct (has_bot env).
  - eexists _, _, [EvDelete mid (delete_ok env (n_delete st))].
    split; [reflexivity|]. simpl. by repeat split.
  - exists (inl ()), st, []. unfold ret. rewrite app_nil_r.
    by repeat split.
Qed.

Lemma deleteAll_spec mids : ∀ st,
  ∃ r st' tr,
    deleteAll env mids st = (r, st')
    ∧ statusMsg st' = statusMsg st ∧ lastStatus st' = lastStatus st
    ∧ n_send st' = n_send st ∧ same_poll st st'
    ∧ trace st' = trace st ++ tr ∧ forallb recall_event tr = true.
Proof.
  induction mids as [|mid rest IH]; intros st; simpl.
  - exists (inl ()), st, []. unfold ret. rewrite app_nil_r.
    by repeat split.
  - destruct (deleteMessage_spec mid st)
      as (r1 & st1 & tr1 & E1 & Hm1 & Hl1 & Hs1 & Hp1 & Ht1 & Hf1).
    unfold bind. rewrite E1. destruct r1 as [[]|e].
    + destruct (IH st1)
        as (r2 & st2 & tr2 & E2 & Hm2 & Hl2 & Hs2 & Hp2 & Ht2 & Hf2).
      exists r2, st2, (tr1 ++ tr2). split; [done|].
      repeat split; try congruence.
      * destruct Hp1, Hp2. congruence.
      * destruct Hp1, Hp2. congruence.
      * destruct Hp1, Hp2. congruence.
      * destruct Hp1, Hp2. congruence.
      * by rewrite Ht2, Ht1, app_assoc.
      * rewrite forallb_app. by rewrite Hf1, Hf2.
    + exists (inr e), st1, tr1. by repeat (split; [done|]).
Qed.

(** [recallStatus] never throws, whatever the deletions answer; it
    leaves the field without a held reference, and only deletes. *)
Lemma recallStatus_spec st :
  ∃ st' tr,
    recallStatus env st = (inl (), st')
    ∧ holds (statusMsg st') = false
    ∧ lastStatus st' = lastStatus st
    ∧ n_send st' = n_send st ∧ same_poll st st'
    ∧ trace st' = trace st ++ tr ∧ forallb recall_event tr = true
    ∧ forallb ref_kept tr = true.
Proof.
  unfold recallStatus, bind, get_statusMsg.
  destruct (holds (statusMsg st)) eqn:Hh; simpl.
  2:{ exists st, []. unfold ret. rewrite app_nil_r. by repeat split. }
  assert (∃ r st1 tr1,
    (match statusMsg st with
     | MsgIds mids => deleteAll env mids
     | MsgId mid => deleteMessage env mid
     | MsgUndefined => ret ()
     end) st = (r, st1)
    ∧ statusMsg st1 = statusMsg st ∧ lastStatus st1 = lastStatus st
    ∧ n_send st1 = n_send st ∧ same_poll st st1
    ∧ trace st1 = trace st ++ tr1 ∧ forallb recall_event tr1 = true)
    as (r & st1 & tr1 & E & Hm & Hl & Hs & Hp & Ht & Hf).
  { destruct (statusMsg st) as [|mid|mids] eqn:Em; [done|..];
      rewrite <- Em.
    - apply deleteMessage_spec.
    - apply deleteAll_spec. }
  unfold catch. rewrite E. destruct Hp.
  assert (forallb ref_kept tr1 = true) as Hk.
  { revert Hf. clear. induction tr1 as [|[] tr IH]; simpl; try done.
    destruct new; try done. rewrite andb_false_r. simpl. apply IH. }
  destruct r as [[]|e]; unfold ret, set_statusMsg, emit; simpl;
    eexists _, (tr1 ++ [EvStatusMsg (statusMsg st1) MsgUndefined]);
    (split; [reflexivity|]); simpl;
    rewrite Ht, <- app_assoc, !forallb_app, Hf, Hk; simpl;
    rewrite andb_false_r; by repeat split.
Qed.

(** [updateStatus] recalls first, then posts: at the moment of the post
    no reference is held; it never throws. *)
Lemma updateStatus_spec text st :
  ∃ st1 tr,
    recallStatus env st = (inl (), st1)
    ∧ holds (statusMsg st1) = false
    ∧ trace st1 = trace st ++ tr ∧ forallb recall_event tr = true
    ∧ forallb ref_kept tr = true
    ∧ same_poll st st1
    ∧ updateStatus env text st
      = (inl (),
         mkSt (sent (send_result env (n_send st))) (Some text)
              (backendTask st1) (S (n_send st)) (n_delete st1) (n_get st1)
              (n_aborted st1) (n_clock st1)
              (trace st1
               ++ [EvSend (CText text) (send_result env (n_send st));
                   EvStatusMsg (statusMsg st1)
                     (sent (send_result env (n_send st)))])).
Proof.
  destruct (recallStatus_spec st)
    as (st1 & tr & E & Hh & Hl & Hs & Hp & Ht & Hf & Hk).
  exists st1, tr. repeat (split; [done|]).
  unfold updateStatus, bind. rewrite E.
  unfold safeSend, catch, send, emit. simpl. rewrite Hs.
  destruct (send_result env (n_send st)) as [v|e]; simpl;
    unfold set_statusMsg, set_lastStatus, emit; simpl;
    by rewrite <- app_assoc.
Qed.

Lemma recall_no_delivery tr :
  forallb recall_event tr = true → no_delivery tr = true.
Proof.
  unfold no_delivery. induction tr as [|e tr IH]; simpl; [done|].
  intros [He Htr]%andb_true_iff. rewrite (IH Htr), andb_true_r.
  by destruct e.
Qed.

Lemma no_delivery_app tr1 tr2 :
  no_delivery (tr1 ++ tr2) = no_delivery tr1 && no_delivery tr2.
Proof. apply forallb_app. Qed.

(** A status update whose text is not the delivery notice. *)
Lemma updateStatus_quiet text st :
  String.eqb text "打包完成，开始发送文件..." = false →
  ∃ st' tr,
    updateStatus env text st = (inl (), st')
    ∧ lastStatus st' = Some text
    ∧ same_poll st st'
    ∧ trace st' = trace st ++ tr ∧ no_delivery tr = true
    ∧ forallb ref_kept tr = true.
Proof.
  intros Hne.
  destruct (updateStatus_spec text st)
    as (st1 & tr & _ & Hh & Ht & Hf & Hk & Hp & ->).
  eexists _, (tr ++ [_; _]). split; [reflexivity|]. simpl.
  split; [done|]. split; [by destruct Hp|].
  split; [by rewrite Ht, <- app_assoc|].
  rewrite no_delivery_app, (recall_no_delivery _ Hf), forallb_app, Hk.
  simpl. rewrite Hne, Hh. done.
Qed.

(** *** The exact calls of a recall and of a status update *)

Lemma deleteAll_no_bot mids : ∀ st,
  has_bot env = false → deleteAll env mids st = (inl (), st).
Proof.
  induction mids as [|mid rest IH]; intros st Hbot; simpl; [done|].
  unfold bind, deleteMessage. rewrite Hbot. unfold ret. by apply IH.
Qed.

Lemma deleteAll_run mids : ∀ st,
  has_bot env = true →
  ∃ r,
    deleteAll env mids st
    = (r, mkSt (statusMsg st) (lastStatus st) (backendTask st) (n_send st)
               (n_delete st + length (deletions env (n_delete st) mids))
               (n_get st) (n_aborted st) (n_clock st)
               (trace st ++ deletions env (n_delete st) mids)).
Proof.
  induction mids as [|mid rest IH]; intros st Hbot; simpl.
  { exists (inl ()). unfold ret. rewrite app_nil_r, Nat.add_0_r.
    by destruct st. }
  unfold bind at 1. unfold deleteMessage. rewrite Hbot.
  destruct (delete_ok env (n_delete st)) eqn:Hok.
  - match goal with
    | |- context [deleteAll env rest ?s1] =>
        destruct (IH s1 Hbot) as [r ->]
    end.
    exists r. simpl. rewrite <- app_assoc. simpl.
    by rewrite Nat.add_succ_r.
  - exists (inr ThrownFalsy). simpl. by rewrite Nat.add_1_r.
Qed.

(** [recallStatus] never throws; it asks for the deletions of
    [recall_trace], resets the field when it held a reference, and touches
    nothing else. *)
Lemma recallStatus_run st :
  recallStatus env st
  = (inl (),
     mkSt (recalled (statusMsg st)) (lastStatus st) (backendTask st)
          (n_send st)
          (n_delete st
           + length (recall_deletions env (statusMsg st) (n_delete st)))
          (n_get st) (n_aborted st) (n_clock st)
          (trace st ++ recall_trace env (statusMsg st) (n_delete st))).
Proof.
  unfold recallStatus, bind, get_statusMsg, recalled, recall_trace,
    recall_deletions.
  destruct (holds (statusMsg st)) eqn:Hh; simpl.
  2:{ unfold ret. rewrite app_nil_r, Nat.add_0_r. by destruct st. }
  destruct (has_bot env) eqn:Hbot; simpl.
  - destruct (statusMsg st) as [|mid|mids] eqn:Em; [done|..]; simpl.
    + unfold catch, deleteMessage. rewrite Hbot.
      destruct (delete_ok env (n_delete st));
        unfold ret, set_statusMsg, emit; simpl;
        by rewrite Em, <- app_assoc, Nat.add_1_r.
    + destruct (deleteAll_run mids st Hbot) as [r E].
      unfold catch. rewrite E.
      destruct r as [[]|e]; unfold ret, set_statusMsg, emit; simpl;
        by rewrite Em, <- app_assoc.
  - rewrite Nat.add_0_r.
    destruct (statusMsg st) as [|mid|mids] eqn:Em; [done|..]; simpl.
    + unfold catch, deleteMessage. rewrite Hbot.
      unfold ret, set_statusMsg, emit. simpl. by rewrite Em.
    + unfold catch. rewrite (deleteAll_no_bot mids st Hbot).
      unfold set_statusMsg, emit. simpl. by rewrite Em.
Qed.

(** [updateStatus] never throws: it recalls, posts [text], stores what the
    post returned (nothing when it failed) and records [text]. *)
Lemma updateStatus_run text st :
  updateStatus env text st
  = (inl (),
     mkSt (sent (send_result env (n_send st))) (Some text) (backendTask st)
          (S (n_send st))
          (n_delete st
           + length (recall_deletions env (statusMsg st) (n_delete st)))
          (n_get st) (n_aborted st) (n_clock st)
          (trace st
           ++ update_trace env (statusMsg st) (n_delete st) (n_send st)
                text)).
Proof.
  unfold updateStatus, bind. rewrite recallStatus_run.
  unfold safeSend, catch, send, emit, update_trace. simpl.
  destruct (send_result env (n_send st)) as [v|e]; simpl;
    unfold ret, set_statusMsg, set_lastStatus, emit; simpl;
    by rewrite <- !app_assoc.
Qed.


Lemma deletions_recall n : ∀ k,
  forallb recall_event (deletions env k n) = true.
Proof.
  induction n as [|mid rest IH]; intros k; simpl; [done|].
  destruct (delete_ok env k); [apply IH|done].
Qed.

Lemma recall_trace_recall m n :
  forallb recall_event (recall_trace env m n) = true.
Proof.
  unfold recall_trace, recall_deletions. rewrite forallb_app.
  apply andb_true_iff. split.
  - destruct (holds m && has_bot env); [apply deletions_recall|done].
  - by destruct (holds m).
Qed.




Lemma update_trace_quiet m n k text :
  String.eqb text "打包完成，开始发送文件..." = false →
  no_delivery (update_trace env m n k text) = true.
Proof.
  intros Hne. unfold update_trace.
  rewrite no_delivery_app, (recall_no_delivery _ (recall_trace_recall m n)).
  unfold no_delivery. simpl. by rewrite Hne.
Qed.

Section Polling.
Context (created : Task) (startAt : Z).

(** One round past the budget: when the token is not signalled and the
    clock is more than [timeout] past [startAt], the round ends the job as
    timed out, without querying the backend. *)
Lemma round_timed_out st :
  signal_aborted env (n_aborted st) = false →
  (timeout config < clock env (n_clock st) - startAt)%Z →
  ∃ st' tr,
    poll_round config env job created startAt st
    = (inl (Break TimedOut), st')
    ∧ lastStatus st' = Some "任务超时"
    ∧ n_get st' = n_get st
    ∧ trace st' = trace st ++ tr ∧ no_delivery tr = true.
Proof.
  intros Ha Ht. unfold poll_round, bind, aborted, now, emit. simpl.
  rewrite Ha. simpl. apply Z.ltb_lt in Ht. rewrite Ht.
  match goal with
  | |- context [updateStatus env ?t ?s] =>
      destruct (updateStatus_quiet t s eq_refl)
        as (st' & tr & -> & Hl & Hp & Htr & Hq & _)
  end.
  exists st', ([EvNow (clock env (n_clock st))] ++ tr). unfold ret.
  destruct Hp. simpl in *. repeat (split; [done|]).
  split; [by rewrite Htr, <- app_assoc|done].
Qed.

(** One round that stays polling: when the token is not signalled and the
    budget is not exceeded, a failed query or a task that is neither done
    nor failed leaves the job polling: the round ends on one sleep of
    [queryInterval] and asks for the next round; after a failed query the
    status is the retrying notice. *)
Lemma round_pending st :
  signal_aborted env (n_aborted st) = false →
  (clock env (n_clock st) - startAt <= timeout config)%Z →
  pending (get_result env (n_get st)) = true →
  ∃ st' tr,
    poll_round config env job created startAt st = (inl Continue, st')
    ∧ n_aborted st' = S (n_aborted st)
    ∧ n_clock st' = S (n_clock st)
    ∧ n_get st' = S (n_get st)
    ∧ trace st' = trace st ++ tr ∧ no_delivery tr = true
    ∧ last tr = Some (EvSleep (queryInterval config))
    ∧ (∀ e, get_result env (n_get st) = inr e →
            lastStatus st' = Some "查询失败，重试中...").
Proof.
  intros Ha Ht Hpend. unfold poll_round, bind, aborted, now, emit. simpl.
  rewrite Ha. simpl. apply Z.ltb_ge in Ht. rewrite Ht.
  unfold attempt, http_get, emit. simpl.
  destruct (get_result env (n_get st)) as [[task| |]|e] eqn:Eg; simpl in *;
    [|done|done|].
  - apply andb_true_iff in Hpend as [Hd He].
    apply negb_true_iff in Hd, He. rewrite Hd, He.
    unfold set_backendTask, sleep, emit, ret. simpl.
    eexists _, [EvNow _; EvGet _ _; EvSleep _]. split; [reflexivity|].
    simpl. repeat (split; [done|]). split; [by rewrite <- !app_assoc|].
    by repeat split.
  - match goal with
    | |- context [updateStatus env ?t ?s] =>
        destruct (updateStatus_quiet t s eq_refl)
          as (st' & tr & -> & Hl & Hp & Htr & Hq & _)
    end.
    unfold sleep, emit, ret. simpl. destruct Hp. simpl in *.
    eexists _, ([_; _] ++ tr ++ [_]). split; [reflexivity|]. simpl.
    repeat (split; [done|]).
    split; [by rewrite Htr, <- !app_assoc|].
    split; [|split; [|done]].
    + rewrite no_delivery_app, Hq. done.
    + rewrite !app_comm_cons. apply last_snoc.
Qed.

(** Any number of such rounds in a row leaves the job polling. *)
Lemma loop_pending n : ∀ st fuel,
  (∀ i, (i < n)%nat →
        signal_aborted env (n_aborted st + i) = false
        ∧ (clock env (n_clock st + i) - startAt <= timeout config)%Z
        ∧ pending (get_result env (n_get st + i)) = true) →
  ∃ st' tr,
    poll_loop config env job (n + fuel) created startAt st
    = poll_loop config env job fuel created startAt st'
    ∧ n_aborted st' = (n_aborted st + n)%nat
    ∧ n_clock st' = (n_clock st + n)%nat
    ∧ n_get st' = (n_get st + n)%nat
    ∧ trace st' = trace st ++ tr ∧ no_delivery tr = true.
Proof.
  induction n as [|n IH]; intros st fuel H.
  { exists st, []. rewrite app_nil_r, !Nat.add_0_r. by repeat split. }
  destruct (H 0%nat ltac:(lia)) as (Ha & Ht & Hp).
  rewrite !Nat.add_0_r in *.
  destruct (round_pending st Ha Ht Hp)
    as (st1 & tr1 & E & Ha1 & Hc1 & Hg1 & Htr1 & Hq1 & _).
  destruct (IH st1 fuel) as (st2 & tr2 & E2 & Ha2 & Hc2 & Hg2 & Htr2 & Hq2).
  { intros i Hi. rewrite Ha1, Hc1, Hg1.
    replace (S (n_aborted st) + i)%nat
      with (n_aborted st + S i)%nat by lia.
    replace (S (n_clock st) + i)%nat with (n_clock st + S i)%nat by lia.
    replace (S (n_get st) + i)%nat with (n_get st + S i)%nat by lia.
    apply H. lia. }
  exists st2, (tr1 ++ tr2). simpl. unfold bind at 1. rewrite E, E2.
  split; [done|]. split; [lia|]. split; [lia|]. split; [lia|].
  split; [by rewrite Htr2, Htr1, app_assoc|].
  by rewrite no_delivery_app, Hq1, Hq2.
Qed.

(** A round ends the job only on a signalled token, an exceeded
    budget, or a fetched task that is done or failed. *)
Lemma round_break_cause st st' o :
  poll_round config env job created startAt st = (inl (Break o), st') →
  stop_cause config env startAt st o.
Proof.
  unfold poll_round, bind, aborted, now, emit. simpl.
  destruct (signal_aborted env (n_aborted st)) eqn:Ha; simpl.
  { match goal with
    | |- context [updateStatus env ?t ?s] =>
        destruct (updateStatus_spec t s) as (? & ? & _ & _ & _ & _ & _ & _ & ->)
    end. unfold ret. by intros [= <- <-]. }
  destruct (timeout config <? clock env (n_clock st) - startAt)%Z
    eqn:Ht.
  { match goal with
    | |- context [updateStatus env ?t ?s] =>
        destruct (updateStatus_spec t s) as (? & ? & _ & _ & _ & _ & _ & _ & ->)
    end. unfold ret. intros [= <- <-]. simpl.
    split; [done|]. by apply Z.ltb_lt. }
  unfold attempt, http_get, emit. simpl.
  destruct (get_result env (n_get st)) as [[task| |]|e] eqn:Eg; simpl;
    [|unfold set_backendTask, object_of, throw; simpl; by intros [= ]..|].
  - unfold set_backendTask, object_of, ret. simpl.
    destruct (status task =? "done")%string eqn:Hd.
    { match goal with
      | |- context [deliver config env job task ?s] =>
          destruct (deliver config env job task s) as [[[]|e] s']
      end; unfold ret; [|done]. intros [= <- <-]. simpl.
      exists task. split; [done|]. by apply String.eqb_eq. }
    destruct ((status task =? "error")%string || truthy (error task))
      eqn:He.
    { match goal with
      | |- context [updateStatus env ?t ?s] =>
          destruct (updateStatus_spec t s)
            as (? & ? & _ & _ & _ & _ & _ & _ & ->)
      end. unfold ret. intros [= <- <-]. simpl.
      exists task. split; [done|].
      apply orb_true_iff in He as [He|He].
      - left. by apply String.eqb_eq.
      - right. unfold truthy in He. apply negb_true_iff in He.
        by apply String.eqb_neq. }
    unfold sleep, ret. simpl. by intros [= ].
  - match goal with
    | |- context [updateStatus env ?t ?s] =>
        destruct (updateStatus_spec t s) as (? & ? & _ & _ & _ & _ & _ & _ & ->)
    end. unfold sleep, ret. simpl. by intros [= ].
Qed.

Lemma loop_stop_cause fuel : ∀ st st' o,
  poll_loop config env job fuel created startAt st
  = (inl (Some o), st') →
  ∃ st0, stop_cause config env startAt st0 o.
Proof.
  induction fuel as [|fuel IH]; intros st st' o; simpl.
  { unfold ret. by intros [= ]. }
  unfold bind at 1.
  destruct (poll_round config env job created startAt st)
    as [[[|o']|e] st1] eqn:E; [..|done].
  - apply IH.
  - unfold ret. intros [= <- <-]. exists st.
    by apply round_break_cause in E.
Qed.

End Polling.

(** The three answers to the submission: a task object, [null] or
    [undefined], a failure. *)
Lemma submit_and_poll_object created fuel st :
  post_result env = inl (Object created) →
  submit_and_poll config env job fuel st
  = bind (updateStatus env (created_notice created))
      (λ _, bind (now env)
              (λ startAt, poll_loop config env job fuel created startAt))
      (mkSt (statusMsg st) (lastStatus st) (Some (Object created))
            (n_send st) (n_delete st) (n_get st) (n_aborted st) (n_clock st)
            (trace st
             ++ [EvPost (endpoint config +:+ "/tasks")
                   (finalSubmit config job) (inl (Object created))])).
Proof.
  intros Hpost. unfold submit_and_poll. unfold bind at 1.
  unfold attempt, http_post. rewrite Hpost. reflexivity.
Qed.

Lemma submit_and_poll_nullish a fuel st :
  post_result env = inl a → nullish a = true →
  submit_and_poll config env job fuel st
  = (inr (type_error a "task_id"),
     mkSt (statusMsg st) (lastStatus st) (Some a) (n_send st) (n_delete st)
          (n_get st) (n_aborted st) (n_clock st)
          (trace st
           ++ [EvPost (endpoint config +:+ "/tasks")
                 (finalSubmit config job) (inl a)])).
Proof.
  intros Hpost Hn. unfold submit_and_poll. unfold bind at 1.
  unfold attempt, http_post. rewrite Hpost. by destruct a.
Qed.

Lemma submit_and_poll_failed err fuel st :
  post_result env = inr err →
  submit_and_poll config env job fuel st
  = bind (updateStatus env ("创建任务失败：" +:+ formatErr err))
      (λ _, ret (Some SubmitFailed))
      (emit (EvPost (endpoint config +:+ "/tasks")
               (finalSubmit config job) (inr err)) st).
Proof.
  intros Hpost. unfold submit_and_poll. unfold bind at 1.
  unfold attempt, http_post. rewrite Hpost. reflexivity.
Qed.

(** The first statement of [processJob]. *)
Lemma processJob_start fuel st :
  processJob config env job fuel st
  = submit_and_poll config env job fuel
      (mkSt (sent (send_result env (n_send st))) (lastStatus st)
            (backendTask st) (S (n_send st)) (n_delete st) (n_get st)
            (n_aborted st) (n_clock st)
            (trace st
             ++ [EvSend (CText (start_notice job))
                   (send_result env (n_send st));
                 EvStatusMsg (statusMsg st)
                   (sent (send_result env (n_send st)))])).
Proof.
  unfold processJob. unfold bind at 1. unfold safeSend, catch, send, ret.
  destruct (send_result env (n_send st)) as [v|e]; simpl;
    unfold bind at 1; unfold set_statusMsg, emit; simpl;
    by rewrite <- app_assoc.
Qed.

(** [processJob] up to the polling, when the submission is answered by a
    task object: the start notice is posted and its reference stored, the
    request is submitted, the created notice replaces the start notice, and
    then the clock is read: that reading is [startAt]. *)
Lemma processJob_prelude created st fuel :
  post_result env = inl (Object created) →
  processJob config env job fuel st
  = poll_loop config env job fuel created (clock env (n_clock st))
      (mkSt (sent (send_result env (S (n_send st))))
            (Some (created_notice created)) (Some (Object created))
            (S (S (n_send st)))
            (n_delete st
             + length (recall_deletions env
                         (sent (send_result env (n_send st)))
                         (n_delete st)))
            (n_get st) (n_aborted st) (S (n_clock st))
            (trace st
             ++ [EvSend (CText (start_notice job))
                   (send_result env (n_send st));
                 EvStatusMsg (statusMsg st)
                   (sent (send_result env (n_send st)));
                 EvPost (endpoint config +:+ "/tasks")
                   (finalSubmit config job) (inl (Object created))]
             ++ update_trace env (sent (send_result env (n_send st)))
                  (n_delete st) (S (n_send st)) (created_notice created)
             ++ [EvNow (clock env (n_clock st))])).
Proof.
  intros Hpost.
  unfold processJob, submit_and_poll, bind, safeSend, catch, send,
    attempt, http_post.
  rewrite Hpost.
  replace (match send_result env (n_send st) with
           | inl a => _
           | inr e => _
           end)
    with (inl (sent (send_result env (n_send st))) : _ + Thrown,
          emit (EvSend (CText (start_notice job))
                  (send_result env (n_send st)))
            (mkSt (statusMsg st) (lastStatus st) (backendTask st)
                  (S (n_send st)) (n_delete st) (n_get st) (n_aborted st)
                  (n_clock st) (trace st)))
    by (by destruct (send_result env (n_send st))).
  unfold set_statusMsg, set_backendTask, object_of, ret, emit. simpl.
  rewrite updateStatus_run. unfold now, emit. simpl.
  by rewrite <- !app_assoc.
Qed.

(** After a successful submission the job is in the polling loop; the
    budget starts at the clock read after the submission has succeeded
    and the created notice has been posted. *)
Lemma processJob_reaches_polling created st :
  post_result env = inl (Object created) →
  ∃ st' tr,
    (∀ fuel, processJob config env job fuel st
             = poll_loop config env job fuel created
                 (clock env (n_clock st)) st')
    ∧ n_aborted st' = n_aborted st
    ∧ n_clock st' = S (n_clock st)
    ∧ n_get st' = n_get st
    ∧ trace st' = trace st ++ tr ∧ no_delivery tr = true.
Proof.
  intros Hpost. eexists _, _.
  split; [intros fuel; by apply processJob_prelude|]. simpl.
  repeat (split; [done|]).
  pose proof (update_trace_quiet (sent (send_result env (n_send st)))
                (n_delete st) (S (n_send st)) (created_notice created)
                eq_refl) as Hq.
  unfold no_delivery in *. simpl. rewrite forallb_app, Hq. done.
Qed.

(** What [deliver] does, by the answers to the delivery and to the report
    of its failure. *)
Lemma deliver_spec task st :
  ∃ st1,
    updateStatus env "打包完成，开始发送文件..." st = (inl (), st1)
    ∧ n_send st1 = S (n_send st)
    ∧ (∀ v, send_result env (S (n_send st)) = inl v →
         ∃ st' tr,
           deliver config env job task st = (inl (), st')
           ∧ forallb recall_event tr = true
           ∧ holds (statusMsg st') = false
           ∧ trace st'
             = trace st1 ++ [EvSend (artifact config task) (inl v)] ++ tr
               ++ [EvSend (completion_notice job task)
                     (send_result env (S (S (n_send st))))])
    ∧ (∀ e v, send_result env (S (n_send st)) = inr e →
         send_result env (S (S (n_send st))) = inl v →
         ∃ st' tr,
           deliver config env job task st = (inl (), st')
           ∧ forallb recall_event tr = true
           ∧ holds (statusMsg st') = false
           ∧ trace st'
             = trace st1
               ++ [EvSend (artifact config task) (inr e);
                   EvSend (failure_report e task) (inl v)] ++ tr
               ++ [EvSend (completion_notice job task)
                     (send_result env (S (S (S (n_send st)))))])
    ∧ (∀ e e2, send_result env (S (n_send st)) = inr e →
         send_result env (S (S (n_send st))) = inr e2 →
         ∃ st',
           deliver config env job task st = (inr e2, st')
           ∧ statusMsg st' = statusMsg st1
           ∧ trace st'
             = trace st1
               ++ [EvSend (artifact config task) (inr e);
                   EvSend (failure_report e task) (inr e2)]).
Proof.
  destruct (updateStatus_spec "打包完成，开始发送文件..." st)
    as (st0 & tr0 & _ & _ & _ & _ & _ & _ & Eu).
  eexists. split; [exact Eu|]. split; [done|].
  unfold deliver, bind, catch, artifact, failure_report, completion_notice.
  rewrite Eu. clear Eu. split; [|split].
  - intros v Hv.
    destruct (truthy (download_url task));
      unfold send, bind, emit, ret; simpl; rewrite Hv; simpl;
      match goal with
      | |- context [recallStatus env ?s] =>
          destruct (recallStatus_spec s)
            as (st2 & tr2 & -> & Hh & _ & Hs & _ & Ht & Hf & _)
      end;
      unfold safeSend, catch, send, emit, ret; simpl in *; rewrite Hs;
      destruct (send_result env (S (S (n_send st)))); simpl;
      eexists _, tr2; (split; [reflexivity|]); simpl;
      rewrite Ht, <- !app_assoc; by repeat split.
  - intros e v He Hv.
    destruct (truthy (download_url task));
      unfold send, bind, emit, ret; simpl; rewrite He; simpl;
      rewrite Hv; simpl;
      match goal with
      | |- context [recallStatus env ?s] =>
          destruct (recallStatus_spec s)
            as (st2 & tr2 & -> & Hh & _ & Hs & _ & Ht & Hf & _)
      end;
      unfold safeSend, catch, send, emit, ret; simpl in *; rewrite Hs;
      destruct (send_result env (S (S (S (n_send st))))); simpl;
      eexists _, tr2; (split; [reflexivity|]); simpl;
      rewrite Ht, <- !app_assoc; by repeat split.
  - intros e e2 He He2.
    destruct (truthy (download_url task));
      unfold send, bind, emit, ret; simpl; rewrite He; simpl;
      rewrite He2; simpl;
      eexists; (split; [reflexivity|]); simpl;
      rewrite <- !app_assoc; by repeat split.
Qed.

Section Rounds.
Context (created : Task) (startAt : Z).

(** *** The rounds, call by call *)

Lemma round_cancelled_run st :
  signal_aborted env (n_aborted st) = true →
  poll_round config env job created startAt st
  = (inl (Break Cancelled),
     mkSt (sent (send_result env (n_send st))) (Some "任务已取消")
          (backendTask st) (S (n_send st))
          (n_delete st
           + length (recall_deletions env (statusMsg st) (n_delete st)))
          (n_get st) (S (n_aborted st)) (n_clock st)
          (trace st
           ++ update_trace env (statusMsg st) (n_delete st) (n_send st)
                "任务已取消")).
Proof.
  intros Ha. unfold poll_round, bind, aborted. simpl. rewrite Ha.
  by rewrite updateStatus_run.
Qed.

Lemma round_timed_out_run st :
  signal_aborted env (n_aborted st) = false →
  (timeout config < clock env (n_clock st) - startAt)%Z →
  poll_round config env job created startAt st
  = (inl (Break TimedOut),
     mkSt (sent (send_result env (n_send st))) (Some "任务超时")
          (backendTask st) (S (n_send st))
          (n_delete st
           + length (recall_deletions env (statusMsg st) (n_delete st)))
          (n_get st) (S (n_aborted st)) (S (n_clock st))
          (trace st ++ [EvNow (clock env (n_clock st))]
           ++ update_trace env (statusMsg st) (n_delete st) (n_send st)
                "任务超时")).
Proof.
  intros Ha Ht. unfold poll_round, bind, aborted, now, emit. simpl.
  rewrite Ha. simpl. apply Z.ltb_lt in Ht. rewrite Ht.
  rewrite updateStatus_run. simpl. by rewrite <- app_assoc.
Qed.

Lemma round_query_failed_run st e :
  signal_aborted env (n_aborted st) = false →
  (clock env (n_clock st) - startAt <= timeout config)%Z →
  get_result env (n_get st) = inr e →
  poll_round config env job created startAt st
  = (inl Continue,
     mkSt (sent (send_result env (n_send st))) (Some "查询失败，重试中...")
          (backendTask st) (S (n_send st))
          (n_delete st
           + length (recall_deletions env (statusMsg st) (n_delete st)))
          (S (n_get st)) (S (n_aborted st)) (S (n_clock st))
          (trace st
           ++ [EvNow (clock env (n_clock st));
               EvGet (endpoint config +:+ "/tasks/" +:+ task_id created)
                 (inr e)]
           ++ update_trace env (statusMsg st) (n_delete st) (n_send st)
                "查询失败，重试中..."
           ++ [EvSleep (queryInterval config)])).
Proof.
  intros Ha Ht Hg. unfold poll_round, bind, aborted, now, emit. simpl.
  rewrite Ha. simpl. apply Z.ltb_ge in Ht. rewrite Ht.
  unfold attempt, http_get, emit. simpl. rewrite Hg.
  rewrite updateStatus_run. unfold sleep, emit, ret. simpl.
  by rewrite <- !app_assoc.
Qed.

Lemma round_nullish_run st a :
  signal_aborted env (n_aborted st) = false →
  (clock env (n_clock st) - startAt <= timeout config)%Z →
  get_result env (n_get st) = inl a →
  nullish a = true →
  poll_round config env job created startAt st
  = (inr (type_error a "status"),
     mkSt (statusMsg st) (lastStatus st) (Some a) (n_send st) (n_delete st)
          (S (n_get st)) (S (n_aborted st)) (S (n_clock st))
          (trace st
           ++ [EvNow (clock env (n_clock st));
               EvGet (endpoint config +:+ "/tasks/" +:+ task_id created)
                 (inl a)])).
Proof.
  intros Ha Ht Hg Hn. unfold poll_round, bind, aborted, now, emit. simpl.
  rewrite Ha. simpl. apply Z.ltb_ge in Ht. rewrite Ht.
  unfold attempt, http_get, emit. simpl. rewrite Hg.
  destruct a; [done|..]; unfold set_backendTask, object_of, throw; simpl;
    by rewrite <- app_assoc.
Qed.

Lemma round_done_run st task :
  signal_aborted env (n_aborted st) = false →
  (clock env (n_clock st) - startAt <= timeout config)%Z →
  get_result env (n_get st) = inl (Object task) →
  status task = "done" →
  poll_round config env job created startAt st
  = bind (deliver config env job task) (λ _, ret (Break Delivered))
      (mkSt (statusMsg st) (lastStatus st) (Some (Object task)) (n_send st)
            (n_delete st) (S (n_get st)) (S (n_aborted st)) (S (n_clock st))
            (trace st
             ++ [EvNow (clock env (n_clock st));
                 EvGet (endpoint config +:+ "/tasks/" +:+ task_id created)
                   (inl (Object task))])).
Proof.
  intros Ha Ht Hg Hd. unfold poll_round, bind, aborted, now, emit. simpl.
  rewrite Ha. simpl. apply Z.ltb_ge in Ht. rewrite Ht.
  unfold attempt, http_get, emit. simpl. rewrite Hg.
  unfold set_backendTask, object_of, ret. simpl.
  apply String.eqb_eq in Hd. rewrite Hd. by rewrite <- app_assoc.
Qed.

(** A round throws only when, with the token unsignalled and the budget
    not exceeded, the query is answered by a task that is done and both the
    delivery and its report fail, or by [null] or [undefined]; the last
    calls are then the two failed sends, or the query. *)
Lemma round_throws st e st' :
  poll_round config env job created startAt st = (inr e, st') →
  throw_cause config env startAt st e
  ∧ ((∃ task e1 pre,
        get_result env (n_get st) = inl (Object task)
        ∧ status task = "done"
        ∧ trace st'
          = trace st
            ++ [EvNow (clock env (n_clock st));
                EvGet (endpoint config +:+ "/tasks/" +:+ task_id created)
                  (inl (Object task))]
            ++ pre
            ++ [EvSend (artifact config task) (inr e1);
                EvSend (failure_report e1 task) (inr e)])
     ∨ (∃ a, get_result env (n_get st) = inl a ∧ nullish a = true
             ∧ e = type_error a "status"
             ∧ trace st'
               = trace st
                 ++ [EvNow (clock env (n_clock st));
                     EvGet (endpoint config +:+ "/tasks/"
                            +:+ task_id created) (inl a)])).
Proof.
  destruct (signal_aborted env (n_aborted st)) eqn:Ha.
  { by rewrite round_cancelled_run. }
  destruct (decide (timeout config < clock env (n_clock st) - startAt)%Z)
    as [Ht|Ht].
  { by rewrite round_timed_out_run. }
  apply Z.nlt_ge in Ht.
  destruct (get_result env (n_get st)) as [[task| |]|e0] eqn:Eg.
  - destruct (decide (status task = "done")) as [Hd|Hd].
    + rewrite (round_done_run st task Ha Ht Eg Hd). unfold bind at 1.
      match goal with
      | |- context [deliver config env job task ?s] =>
          destruct (deliver_spec task s) as (st1 & Eu & _ & H1 & H2 & H3);
          rewrite updateStatus_run in Eu; injection Eu as Est1
      end.
      simpl in *.
      destruct (send_result env (S (n_send st))) as [v|e1] eqn:E1.
      { destruct (H1 v eq_refl) as (? & ? & -> & _). done. }
      destruct (send_result env (S (S (n_send st)))) as [v|e2] eqn:E2.
      { destruct (H2 e1 v eq_refl eq_refl) as (? & ? & -> & _). done. }
      destruct (H3 e1 e2 eq_refl eq_refl) as (st2 & -> & _ & Htr).
      intros [= <- <-]. split.
      * split; [done|]. split; [done|]. left. by exists task, e1.
      * left.
        exists task, e1,
          (update_trace env (statusMsg st) (n_delete st) (n_send st)
             "打包完成，开始发送文件...").
        split; [done|]. split; [done|].
        rewrite Htr. subst st1. simpl. by rewrite <- !app_assoc.
    + unfold poll_round, bind, aborted, now, emit. simpl.
      rewrite Ha. simpl. apply Z.ltb_ge in Ht. rewrite Ht.
      unfold attempt, http_get, emit. simpl. rewrite Eg.
      unfold set_backendTask, object_of, ret. simpl.
      apply String.eqb_neq in Hd. rewrite Hd.
      destruct ((status task =? "error")%string || truthy (error task)).
      * by rewrite updateStatus_run.
      * unfold sleep. simpl. done.
  - rewrite (round_nullish_run st Null Ha Ht Eg eq_refl).
    intros [= <- <-]. split.
    + split; [done|]. split; [done|]. right. by exists Null.
    + right. by exists Null.
  - rewrite (round_nullish_run st Undefined Ha Ht Eg eq_refl).
    intros [= <- <-]. split.
    + split; [done|]. split; [done|]. right. by exists Undefined.
    + right. by exists Undefined.
  - by rewrite (round_query_failed_run st e0 Ha Ht Eg).
Qed.

(** A loop that has ended did so in its last round, after rounds that all
    asked for another one. *)
Lemma loop_last_round fuel : ∀ st r st',
  poll_loop config env job fuel created startAt st = (r, st') →
  r ≠ inl None →
  ∃ k st0,
    (k < fuel)%nat
    ∧ poll_loop config env job k created startAt st = (inl None, st0)
    ∧ match r with
      | inl (Some o) =>
          poll_round config env job created startAt st0
          = (inl (Break o), st')
      | inl None => False
      | inr e =>
          poll_round config env job created startAt st0 = (inr e, st')
      end.
Proof.
  induction fuel as [|fuel IH]; intros st r st'; simpl.
  { unfold ret. by intros [= <- <-]. }
  unfold bind at 1.
  destruct (poll_round config env job created startAt st)
    as [[[|o]|e] st1] eqn:E.
  - intros H Hr. destruct (IH st1 r st' H Hr) as (k & st0 & Hk & E0 & Hl).
    exists (S k), st0. split; [lia|]. split; [|done].
    simpl. unfold bind at 1. by rewrite E.
  - unfold ret. intros [= <- <-] _. exists 0%nat, st.
    split; [lia|]. by split.
  - intros [= <- <-] _. exists 0%nat, st. split; [lia|]. by split.
Qed.

Lemma loop_continue k : ∀ st st1 fuel,
  poll_loop config env job k created startAt st = (inl None, st1) →
  poll_loop config env job (k + fuel) created startAt st
  = poll_loop config env job fuel created startAt st1.
Proof.
  induction k as [|k IH]; intros st st1 fuel; simpl.
  { unfold ret. by intros [= <-]. }
  unfold bind at 1 2.
  destruct (poll_round config env job created startAt st)
    as [[[|o]|e] s1]; [apply IH|by intros [= ]..].
Qed.
End Rounds.

(** *** No write to [statusMsg] replaces a held reference *)























(** A failed submission ends the job at once, before any polling. *)
Lemma processJob_submit_failed e st fuel :
  post_result env = inr e →
  ∃ st',
    processJob config env job fuel st = (inl (Some SubmitFailed), st')
    ∧ lastStatus st' = Some ("创建任务失败：" +:+ formatErr e)
    ∧ n_get st' = n_get st.
Proof.
  intros Hpost.
  unfold processJob, submit_and_poll, bind, safeSend, catch, send,
    attempt, http_post.
  rewrite Hpost.
  destruct (send_result env (n_send st)) as [v|e'];
    unfold ret, set_statusMsg, emit; simpl;
    match goal with
    | |- context [updateStatus env ?t ?s] =>
        destruct (updateStatus_spec t s)
          as (st1 & tr1 & _ & _ & _ & _ & _ & [] & ->)
    end;
    eexists; (split; [reflexivity|]); simpl; by split.
Qed.

End Facts.

(** C7, with every way the polling ends: in a round that finds the token
    unsignalled and the budget not exceeded, a failed status query does not
    end the job: the clock is read, the query is made and fails, the
    status held then is recalled (each referenced message is deleted in
    order, up to the first deletion that fails), the retrying notice is
    posted and its reference stored, the job sleeps one [queryInterval],
    and the loop asks for the next round.  This holds for any number of
    failed queries in a row, as long as the token stays unsignalled and the
    budget is not exceeded.  A
    polling loop that ends the job with an outcome does so in a round that
    follows rounds which all asked for another one, and in that round for
    the outcome's cause: a signalled token, an exceeded budget, or a
    fetched task that is done or failed.  A polling loop that throws does
    so in such a round as well: the query was answered by a task that is
    done and the delivery and its report failed, or by [null] or
    [undefined].  A failed submission ends the job before any polling, and
    so does, by a [TypeError], a submission answered by [null] or
    [undefined]; after a submission answered by a task object the job is
    that polling loop, with [startAt] the clock read then. *)
Theorem query_failure_is_transient
    (config : Config) (env : Env) (job : QueueJob) (created : Task)
    (startAt : Z) :
  (∀ st e,
     signal_aborted env (n_aborted st) = false →
     (clock env (n_clock st) - startAt <= timeout config)%Z →
     get_result env (n_get st) = inr e →
     ∃ st',
       poll_round config env job created startAt st = (inl Continue, st')
       ∧ trace st'
         = trace st
           ++ [EvNow (clock env (n_clock st));
               EvGet (endpoint config +:+ "/tasks/" +:+ task_id created)
                 (inr e)]
           ++ recall_trace env (statusMsg st) (n_delete st)
           ++ [EvSend (CText "查询失败，重试中...")
                 (send_result env (n_send st));
               EvStatusMsg (recalled (statusMsg st))
                 (sent (send_result env (n_send st)));
               EvSleep (queryInterval config)]
       ∧ statusMsg st' = sent (send_result env (n_send st))
       ∧ lastStatus st' = Some "查询失败，重试中..."
       ∧ n_get st' = S (n_get st))
  ∧ (∀ n st fuel,
       (∀ i, (i < n)%nat →
             signal_aborted env (n_aborted st + i) = false
             ∧ (clock env (n_clock st + i) - startAt <= timeout config)%Z
             ∧ ∃ e, get_result env (n_get st + i) = inr e) →
       ∃ st',
         poll_loop config env job (n + fuel) created startAt st
         = poll_loop config env job fuel created startAt st'
         ∧ n_get st' = (n_get st + n)%nat)
  ∧ (∀ fuel st st' o,
       poll_loop config env job fuel created startAt st
       = (inl (Some o), st') →
       ∃ k st0,
         (k < fuel)%nat
         ∧ poll_loop config env job k created startAt st = (inl None, st0)
         ∧ poll_round config env job created startAt st0
           = (inl (Break o), st')
         ∧ stop_cause config env startAt st0 o)
  ∧ (∀ fuel st st' e,
       poll_loop config env job fuel created startAt st = (inr e, st') →
       ∃ k st0,
         (k < fuel)%nat
         ∧ poll_loop config env job k created startAt st = (inl None, st0)
         ∧ poll_round config env job created startAt st0 = (inr e, st')
         ∧ throw_cause config env startAt st0 e)
  ∧ (∀ fuel st e,
       post_result env = inr e →
       ∃ st', processJob config env job fuel st
              = (inl (Some SubmitFailed), st')
              ∧ n_get st' = n_get st)
  ∧ (∀ fuel st a,
       post_result env = inl a →
       nullish a = true →
       ∃ st', processJob config env job fuel st
              = (inr (type_error a "task_id"), st')
              ∧ n_get st' = n_get st)
  ∧ (∀ fuel st,
       post_result env = inl (Object created) →
       startAt = clock env (n_clock st) →
       ∃ st0, processJob config env job fuel st
              = poll_loop config env job fuel created startAt st0
              ∧ n_get st0 = n_get st).
Proof.
  split; [|split; [|split; [|split; [|split; [|split]]]]].
  - intros st e Ha Ht Hg.
    rewrite (round_query_failed_run config env job created startAt st e
               Ha Ht Hg).
    eexists. split; [reflexivity|]. simpl. split; [|done].
    unfold update_trace. by rewrite <- !app_assoc.
  - intros n st fuel H.
    destruct (loop_pending config env job created startAt n st fuel)
      as (st' & tr & E & _ & _ & Hg & _).
    { intros i Hi. destruct (H i Hi) as (Ha & Ht & e & He).
      split; [done|]. split; [done|]. by rewrite He. }
    by exists st'.
  - intros fuel st st' o H.
    apply loop_last_round in H as (k & st0 & Hk & E0 & Hr); [|done].
    exists k, st0. split; [done|]. split; [done|]. split; [done|].
    by apply round_break_cause in Hr.
  - intros fuel st st' e H.
    apply loop_last_round in H as (k & st0 & Hk & E0 & Hr); [|done].
    exists k, st0. split; [done|]. split; [done|]. split; [done|].
    by apply round_throws in Hr as [Hc _].
  - intros fuel st e Hp.
    destruct (processJob_submit_failed config env job e st fuel Hp)
      as (st' & E & _ & Hg).
    by exists st'.
  - intros fuel st a Hp Hn.
    rewrite processJob_start,
      (submit_and_poll_nullish config env job a fuel _ Hp Hn).
    by eexists.
  - intros fuel st Hp ->.
    rewrite (processJob_prelude config env job created st fuel Hp).
    by eexists.
Qed.

Lemma query_failure_is_transient_witness :
  ∃ st',
    poll_round sample_config env_retry jobA task_pending 0 fresh
    = (inl Continue, st')
    ∧ trace st'
      = [EvNow 0;
         EvGet "http://127.0.0.1:7210/tasks/T1"
           (inr (ThrownObject "ETIMEDOUT" "{}"));
         EvSend (CText "查询失败，重试中...") (sends_ok 0);
         EvStatusMsg MsgUndefined (MsgIds ["0"]);
         EvSleep 500]
    ∧ statusMsg st' = MsgIds ["0"]
    ∧ lastStatus st' = Some "查询失败，重试中..."
    ∧ n_get st' = 1%nat.
Proof.
  destruct (query_failure_is_transient sample_config env_retry
              jobA task_pending 0) as [H _].
  apply (H fresh (ThrownObject "ETIMEDOUT" "{}")).
  - reflexivity.
  - by vm_compute.
  - reflexivity.
Defined.

(** C7 as stated fails: a query that resolves with [null] ends the job,
    although the submission succeeded, nobody cancelled, the budget is not
    exceeded and no task is done or failed: [task.status] is read outside
    every [try], so [processJob] throws. *)
Lemma null_answer_ends_job :
  ¬ (∀ (config : Config) (env : Env) (job : QueueJob) (fuel : nat)
       (r : option Outcome + Thrown) (st' : St),
       processJob config env job fuel fresh = (r, st') →
       r ≠ inl None →
       (∃ e, post_result env = inr e)
       ∨ (∃ i, signal_aborted env i = true)
       ∨ (∃ i, (timeout config < clock env i - clock env 0)%Z)
       ∨ (∃ i task, get_result env i = inl (Object task)
                    ∧ (status task = "done" ∨ status task = "error"
                       ∨ error task ≠ ""))).
Proof.
  intros H.
  destruct (H sample_config env_null_answer jobA 3%nat
              (inr (type_error Null "status"))
              (processJob sample_config env_null_answer jobA 3 fresh).2)
    as [[e He]|[[i Hi]|[[i Hi]|(i & task & Hg & _)]]].
  - by vm_compute.
  - discriminate.
  - discriminate He.
  - discriminate Hi.
  - vm_compute in Hi. discriminate Hi.
  - discriminate Hg.
Qed.

(** The job whose first query fails is delivered once a query succeeds. *)
Example retry_then_delivered :
  (processJob sample_config env_retry jobA 5 fresh).1
  = inl (Some Delivered)
  ∧ n_get (processJob sample_config env_retry jobA 5 fresh).2
    = 2%nat.
Proof. by vm_compute. Qed.

(** C8 (failing run): the backend reports the task done, the delivery of
    the attachment fails and so does the report of that failure.  The
    report is sent with a bare [session.send] inside the [catch] block, so
    its exception leaves [processJob]: the delivery notice is never
    recalled (its reference is still held) and no completion notice is
    sent; the last call is the failed report. *)
Theorem delivery_report_failure_escapes :
  (processJob sample_config env_offline jobA 5 fresh).1
  = inr (ThrownString "offline")
  ∧ statusMsg (processJob sample_config env_offline jobA 5 fresh).2
    = MsgIds ["2"]
  ∧ lastStatus (processJob sample_config env_offline jobA 5
                  fresh).2
    = Some "打包完成，开始发送文件..."
  ∧ last (trace (processJob sample_config env_offline jobA 5
                   fresh).2)
    = Some (EvSend (failure_report (ThrownString "offline") task_done)
              (inr (ThrownString "offline")))
  ∧ n_send (processJob sample_config env_offline jobA 5 fresh).2
    = 5%nat.
Proof. by vm_compute. Qed.




(** C4, with the budget as the code measures it: the budget runs from
    [startAt], and the token is checked first.  When the submission
    is answered by a task object, [processJob] is the polling loop entered
    after the calls of [prelude_trace]: the start notice, the submission,
    the created notice in place of the start notice, and then the reading
    of the clock that is [startAt]; the clock is not read before.  If the
    first [n] rounds find the token unsignalled, the budget not exceeded
    and the backend answer pending (a failed query or a task neither done
    nor failed), they all ask for another round and deliver nothing; if
    round [n] then finds the token unsignalled and the clock more than
    [timeout] past [startAt], the job ends in that round as timed out: the
    clock is read, the status held then is recalled, the timed-out notice
    is posted and its reference stored; the backend is not queried in that
    round, it was queried [n] times, and no delivery notice or attachment
    was ever sent. *)
Theorem timeout_from_polling_start
    (config : Config) (env : Env) (job : QueueJob) (created : Task)
    (n fuel : nat) :
  post_result env = inl (Object created) →
  (∀ i, (i < n)%nat →
        signal_aborted env i = false
        ∧ (clock env (S i) - clock env 0 <= timeout config)%Z
        ∧ pending (get_result env i) = true) →
  signal_aborted env n = false →
  (timeout config < clock env (S n) - clock env 0)%Z →
  (n < fuel)%nat →
  ∃ st0 st1 st' rounds,
    (∀ f, processJob config env job f fresh
          = poll_loop config env job f created (clock env 0) st0)
    ∧ trace st0 = prelude_trace config env job created
    ∧ poll_loop config env job n created (clock env 0) st0
      = (inl None, st1)
    ∧ trace st1 = trace st0 ++ rounds
    ∧ no_delivery rounds = true
    ∧ processJob config env job fuel fresh = (inl (Some TimedOut), st')
    ∧ trace st'
      = trace st1
        ++ [EvNow (clock env (S n))]
        ++ recall_trace env (statusMsg st1) (n_delete st1)
        ++ [EvSend (CText "任务超时") (send_result env (n_send st1));
            EvStatusMsg (recalled (statusMsg st1))
              (sent (send_result env (n_send st1)))]
    ∧ statusMsg st' = sent (send_result env (n_send st1))
    ∧ lastStatus st' = Some "任务超时"
    ∧ no_delivery (trace st') = true
    ∧ n_get st' = n.
Proof.
  intros Hpost Hpend Ha Ht Hfuel.
  pose proof (λ f, processJob_prelude config env job created fresh f Hpost)
    as E0.
  simpl in E0.
  match type of E0 with
  | ∀ f, _ = poll_loop _ _ _ f _ _ ?s => set (st0 := s) in *
  end.
  destruct (loop_pending config env job created (clock env 0) n st0 0)
    as (st1 & rounds & E1 & Ha1 & Hc1 & Hg1 & Htr1 & Hq1).
  { intros i Hi. simpl. by apply Hpend. }
  rewrite Nat.add_0_r in E1. simpl in E1. unfold ret in E1.
  simpl in Ha1, Hc1, Hg1.
  assert (signal_aborted env (n_aborted st1) = false) as Ha'
    by (by rewrite Ha1).
  assert (timeout config < clock env (n_clock st1) - clock env 0)%Z as Ht'
    by (by rewrite Hc1).
  pose proof (round_timed_out_run config env job created (clock env 0) st1
                Ha' Ht') as E2.
  exists st0, st1. eexists _, rounds.
  split; [exact E0|]. split; [reflexivity|]. split; [exact E1|].
  split; [exact Htr1|]. split; [exact Hq1|]. split.
  { rewrite E0. replace fuel with (n + S (fuel - S n))%nat by lia.
    rewrite (loop_continue config env job created (clock env 0) n st0 st1
               _ E1).
    simpl. unfold bind at 1. rewrite E2. reflexivity. }
  simpl. rewrite Hc1, Hg1. split.
  { unfold update_trace. by rewrite <- ?app_assoc. }
  split; [done|]. split; [done|]. split; [|done].
  rewrite Htr1, !no_delivery_app, Hq1.
  change (no_delivery (EvNow (clock env (S n)) :: ?l))
    with (no_delivery l).
  rewrite (update_trace_quiet env _ _ _ "任务超时" eq_refl).
  assert (no_delivery (trace st0) = true) as ->; [|done].
  unfold st0. simpl. unfold no_delivery. simpl. rewrite forallb_app.
  pose proof (update_trace_quiet env (sent (send_result env 0)) 0 1
                (created_notice created) eq_refl) as Hq.
  unfold no_delivery in Hq. by rewrite Hq.
Qed.

Lemma timeout_from_polling_start_witness :
  ∃ st', processJob sample_config env_stuck jobA 5 fresh
         = (inl (Some TimedOut), st')
         ∧ lastStatus st' = Some "任务超时"
         ∧ no_delivery (trace st') = true
         ∧ n_get st' = 2%nat
         ∧ last (trace st')
           = Some (EvStatusMsg MsgUndefined (MsgIds ["2"])).
Proof.
  destruct (timeout_from_polling_start sample_config env_stuck jobA
              task_pending 2 5)
    as (st0 & st1 & st' & rounds & _ & _ & _ & _ & _ & E & _ & _ & Hl & Hq
        & Hg).
  - reflexivity.
  - intros i Hi. destruct i as [|[|i]]; [by vm_compute..|lia].
  - reflexivity.
  - reflexivity.
  - lia.
  - exists st'. split; [exact E|]. split; [exact Hl|]. split; [exact Hq|].
    split; [exact Hg|].
    assert (st' = (processJob sample_config env_stuck jobA 5 fresh).2)
      as -> by (by rewrite E).
    by vm_compute.
Defined.

(** C4 with the budget measured from the start of the job fails: when
    the submission alone outlasts the budget, the first round still finds
    [Date.now() - startAt] at 0, queries the backend, and the job is
    delivered.  [started_at] is the clock when [processJob] is called: a
    reading made before any call would show it, and no reading is. *)
Lemma timeout_not_from_job_start :
  ¬ (∀ (config : Config) (env : Env) (job : QueueJob) (created : Task)
       (fuel : nat),
       post_result env = inl (Object created) →
       signal_aborted env 0 = false →
       (started_at env <= clock env 0)%Z →
       (clock env 0 <= clock env 1)%Z →
       Forall (λ t, t = started_at env)
         (at_call (trace (processJob config env job fuel fresh).2)) →
       (timeout config < clock env 1 - started_at env)%Z →
       (0 < fuel)%nat →
       (processJob config env job fuel fresh).1 = inl (Some TimedOut)).
Proof.
  intros H.
  assert ((processJob sample_config env_slow jobA 3 fresh).1
          = inl (Some TimedOut)) as E.
  { apply (H sample_config env_slow jobA task_pending 3%nat).
    - reflexivity.
    - reflexivity.
    - by vm_compute.
    - by vm_compute.
    - vm_compute. apply Forall_nil_2.
    - reflexivity.
    - lia. }
  vm_compute in E. discriminate E.
Qed.

End JobFacts.

(** ** Further properties of the queue manager *)

Module QueueMore.
Import Queue Samples QueueFacts.

Lemma fmap_imap_const {A B C} (g : nat → A → B) (h : B → C) (k : A → C)
    (q : list A) :
  (∀ i x, h (g i x) = k x) → h <$> imap g q = k <$> q.
Proof.
  revert g. induction q as [|x q IH]; intros g Hg; simpl; [done|].
  rewrite Hg. f_equal. apply IH. intros i y. apply Hg.
Qed.

(** [getSummary] in a reachable state: every listed channel is reported as
    running; its length is the number of its items, at least 1; the items
    carry the ids and album ids of the queued jobs, in queue order; the
    first item is labelled running and every other one waiting. *)
Theorem summary_view (ops : list Op) :
  map_Forall
    (λ c e,
       sum_running e = true
       ∧ sum_length e = length (sum_items e)
       ∧ (0 < sum_length e)%nat
       ∧ item_id <$> sum_items e = id <$> queue_of (run ops init).1 c
       ∧ item_album_id <$> sum_items e
         = (λ j, album_id (submit j)) <$> queue_of (run ops init).1 c
       ∧ item_state <$> sum_items e
         = Running :: replicate (sum_length e - 1) Waiting)
    (getSummary (run ops init).1).
Proof.
  pose proof (wf_reachable ops) as Hw. set (s := (run ops init).1) in *.
  intros c e. rewrite getSummary_lookup.
  destruct (queues s !! c) as [l|] eqn:Hc; [|done]. simpl. intros [= <-].
  rewrite (queue_of_lookup _ _ _ Hc).
  destruct (sh_nonempty s (wf_shaped s Hw) c l Hc) as (j & q & Hl).
  rewrite (arr_lookup _ _ _ Hl). unfold summarize.
  rewrite bool_decide_eq_true_2 by (apply (wf_running s Hw); eauto).
  cbn [sum_running sum_length sum_items].
  split; [done|]. split; [by rewrite length_imap|]. split; [simpl; lia|].
  split; [by apply fmap_imap_const|]. split; [by apply fmap_imap_const|].
  rewrite imap_cons. simpl. f_equal. rewrite Nat.sub_0_r.
  rewrite (fmap_imap_const _ item_state (λ _, Waiting)) by done.
  clear. induction q as [|x q IH]; [done|]. simpl. f_equal. exact IH.
Qed.

Lemma maybeStart_running cid s c :
  c ≠ cid → (c ∈ running (maybeStart cid s).1 ↔ c ∈ running s).
Proof.
  intros Hne. unfold maybeStart. case_decide; [done|].
  destruct (queues s !! cid); [|done].
  destruct (arr (store s) n); [done|]. simpl.
  rewrite elem_of_union, elem_of_singleton.
  split; [by intros [?|?]|by right].
Qed.

(** What a step leaves alone: the map entry, the array and the running
    mark of every channel but its own. *)
Lemma step_other op s c :
  wf s → op_channel s op ≠ Some c →
  queues (step op s).1 !! c = queues s !! c
  ∧ (∀ l, queues s !! c = Some l →
          arr (store (step op s).1) l = arr (store s) l)
  ∧ (c ∈ running (step op s).1 ↔ c ∈ running s).
Proof.
  intros Hw Hop. pose proof (wf_shaped s Hw) as Hs.
  destruct op as [job|cid jid|cid|i]; simpl in *.
  - assert (c ≠ channelCid job) as Hne by congruence.
    unfold enqueue.
    destruct (push_fields job s) as (Hq & Hr & _ & _).
    assert (∀ l, queues s !! c = Some l →
                 arr (store (push job s).2) l = arr (store s) l) as Ha.
    { intros l Hl. unfold push.
      destruct (queues s !! channelCid job) as [l0|] eqn:E; simpl.
      - rewrite arr_alter_ne; [done|]. intros ->. apply Hne.
        by eapply (sh_inj s Hs).
      - pose proof (shaped_lt s c l Hs Hl).
        rewrite arr_alter_ne by lia. by rewrite arr_app_l. }
    destruct (push job s) as [l0 s1]; simpl in *.
    destruct (maybeStart_fields (channelCid job) s1) as (Hst & Hqs & _).
    pose proof (maybeStart_running (channelCid job) s1 c Hne) as Hrun.
    destruct (maybeStart (channelCid job) s1) as [s2 evs]; simpl in *.
    rewrite Hqs, Hq, lookup_insert_ne, Hst by done.
    split; [done|]. split; [done|]. by rewrite Hrun, Hr.
  - assert (c ≠ cid) as Hne by congruence. unfold cancel.
    destruct (queues s !! cid) as [l0|] eqn:E; [|done].
    case_bool_decide; [done|].
    destruct (findIndex jid (arr (store s) l0)) as [[idx job]|]; [|done].
    simpl. split; [|split; [|done]].
    + case_bool_decide; [by rewrite lookup_delete_ne|done].
    + intros l Hl. rewrite arr_insert_ne; [done|]. intros ->. apply Hne.
      by eapply (sh_inj s Hs).
  - assert (c ≠ cid) as Hne by congruence. unfold clear.
    destruct (queues s !! cid) as [l0|] eqn:E; [|done]. simpl.
    split; [by rewrite lookup_delete_ne|]. split; [done|].
    rewrite elem_of_difference, elem_of_singleton.
    split; [by intros [? _]|by split].
  - unfold settle. destruct (loops s !! i) as [lp|] eqn:Hi; [|done].
    simpl in Hop. assert (c ≠ l_cid lp) as Hne by congruence.
    pose proof (list_elem_of_lookup_2 _ _ _ Hi) as Hin.
    assert (∀ l, queues s !! c = Some l → l_q lp ≠ l) as Hl.
    { intros l Hc <-. apply Hne. by apply (sh_owner s Hs). }
    destruct (tail (arr (store s) (l_q lp))) as [|job r]; simpl.
    + split; [by rewrite lookup_delete_ne|].
      split; [intros l0 Hc; rewrite arr_insert_ne; eauto|].
      rewrite elem_of_difference, elem_of_singleton.
    split; [by intros [? _]|by split].
    + split; [done|].
      split; [intros l0 Hc; rewrite arr_insert_ne; eauto|done].
Qed.

(** Channels are independent: from every reachable state, a step on one
    channel (an enqueue into it, a cancel or a clear on it, or one of its
    jobs settling) changes neither the queue, nor the running mark, nor the
    summary of any other channel. *)
Theorem other_channels_untouched (ops : list Op) (op : Op) (c : string) :
  op_channel (run ops init).1 op ≠ Some c →
  queue_of (step op (run ops init).1).1 c = queue_of (run ops init).1 c
  ∧ (c ∈ running (step op (run ops init).1).1 ↔ c ∈ running (run ops init).1)
  ∧ getSummary (step op (run ops init).1).1 !! c
    = getSummary (run ops init).1 !! c.
Proof.
  intros Hop. pose proof (wf_reachable ops) as Hw.
  set (s := (run ops init).1) in *.
  destruct (step_other op s c Hw Hop) as (Hq & Ha & Hr).
  split; [|split; [done|]].
  - unfold queue_of. rewrite Hq. destruct (queues s !! c); eauto.
  - rewrite !getSummary_lookup, Hq.
    destruct (queues s !! c) as [l|] eqn:Hc; [|done]. simpl. f_equal.
    unfold summarize. rewrite (Ha l) by done.
    by rewrite (bool_decide_ext _ _ Hr).
Qed.

Lemma other_channels_untouched_witness :
  queue_of (step (OpClear "d")
              (run [OpEnqueue jobA; OpEnqueue jobB] init).1).1 "c"
  = [jobA; jobB].
Proof.
  destruct (other_channels_untouched [OpEnqueue jobA; OpEnqueue jobB]
              (OpClear "d") "c") as [H _]; [discriminate|].
  rewrite H. reflexivity.
Defined.

(** *** Cancellation tokens *)

Lemma enqueue_aborted job s : aborted (enqueue job s).1.2 = aborted s.
Proof.
  unfold enqueue. destruct (push_fields job s) as (_ & _ & Ha & _).
  destruct (push job s) as [l s1]; simpl in *.
  destruct (maybeStart_fields (channelCid job) s1) as (_ & _ & Ha').
  destruct (maybeStart (channelCid job) s1) as [s2 evs]; simpl in *.
  congruence.
Qed.

Lemma settle_aborted i s : aborted (settle i s).1 = aborted s.
Proof.
  unfold settle. destruct (loops s !! i); [|done].
  by destruct (tail (arr (store s) (l_q l))).
Qed.

Lemma aborted_step op s : aborted s ⊆ aborted (step op s).1.
Proof.
  destruct op as [job|cid jid|cid|i]; simpl.
  - pose proof (enqueue_aborted job s) as H.
    destruct (enqueue job s) as [[pos s'] evs]; simpl in *. by rewrite H.
  - unfold cancel. destruct (queues s !! cid); [|done].
    case_bool_decide; [done|].
    destruct (findIndex jid (arr (store s) n)) as [[idx job]|]; [|done].
    simpl. apply union_subseteq_r.
  - unfold clear. destruct (queues s !! cid); [|done]. simpl.
    apply union_subseteq_r.
  - by rewrite settle_aborted.
Qed.

Lemma aborted_run ops : ∀ s, aborted s ⊆ aborted (run ops s).1.
Proof.
  induction ops as [|op ops IH]; intros s; simpl; [done|].
  pose proof (aborted_step op s) as H1.
  destruct (step op s) as [s1 e1]; simpl in *.
  pose proof (IH s1) as H2. destruct (run ops s1) as [s2 e2]; simpl in *.
  by etrans.
Qed.

Lemma from_jobs_step op s E :
  from_jobs E s → from_jobs (E ++ enqueued_all [op]) (step op s).1.
Proof.
  intros [Hst Hab].
  assert (∀ j, j ∈ E → j ∈ E ++ enqueued_all [op]) as Hmono.
  { intros j Hj. apply elem_of_app. by left. }
  assert (∀ x, x ∈ controller <$> E →
               x ∈ controller <$> E ++ enqueued_all [op]) as Hmono'.
  { intros x Hx. rewrite fmap_app. apply elem_of_app. by left. }
  assert (∀ l j, j ∈ arr (store s) l → j ∈ E) as Harr.
  { intros l j Hj. unfold arr in Hj.
    destruct (store s !! l) as [q|] eqn:El; simpl in Hj; [eauto|].
    by apply elem_of_nil in Hj. }
  destruct op as [job|cid jid|cid|i]; simpl.
  - pose proof (enqueue_aborted job s) as Ha. unfold enqueue in *.
    assert (∀ l q j, store (push job s).2 !! l = Some q → j ∈ q →
                     j ∈ E ++ [job]) as Hp.
    { intros l q j. unfold push.
      destruct (queues s !! channelCid job) as [l0|]; simpl.
      - intros Hl Hj. destruct (decide (l0 = l)) as [->|Hne].
        + rewrite list_lookup_alter_eq in Hl.
          destruct (store s !! l) as [q0|] eqn:El; [|done].
          simpl in Hl. injection Hl as <-.
          apply elem_of_app in Hj as [Hj|Hj]; apply elem_of_app; eauto.
        + rewrite list_lookup_alter_ne in Hl by done.
          apply elem_of_app. eauto.
      - intros Hl Hj.
        destruct (decide (length (store s) = l)) as [<-|Hne].
        + rewrite list_lookup_alter_eq, list_lookup_middle in Hl by done.
          simpl in Hl. injection Hl as <-. apply elem_of_app. by right.
        + rewrite list_lookup_alter_ne in Hl by done.
          apply lookup_app_Some in Hl as [Hl|[Hle Hl]].
          * apply elem_of_app. eauto.
          * destruct (l - length (store s))%nat as [|[|k]] eqn:Ek;
              simpl in Hl; [lia|done|done]. }
    destruct (push job s) as [l0 s1]; simpl in *.
    destruct (maybeStart_fields (channelCid job) s1) as (Hs2 & _ & _).
    destruct (maybeStart (channelCid job) s1) as [s2 evs]; simpl in *.
    split; [by rewrite Hs2|]. rewrite Ha. auto.
  - rewrite app_nil_r. unfold cancel.
    destruct (queues s !! cid) as [l0|]; [|done].
    case_bool_decide; [done|].
    destruct (findIndex jid (arr (store s) l0)) as [[idx job]|] eqn:F;
      [|done].
    apply list_find_Some in F as (Hl & _ & _). simpl. split.
    + intros l q j Hq Hj.
      apply list_lookup_insert_Some in Hq as [(-> & <- & _)|(_ & Hq)].
      * apply (Harr l). by eapply elem_of_delete_inv.
      * eauto.
    + intros x [Hx|Hx]%elem_of_union; [|auto].
      apply elem_of_singleton in Hx as ->. apply list_elem_of_fmap.
      exists job. split; [done|]. apply (Harr l0).
      by eapply list_elem_of_lookup_2.
  - rewrite app_nil_r. unfold clear.
    destruct (queues s !! cid) as [l0|]; [|done]. simpl.
    split; [done|]. intros x [Hx|Hx]%elem_of_union; [|auto].
    apply elem_of_list_to_set, list_elem_of_fmap in Hx as (j & -> & Hj).
    apply list_elem_of_fmap. exists j. eauto.
  - rewrite app_nil_r. unfold settle.
    destruct (loops s !! i) as [lp|]; [|done].
    assert (∀ l q j,
      <[l_q lp := tail (arr (store s) (l_q lp))]> (store s) !! l = Some q →
      j ∈ q → j ∈ E) as Hins.
    { intros l q j Hq Hj.
      apply list_lookup_insert_Some in Hq as [(<- & <- & _)|(_ & Hq)].
      - apply (Harr (l_q lp)).
        destruct (arr (store s) (l_q lp)) as [|j0 q0]; simpl in Hj;
          [by apply elem_of_nil in Hj|].
        by apply elem_of_cons; right.
      - eauto. }
    by destruct (tail (arr (store s) (l_q lp))) eqn:T.
Qed.

Lemma enqueued_all_cons op ops :
  enqueued_all (op :: ops) = enqueued_all [op] ++ enqueued_all ops.
Proof. apply (omap_app _ [op] ops). Qed.

Lemma from_jobs_run ops : ∀ s E,
  from_jobs E s → from_jobs (E ++ enqueued_all ops) (run ops s).1.
Proof.
  induction ops as [|op ops IH]; intros s E H.
  { simpl. by rewrite app_nil_r. }
  rewrite enqueued_all_cons, app_assoc. cbn [run].
  pose proof (from_jobs_step op s E H) as H1.
  destruct (step op s) as [s1 e1]; cbn [fst] in *.
  pose proof (IH s1 _ H1) as H2.
  by destruct (run ops s1) as [s2 e2].
Qed.

(** A signalled token stays signalled along every history; only tokens of
    jobs that were enqueued are ever signalled; enqueuing a job and a job
    settling signal nothing. *)
Theorem tokens_signalled (ops1 ops2 : list Op) :
  aborted (run ops1 init).1 ⊆ aborted (run (ops1 ++ ops2) init).1
  ∧ aborted (run ops1 init).1
    ⊆ list_to_set (controller <$> enqueued_all ops1)
  ∧ ∀ op, if calm op
          then aborted (step op (run ops1 init).1).1
               = aborted (run ops1 init).1
          else True.
Proof.
  split; [|split].
  - rewrite run_app. simpl. apply aborted_run.
  - destruct (from_jobs_run ops1 init []) as [_ H].
    { split; simpl.
      - intros l q j Hl. by rewrite lookup_nil in Hl.
      - intros x Hx. by apply not_elem_of_empty in Hx. }
    intros x Hx. apply elem_of_list_to_set. by apply H.
  - intros [job|cid jid|cid|i]; simpl; try done.
    + pose proof (enqueue_aborted job (run ops1 init).1) as H.
      by destruct (enqueue job (run ops1 init).1) as [[pos s'] evs].
    + apply settle_aborted.
Qed.

(** *** Cancelling and clearing twice *)

Lemma cancel_absent cid jid s :
  (∀ j, j ∈ queue_of s cid → id j ≠ jid) → cancel cid jid s = (false, s).
Proof.
  intros Hno. unfold cancel, queue_of in *.
  destruct (queues s !! cid) as [l|] eqn:Hc; [|done].
  case_bool_decide; [done|].
  destruct (findIndex jid (arr (store s) l)) as [[idx job]|] eqn:F; [|done].
  apply list_find_Some in F as (Hl & Hid & _).
  exfalso. eapply Hno; [|done]. by eapply list_elem_of_lookup_2.
Qed.

Lemma cancel_found cid jid s idx job :
  wf s → findIndex jid (queue_of s cid) = Some (idx, job) →
  (cancel cid jid s).1 = true
  ∧ queue_of (cancel cid jid s).2 cid = delete idx (queue_of s cid).
Proof.
  intros Hw Hf. unfold cancel.
  destruct (queues s !! cid) as [l|] eqn:Hc.
  2:{ by rewrite (queue_of_None _ _ Hc) in Hf. }
  rewrite (queue_of_lookup _ _ _ Hc) in *.
  pose proof (shaped_lt s cid l (wf_shaped s Hw) Hc) as Hlt.
  case_bool_decide as Hlen.
  { destruct (arr (store s) l); [done|simpl in Hlen; lia]. }
  rewrite Hf. simpl. split; [done|].
  unfold queue_of. simpl. case_bool_decide as Hlen'.
  - rewrite lookup_delete_eq. by destruct (delete idx (arr (store s) l)).
  - rewrite Hc. by rewrite arr_insert_eq.
Qed.

Lemma filter_all {A} (P : A → Prop) `{∀ x, Decision (P x)} (l : list A) :
  (∀ x, x ∈ l → P x) → filter P l = l.
Proof.
  induction l as [|x l IH]; intros Hl; [done|].
  rewrite filter_cons_True by (apply Hl; left). f_equal. apply IH.
  intros y Hy. apply Hl. by right.
Qed.

Lemma delete_filter_id (q : list QueueJob) : ∀ idx job,
  NoDup (id <$> q) → q !! idx = Some job →
  delete idx q = filter (λ j, id j ≠ id job) q.
Proof.
  induction q as [|x q IH]; intros idx job Hnd Hl; [done|].
  rewrite fmap_cons in Hnd. apply NoDup_cons in Hnd as [Hx Hnd].
  destruct idx as [|idx]; simpl in Hl.
  - injection Hl as ->. simpl. rewrite filter_cons_False by (by intros ?).
    symmetry. apply filter_all. intros y Hy Heq. apply Hx.
    rewrite <- Heq. apply list_elem_of_fmap. eauto.
  - simpl. rewrite filter_cons_True.
    + f_equal. by apply IH.
    + intros Heq. apply Hx. rewrite Heq. apply list_elem_of_fmap.
      exists job. split; [done|]. by eapply list_elem_of_lookup_2.
Qed.

(** [cancel] under unique ids: from a reachable state in which the ids of
    the channel's queue are pairwise distinct, [cancel] leaves in the queue
    exactly the jobs with another id, in their order, and cancelling the
    same id again returns false and changes nothing. *)
Theorem cancel_twice (ops : list Op) (cid jid : string) :
  NoDup (id <$> queue_of (run ops init).1 cid) →
  queue_of (cancel cid jid (run ops init).1).2 cid
  = filter (λ j, id j ≠ jid) (queue_of (run ops init).1 cid)
  ∧ cancel cid jid (cancel cid jid (run ops init).1).2
    = (false, (cancel cid jid (run ops init).1).2).
Proof.
  intros Hnd. pose proof (wf_reachable ops) as Hw.
  set (s := (run ops init).1) in *.
  assert (queue_of (cancel cid jid s).2 cid
          = filter (λ j, id j ≠ jid) (queue_of s cid)) as Hq.
  { destruct (findIndex jid (queue_of s cid)) as [[idx job]|] eqn:F.
    - destruct (cancel_found cid jid s idx job Hw F) as [_ ->].
      apply list_find_Some in F as (Hl & <- & _).
      by apply delete_filter_id.
    - apply list_find_None in F.
      rewrite cancel_absent.
      + simpl. symmetry. apply filter_all. intros j Hj.
        by eapply (proj1 (Forall_forall _ _) F).
      + intros j Hj. by eapply (proj1 (Forall_forall _ _) F). }
  split; [done|]. apply cancel_absent. intros j. rewrite Hq.
  by intros [? _]%list_elem_of_filter.
Qed.

Lemma cancel_twice_witness :
  queue_of (cancel "c" "J1" (run [OpEnqueue jobA; OpEnqueue jobB] init).1).2
           "c" = [jobB]
  ∧ (cancel "c" "J1"
       (cancel "c" "J1" (run [OpEnqueue jobA; OpEnqueue jobB] init).1).2).1
    = false.
Proof.
  destruct (cancel_twice [OpEnqueue jobA; OpEnqueue jobB] "c" "J1")
    as [H1 H2].
  - vm_compute. apply NoDup_cons. split; [|apply NoDup_singleton].
    intros H. apply list_elem_of_singleton in H. discriminate H.
  - split; [rewrite H1; reflexivity|by rewrite H2].
Defined.

(** After [clear] the channel starts afresh: a second [clear] returns 0 and
    a [cancel] returns false, both without any change; the next job
    enqueued into the channel gets position 1 and is alone in the queue;
    and when the channel had a queue, that job is started at once. *)
Theorem clear_resets_channel (ops : list Op) (job : QueueJob) :
  clear (channelCid job) (clear (channelCid job) (run ops init).1).2
  = (0%nat, (clear (channelCid job) (run ops init).1).2)
  ∧ (∀ jid,
       cancel (channelCid job) jid
         (clear (channelCid job) (run ops init).1).2
       = (false, (clear (channelCid job) (run ops init).1).2))
  ∧ (enqueue job (clear (channelCid job) (run ops init).1).2).1.1 = 1%nat
  ∧ queue_of (enqueue job (clear (channelCid job) (run ops init).1).2).1.2
             (channelCid job) = [job]
  ∧ match queues (run ops init).1 !! channelCid job with
    | Some _ =>
        (enqueue job (clear (channelCid job) (run ops init).1).2).2
        = [EvStart (channelCid job) job]
    | None => True
    end.
Proof.
  pose proof (wf_reachable ops) as Hw. set (s := (run ops init).1) in *.
  pose proof (wf_clear (channelCid job) s Hw) as Hw'.
  set (s' := (clear (channelCid job) s).2) in *.
  assert (queues s' !! channelCid job = None) as Hn.
  { unfold s', clear. destruct (queues s !! channelCid job) eqn:E; [|done].
    simpl. apply lookup_delete_eq. }
  destruct (enqueue_queue job s' (wf_shaped s' Hw')) as [Hq Hpos].
  rewrite (queue_of_None _ _ Hn) in Hq, Hpos.
  split; [|split; [|split; [done|split; [done|]]]].
  - unfold clear at 1. by rewrite Hn.
  - intros jid. apply cancel_absent. intros j.
    rewrite (queue_of_None _ _ Hn). by intros ?%elem_of_nil.
  - destruct (queues s !! channelCid job) as [l|] eqn:E; [|done].
    rewrite enqueue_idle; [done|done|].
    unfold s', clear. rewrite E. simpl.
    intros [_ H]%elem_of_difference. apply H. by apply elem_of_singleton.
Qed.

(** *** Started and settled jobs *)

Lemma in_flight_insert c s i lp lp' :
  loops s !! i = Some lp →
  l_job <$> filter (λ x, l_cid x = c) (<[i := lp']> (loops s))
  ≡ₚ (l_job <$> filter (λ x, l_cid x = c) [lp'])
     ++ (l_job <$> filter (λ x, l_cid x = c) (delete i (loops s))).
Proof.
  intros Hi. rewrite <- fmap_app, <- filter_app. simpl.
  assert (<[i:=lp']> (loops s) ≡ₚ lp' :: delete i (loops s)) as ->; [|done].
  rewrite insert_take_drop by (by eapply lookup_lt_Some).
  rewrite delete_take_drop. by rewrite Permutation_middle.
Qed.

Lemma in_flight_lookup c s i lp :
  loops s !! i = Some lp →
  in_flight c s
  ≡ₚ (l_job <$> filter (λ x, l_cid x = c) [lp])
     ++ (l_job <$> filter (λ x, l_cid x = c) (delete i (loops s))).
Proof.
  intros Hi. unfold in_flight. rewrite <- fmap_app, <- filter_app. simpl.
  by rewrite (delete_Permutation _ _ _ Hi) at 1.
Qed.

Lemma step_in_flight op s c :
  started c (step op s).2 ++ in_flight c s
  ≡ₚ ended c (step op s).2 ++ in_flight c (step op s).1.
Proof.
  destruct op as [job|cid jid|cid|i]; simpl.
  - unfold enqueue. destruct (push_fields job s) as (_ & _ & _ & Hlo).
    destruct (push job s) as [l s1]; simpl in *.
    unfold maybeStart. case_decide; simpl.
    { unfold in_flight. by rewrite Hlo. }
    destruct (queues s1 !! channelCid job) as [l'|]; simpl.
    2:{ unfold in_flight. by rewrite Hlo. }
    destruct (arr (store s1) l') as [|j0 q0]; simpl.
    { unfold in_flight. by rewrite Hlo. }
    unfold in_flight. simpl. rewrite Hlo, filter_app, fmap_app.
    case_decide as Hc.
    + rewrite filter_cons_True by done. simpl.
      by rewrite <- Permutation_cons_append.
    + rewrite filter_cons_False by done. simpl. by rewrite app_nil_r.
  - unfold cancel. destruct (queues s !! cid); [|done].
    case_bool_decide; [done|].
    by destruct (findIndex jid (arr (store s) n)) as [[idx job]|].
  - unfold clear. by destruct (queues s !! cid).
  - unfold settle. destruct (loops s !! i) as [lp|] eqn:Hi; [|done].
    rewrite (in_flight_lookup c s i lp Hi).
    destruct (tail (arr (store s) (l_q lp))) as [|job r]; simpl.
    + unfold in_flight. simpl. case_decide as Hc.
      * by rewrite filter_cons_True by done.
      * by rewrite filter_cons_False by done.
    + unfold in_flight. simpl.
      rewrite (in_flight_insert c s i lp _ Hi). case_decide as Hc.
      * rewrite !filter_cons_True by done. simpl. apply perm_swap.
      * by rewrite !filter_cons_False by done.
Qed.

Lemma run_in_flight ops : ∀ s c,
  started c (run ops s).2 ++ in_flight c s
  ≡ₚ ended c (run ops s).2 ++ in_flight c (run ops s).1.
Proof.
  induction ops as [|op ops IH]; intros s c; [done|]. cbn [run].
  pose proof (step_in_flight op s c) as H1.
  destruct (step op s) as [s1 e1]; cbn [fst snd] in *.
  pose proof (IH s1 c) as H2.
  destruct (run ops s1) as [s2 e2]; cbn [fst snd] in *.
  rewrite started_app, ended_app, <- !app_assoc.
  rewrite (Permutation_app_comm (started c e2)), app_assoc, H1.
  rewrite <- app_assoc. apply Permutation_app_head.
  by rewrite (Permutation_app_comm (in_flight c s1)).
Qed.

(** Along every history, cancels and clears included, and for every
    channel: the jobs on which [processJob] was called are, up to order,
    the jobs whose [processJob] has settled together with the jobs the
    suspended run loops are awaiting.  No job settles that was not started,
    and every started job is either settled or awaited. *)
Theorem in_flight_accounting (ops : list Op) (c : string) :
  started c (run ops init).2
  ≡ₚ ended c (run ops init).2 ++ in_flight c (run ops init).1.
Proof.
  pose proof (run_in_flight ops init c) as H.
  by rewrite app_nil_r in H.
Qed.

End QueueMore.

(** ** Further properties of the job life cycle *)

Module JobMore.
Import Job Samples JobFacts.

Section More.
Context (config : Config) (env : Env) (job : QueueJob).

Section Polling.
Context (created : Task) (startAt : Z).

(** One round with the token signalled: the job ends as cancelled before
    the clock is read and before the backend is queried. *)
Lemma round_cancelled st :
  signal_aborted env (n_aborted st) = true →
  ∃ st' tr,
    poll_round config env job created startAt st
    = (inl (Break Cancelled), st')
    ∧ lastStatus st' = Some "任务已取消"
    ∧ n_get st' = n_get st
    ∧ n_clock st' = n_clock st
    ∧ trace st' = trace st ++ tr ∧ no_delivery tr = true.
Proof.
  intros Ha. unfold poll_round, bind, aborted. simpl. rewrite Ha.
  match goal with
  | |- context [updateStatus env ?t ?s] =>
      destruct (updateStatus_quiet env t s eq_refl)
        as (st' & tr & -> & Hl & Hp & Htr & Hq & _)
  end.
  exists st', tr. unfold ret. destruct Hp. by repeat split.
Qed.

(** One round in which the backend reports a failure. *)
Lemma round_failed st task :
  signal_aborted env (n_aborted st) = false →
  (clock env (n_clock st) - startAt <= timeout config)%Z →
  get_result env (n_get st) = inl (Object task) →
  status task ≠ "done" →
  status task = "error" ∨ error task ≠ "" →
  ∃ st' tr,
    poll_round config env job created startAt st
    = (inl (Break BackendFailed), st')
    ∧ lastStatus st'
      = Some ("任务失败：" +:+ (if truthy (error task) then error task
                             else "未知错误"))
    ∧ backendTask st' = Some (Object task)
    ∧ n_get st' = S (n_get st)
    ∧ trace st' = trace st ++ tr ∧ no_delivery tr = true.
Proof.
  intros Ha Ht Hg Hnd Herr.
  unfold poll_round, bind, aborted, now, emit. simpl.
  rewrite Ha. simpl. apply Z.ltb_ge in Ht. rewrite Ht.
  unfold attempt, http_get, emit. simpl. rewrite Hg.
  unfold set_backendTask, object_of, ret. simpl.
  apply String.eqb_neq in Hnd. rewrite Hnd.
  assert ((status task =? "error")%string || truthy (error task) = true)
    as ->.
  { apply orb_true_iff. destruct Herr as [He|He].
    - left. by apply String.eqb_eq.
    - right. unfold truthy. apply negb_true_iff. by apply String.eqb_neq. }
  match goal with
  | |- context [updateStatus env ?t ?s] =>
      destruct (updateStatus_quiet env t s eq_refl)
        as (st' & tr & -> & Hl & Hp & Htr & Hq & _)
  end.
  unfold ret. destruct Hp. simpl in *.
  eexists _, ([_; _] ++ tr). split; [reflexivity|].
  repeat (split; [done|]). split; [by rewrite Htr, <- !app_assoc|].
  by rewrite no_delivery_app, Hq.
Qed.

(** A round that asks for another round has read the clock once and found
    the budget not exceeded. *)
Lemma round_continue st st' :
  poll_round config env job created startAt st = (inl Continue, st') →
  n_clock st' = S (n_clock st)
  ∧ (clock env (n_clock st) - startAt <= timeout config)%Z.
Proof.
  unfold poll_round, bind, aborted, now, emit. simpl.
  destruct (signal_aborted env (n_aborted st)) eqn:Ha; simpl.
  { match goal with
    | |- context [updateStatus env ?t ?s] =>
        destruct (updateStatus_spec env t s)
          as (? & ? & _ & _ & _ & _ & _ & _ & ->)
    end. unfold ret. by intros [= ]. }
  destruct (timeout config <? clock env (n_clock st) - startAt)%Z eqn:Ht.
  { match goal with
    | |- context [updateStatus env ?t ?s] =>
        destruct (updateStatus_spec env t s)
          as (? & ? & _ & _ & _ & _ & _ & _ & ->)
    end. unfold ret. by intros [= ]. }
  apply Z.ltb_ge in Ht.
  unfold attempt, http_get, emit. simpl.
  destruct (get_result env (n_get st)) as [[task| |]|e] eqn:Eg; simpl;
    [|unfold set_backendTask, object_of, throw; simpl; by intros [= ]..|].
  - unfold set_backendTask, object_of, ret. simpl.
    destruct (status task =? "done")%string eqn:Hd.
    { match goal with
      | |- context [deliver config env job task ?s] =>
          destruct (deliver config env job task s) as [[[]|e] s']
      end; unfold ret; by intros [= ]. }
    destruct ((status task =? "error")%string || truthy (error task))
      eqn:He.
    { match goal with
      | |- context [updateStatus env ?t ?s] =>
          destruct (updateStatus_spec env t s)
            as (? & ? & _ & _ & _ & _ & _ & _ & ->)
      end. unfold ret. by intros [= ]. }
    unfold sleep, ret. simpl. by intros [= <-].
  - match goal with
    | |- context [updateStatus env ?t ?s] =>
        destruct (updateStatus_spec env t s)
          as (st1 & tr1 & _ & _ & _ & _ & _ & [] & ->)
    end. unfold sleep, ret. simpl in *. intros [= <-]. simpl. by split.
Qed.

Lemma loop_ends N : ∀ fuel st,
  (timeout config < clock env (n_clock st + N) - startAt)%Z →
  (N < fuel)%nat →
  (poll_loop config env job fuel created startAt st).1 ≠ inl None.
Proof.
  induction N as [|N IH]; intros fuel st Ht Hf;
    (destruct fuel as [|fuel]; [lia|]); simpl; unfold bind at 1;
    destruct (poll_round config env job created startAt st)
      as [[[|o]|e] st1] eqn:E; try done.
  - apply round_continue in E as [_ E]. rewrite Nat.add_0_r in Ht. lia.
  - apply round_continue in E as [E _]. apply IH; [|lia].
    rewrite E. by replace (S (n_clock st) + N)%nat
      with (n_clock st + S N)%nat by lia.
Qed.

End Polling.
End More.

(** *** What a run never adds to the trace *)

Section Emits.
Context (config : Config) (env : Env) (job : QueueJob).
Context (q : Event → bool).
Hypothesis q_send : ∀ c r, q (EvSend c r) = true.
Hypothesis q_delete : ∀ mid ok, q (EvDelete mid ok) = true.
Hypothesis q_write : ∀ old new, q (EvStatusMsg old new) = true.

Lemma emits_ret {A} (a : A) : emits q (ret a).
Proof. intros st. exists []. by rewrite app_nil_r. Qed.

Lemma emits_bind {A B} (m : M A) (k : A → M B) :
  emits q m → (∀ a, emits q (k a)) → emits q (bind m k).
Proof.
  intros Hm Hk st. unfold bind. destruct (Hm st) as (tr1 & E1 & Q1).
  destruct (m st) as [[a|e] st1]; simpl in *; [|by exists tr1].
  destruct (Hk a st1) as (tr2 & E2 & Q2). exists (tr1 ++ tr2).
  by rewrite E2, E1, app_assoc, forallb_app, Q1, Q2.
Qed.

Lemma emits_catch {A} (m : M A) (h : Thrown → M A) :
  emits q m → (∀ e, emits q (h e)) → emits q (catch m h).
Proof.
  intros Hm Hh st. unfold catch. destruct (Hm st) as (tr1 & E1 & Q1).
  destruct (m st) as [[a|e] st1]; simpl in *; [by exists tr1|].
  destruct (Hh e st1) as (tr2 & E2 & Q2). exists (tr1 ++ tr2).
  by rewrite E2, E1, app_assoc, forallb_app, Q1, Q2.
Qed.

Lemma emits_attempt {A} (m : M A) : emits q m → emits q (attempt m).
Proof.
  intros Hm st. unfold attempt. destruct (Hm st) as (tr1 & E1 & Q1).
  destruct (m st) as [r st1]. by exists tr1.
Qed.

Lemma emits_silent {A} (m : M A) :
  (∀ st, trace (m st).2 = trace st) → emits q m.
Proof. intros H st. exists []. by rewrite app_nil_r. Qed.

Lemma emits_one {A} (m : M A) (e : St → Event) :
  (∀ st, trace (m st).2 = trace st ++ [e st]) → (∀ st, q (e st) = true) →
  emits q m.
Proof. intros H He st. exists [e st]. simpl. by rewrite H, He. Qed.

Lemma emits_now : (∀ t, q (EvNow t) = true) → emits q (now env).
Proof.
  intros q_now.
  by apply (emits_one _ (λ st, EvNow (clock env (n_clock st)))).
Qed.

Lemma emits_send c : emits q (send env c).
Proof. by apply (emits_one _ (λ st, EvSend c (send_result env (n_send st)))). Qed.

Lemma emits_safeSend c : emits q (safeSend env c).
Proof.
  apply emits_catch; [apply emits_send|]. intros e. apply emits_ret.
Qed.

Lemma recall_allowed tr : forallb recall_event tr = true → forallb q tr = true.
Proof.
  induction tr as [|e tr IH]; simpl; [done|].
  intros [He Htr]%andb_true_iff. rewrite (IH Htr), andb_true_r.
  destruct e;
    first [apply q_send | apply q_delete | apply q_write | discriminate He].
Qed.

Lemma emits_recallStatus : emits q (recallStatus env).
Proof.
  intros st.
  destruct (recallStatus_spec env st)
    as (st' & tr & -> & _ & _ & _ & _ & Ht & Hf & _).
  exists tr. split; [done|]. by apply recall_allowed.
Qed.

Lemma emits_updateStatus text : emits q (updateStatus env text).
Proof.
  intros st.
  destruct (updateStatus_spec env text st)
    as (st1 & tr & _ & _ & Ht & Hf & _ & _ & ->).
  eexists (tr ++ [_; _]). simpl. split; [by rewrite Ht, <- app_assoc|].
  rewrite forallb_app, (recall_allowed _ Hf). simpl.
  by rewrite q_send, q_write.
Qed.

Lemma emits_deliver task : emits q (deliver config env job task).
Proof.
  unfold deliver.
  apply emits_bind; [apply emits_updateStatus|intros _].
  apply emits_bind.
  { apply emits_catch.
    - destruct (truthy (download_url task));
        (apply emits_bind; [apply emits_send|intros _; apply emits_ret]).
    - intros e.
      apply emits_bind; [apply emits_send|intros _; apply emits_ret]. }
  intros _. apply emits_bind; [apply emits_recallStatus|intros _].
  apply emits_bind; [apply emits_safeSend|intros _; apply emits_ret].
Qed.

Lemma emits_poll_loop fuel created startAt :
  (∀ r, q (EvGet (endpoint config +:+ "/tasks/" +:+ task_id created) r)
        = true) →
  q (EvSleep (queryInterval config)) = true →
  (∀ t, q (EvNow t) = true) →
  emits q (poll_loop config env job fuel created startAt).
Proof.
  intros q_get q_sleep q_now.
  assert (emits q (sleep (queryInterval config))) as Hsleep.
  { by apply (emits_one _ (λ _, EvSleep (queryInterval config))). }
  induction fuel as [|fuel IH]; simpl; [apply emits_ret|].
  apply emits_bind; [|intros [|o]; [apply IH|apply emits_ret]].
  unfold poll_round.
  apply emits_bind; [by apply emits_silent|intros a].
  destruct a.
  { apply emits_bind; [apply emits_updateStatus|intros _; apply emits_ret]. }
  apply emits_bind; [by apply emits_now|intros t].
  destruct (timeout config <? t - startAt)%Z.
  { apply emits_bind; [apply emits_updateStatus|intros _; apply emits_ret]. }
  apply emits_bind.
  { apply emits_attempt.
    by apply (emits_one _
                (λ st, EvGet (endpoint config +:+ "/tasks/"
                              +:+ task_id created)
                             (get_result env (n_get st)))). }
  intros [a|e].
  - apply emits_bind; [by apply emits_silent|intros _].
    apply emits_bind.
    { destruct a; [apply emits_ret|by apply emits_silent..]. }
    intros task.
    destruct (status task =? "done")%string.
    { apply emits_bind; [apply emits_deliver|intros _; apply emits_ret]. }
    destruct ((status task =? "error")%string || truthy (error task)).
    { apply emits_bind; [apply emits_updateStatus|intros _].
      apply emits_ret. }
    apply emits_bind; [apply Hsleep|intros _; apply emits_ret].
  - apply emits_bind; [apply emits_updateStatus|intros _].
    apply emits_bind; [apply Hsleep|intros _; apply emits_ret].
Qed.

End Emits.

(** The submission is made exactly once: every run of [processJob] posts
    the start notice, stores its reference, and then submits, once, the
    job's request with the defaults applied to [endpoint/tasks]; after
    that it never submits again, every query it makes is for the task the
    submission created (none at all when the submission failed), and every
    pause lasts one [queryInterval]. *)
Theorem submit_once
    (config : Config) (env : Env) (job : QueueJob) (fuel : nat) (st : St) :
  ∃ tr,
    trace (processJob config env job fuel st).2
    = trace st
      ++ [EvSend (CText ("开始下载 [" +:+ album_id (submit job)
                         +:+ "]，正在创建任务..."))
            (send_result env (n_send st));
          EvStatusMsg (statusMsg st) (sent (send_result env (n_send st)));
          EvPost (endpoint config +:+ "/tasks") (finalSubmit config job)
            (post_result env)]
      ++ tr
    ∧ forallb (after_submit config (post_result env)) tr = true.
Proof.
  set (q := after_submit config (post_result env)).
  assert (∀ s0, ∃ tr,
    trace (submit_and_poll config env job fuel s0).2
    = trace s0 ++ [EvPost (endpoint config +:+ "/tasks")
                     (finalSubmit config job) (post_result env)] ++ tr
    ∧ forallb q tr = true) as Hrest.
  { intros s0. destruct (post_result env) as [[created| |]|err] eqn:Hp.
    - rewrite (submit_and_poll_object config env job created fuel s0 Hp).
      assert (emits q
                (bind (updateStatus env (created_notice created))
                   (λ _, bind (now env)
                           (λ startAt,
                              poll_loop config env job fuel created
                                startAt)))) as He.
      { apply emits_bind; [by apply emits_updateStatus|intros _].
        apply emits_bind; [by apply emits_now|intros t].
        apply emits_poll_loop; try done.
        - intros r. unfold q. rewrite ?Hp. simpl. apply String.eqb_refl.
        - unfold q. simpl. apply Z.eqb_refl. }
      match goal with
      | |- context [bind _ _ ?s1] => destruct (He s1) as (tr & E & Q)
      end.
      exists tr. rewrite E. simpl. by rewrite <- app_assoc.
    - rewrite (submit_and_poll_nullish config env job Null fuel s0 Hp eq_refl).
      exists []. by rewrite app_nil_r.
    - rewrite (submit_and_poll_nullish config env job Undefined fuel s0 Hp
                 eq_refl).
      exists []. by rewrite app_nil_r.
    - rewrite (submit_and_poll_failed config env job err fuel s0 Hp).
      assert (emits q (bind (updateStatus env
                               ("创建任务失败：" +:+ formatErr err))
                         (λ _, ret (Some SubmitFailed)))) as He.
      { apply emits_bind; [by apply emits_updateStatus|intros _].
        by apply emits_ret. }
      match goal with
      | |- context [bind _ _ ?s1] => destruct (He s1) as (tr & E & Q)
      end.
      exists tr. rewrite E. simpl. by rewrite <- app_assoc. }
  rewrite processJob_start.
  match goal with
  | |- context [submit_and_poll config env job fuel ?s] =>
      destruct (Hrest s) as (tr & E & Q)
  end.
  exists tr. rewrite E. simpl. split; [by rewrite <- !app_assoc|done].
Qed.

(** *** The delivery round *)




(** *** Exceptions *)

(** An exception leaves [processJob] in two cases only.  Either the
    backend reported the task done, the delivery failed and the report of
    that failure threw [e]: the last two calls are those two sends.  Or the
    submission or a query resolved with [null] or [undefined]: [e] is the
    [TypeError] of reading its first property, and the last call is that
    request.  Failed submissions, failed queries, and failures to post or
    recall a status never leave it. *)
Theorem exceptions_that_escape
    (config : Config) (env : Env) (job : QueueJob) (fuel : nat) (st : St)
    (e : Thrown) (st' : St) :
  processJob config env job fuel st = (inr e, st') →
  (∃ task e1 pre url,
     status task = "done"
     ∧ EvGet url (inl (Object task)) ∈ pre
     ∧ trace st'
       = pre ++ [EvSend (artifact config task) (inr e1);
                 EvSend (failure_report e1 task) (inr e)])
  ∨ (∃ a pre,
       nullish a = true
       ∧ ((post_result env = inl a
           ∧ e = type_error a "task_id"
           ∧ trace st'
             = pre ++ [EvPost (endpoint config +:+ "/tasks")
                         (finalSubmit config job) (inl a)])
          ∨ (∃ url, e = type_error a "status"
                    ∧ trace st' = pre ++ [EvGet url (inl a)]))).
Proof.
  intros H. destruct (post_result env) as [[created| |]|err] eqn:Hp.
  - rewrite (processJob_prelude config env job created st fuel Hp) in H.
    apply loop_last_round in H as (k & st0 & _ & _ & Hr); [|done].
    apply round_throws in Hr
      as [_ [(task & e1 & pre & Hg & Hd & Htr)|(a & Hg & Hn & -> & Htr)]].
    + left.
      exists task, e1,
        (trace st0
         ++ [EvNow (clock env (n_clock st0));
             EvGet (endpoint config +:+ "/tasks/" +:+ task_id created)
               (inl (Object task))] ++ pre),
        (endpoint config +:+ "/tasks/" +:+ task_id created).
      split; [done|]. split; [|by rewrite Htr, <- !app_assoc].
      apply elem_of_app. right. apply elem_of_app. left.
      apply elem_of_cons. right. by apply elem_of_cons; left.
    + right. exists a, (trace st0 ++ [EvNow (clock env (n_clock st0))]).
      split; [done|]. right.
      exists (endpoint config +:+ "/tasks/" +:+ task_id created).
      split; [done|]. by rewrite Htr, <- app_assoc.
  - rewrite processJob_start,
      (submit_and_poll_nullish config env job Null fuel _ Hp eq_refl) in H.
    injection H as <- <-. right. eexists Null, _. split; [done|]. left.
    split; [done|]. split; [done|]. reflexivity.
  - rewrite processJob_start,
      (submit_and_poll_nullish config env job Undefined fuel _ Hp eq_refl)
      in H.
    injection H as <- <-. right. eexists Undefined, _. split; [done|]. left.
    split; [done|]. split; [done|]. reflexivity.
  - rewrite processJob_start,
      (submit_and_poll_failed config env job err fuel _ Hp) in H.
    unfold bind in H. rewrite updateStatus_run in H. discriminate H.
Qed.

Lemma exceptions_that_escape_witness :
  (∃ task e1 pre url,
     status task = "done"
     ∧ EvGet url (inl (Object task)) ∈ pre
     ∧ trace (processJob sample_config env_offline jobA 5 fresh).2
       = pre ++ [EvSend (artifact sample_config task) (inr e1);
                 EvSend (failure_report e1 task)
                   (inr (ThrownString "offline"))])
  ∨ (∃ a pre,
       nullish a = true
       ∧ ((post_result env_offline = inl a
           ∧ ThrownString "offline" = type_error a "task_id"
           ∧ trace (processJob sample_config env_offline jobA 5 fresh).2
             = pre ++ [EvPost (endpoint sample_config +:+ "/tasks")
                         (finalSubmit sample_config jobA) (inl a)])
          ∨ (∃ url, ThrownString "offline" = type_error a "status"
                    ∧ trace (processJob sample_config env_offline jobA 5
                               fresh).2
                      = pre ++ [EvGet url (inl a)]))).
Proof.
  apply (exceptions_that_escape sample_config env_offline jobA 5 fresh).
  by vm_compute.
Defined.

(** Cancellation is checked before the budget: if the submission succeeds,
    the first [n] rounds leave the job polling and round [n] finds the
    token signalled, the job ends as cancelled with the cancelled notice,
    whatever the clock shows then: the clock is not read in that round, the
    backend is not queried again, and nothing is delivered. *)
Theorem cancel_wins
    (config : Config) (env : Env) (job : QueueJob) (created : Task)
    (n fuel : nat) :
  post_result env = inl (Object created) →
  (∀ i, (i < n)%nat →
        signal_aborted env i = false
        ∧ (clock env (S i) - clock env 0 <= timeout config)%Z
        ∧ pending (get_result env i) = true) →
  signal_aborted env n = true →
  (n < fuel)%nat →
  ∃ st', processJob config env job fuel fresh = (inl (Some Cancelled), st')
         ∧ lastStatus st' = Some "任务已取消"
         ∧ no_delivery (trace st') = true
         ∧ n_get st' = n
         ∧ n_clock st' = S n.
Proof.
  intros Hpost Hpend Ha Hfuel.
  destruct (processJob_reaches_polling config env job created fresh Hpost)
    as (st0 & tr0 & E0 & Ha0 & Hc0 & Hg0 & Htr0 & Hq0).
  simpl in *. rewrite E0.
  replace fuel with (n + S (fuel - S n))%nat by lia.
  destruct (loop_pending config env job created (clock env 0) n st0
              (S (fuel - S n)))
    as (st1 & tr1 & E1 & Ha1 & Hc1 & Hg1 & Htr1 & Hq1).
  { intros i Hi. rewrite Ha0, Hc0, Hg0. simpl. by apply Hpend. }
  rewrite E1. simpl. unfold bind at 1.
  destruct (round_cancelled config env job created (clock env 0) st1)
    as (st2 & tr2 & E2 & Hl2 & Hg2 & Hc2 & Htr2 & Hq2).
  { rewrite Ha1, Ha0. done. }
  rewrite E2. exists st2. unfold ret.
  split; [done|]. split; [done|]. split; [|split].
  - rewrite Htr2, Htr1, Htr0, !no_delivery_app, Hq0, Hq1, Hq2. done.
  - rewrite Hg2, Hg1, Hg0. done.
  - rewrite Hc2, Hc1, Hc0. done.
Qed.

Lemma cancel_wins_witness :
  ∃ st', processJob sample_config env_cancelled_late jobA 3 fresh
         = (inl (Some Cancelled), st')
         ∧ lastStatus st' = Some "任务已取消"
         ∧ no_delivery (trace st') = true
         ∧ n_get st' = 0%nat
         ∧ n_clock st' = 1%nat.
Proof.
  apply (cancel_wins sample_config env_cancelled_late jobA task_pending 0 3).
  - reflexivity.
  - intros i Hi. lia.
  - reflexivity.
  - lia.
Defined.

(** A failure reported by the backend ends the job: if the submission
    succeeds, the first [n] rounds leave the job polling and round [n]
    fetches, with the token unsignalled and the budget not exceeded, a task
    that is not done and whose status is "error" or whose error text is not
    empty, the job ends as failed; the fetched task is recorded, the status
    shows the error text, or the unknown-error text when there is none, and
    nothing is delivered. *)
Theorem backend_failure_ends_job
    (config : Config) (env : Env) (job : QueueJob) (created task : Task)
    (n fuel : nat) :
  post_result env = inl (Object created) →
  (∀ i, (i < n)%nat →
        signal_aborted env i = false
        ∧ (clock env (S i) - clock env 0 <= timeout config)%Z
        ∧ pending (get_result env i) = true) →
  signal_aborted env n = false →
  (clock env (S n) - clock env 0 <= timeout config)%Z →
  get_result env n = inl (Object task) →
  status task ≠ "done" →
  status task = "error" ∨ error task ≠ "" →
  (n < fuel)%nat →
  ∃ st', processJob config env job fuel fresh
         = (inl (Some BackendFailed), st')
         ∧ lastStatus st'
           = Some ("任务失败：" +:+ (if truthy (error task) then error task
                                  else "未知错误"))
         ∧ backendTask st' = Some (Object task)
         ∧ no_delivery (trace st') = true
         ∧ n_get st' = S n.
Proof.
  intros Hpost Hpend Ha Ht Hg Hnd Herr Hfuel.
  destruct (processJob_reaches_polling config env job created fresh Hpost)
    as (st0 & tr0 & E0 & Ha0 & Hc0 & Hg0 & Htr0 & Hq0).
  simpl in *. rewrite E0.
  replace fuel with (n + S (fuel - S n))%nat by lia.
  destruct (loop_pending config env job created (clock env 0) n st0
              (S (fuel - S n)))
    as (st1 & tr1 & E1 & Ha1 & Hc1 & Hg1 & Htr1 & Hq1).
  { intros i Hi. rewrite Ha0, Hc0, Hg0. simpl. by apply Hpend. }
  rewrite E1. simpl. unfold bind at 1.
  destruct (round_failed config env job created (clock env 0) st1 task)
    as (st2 & tr2 & E2 & Hl2 & Hb2 & Hg2 & Htr2 & Hq2); try done.
  { rewrite Ha1, Ha0. done. }
  { rewrite Hc1, Hc0. done. }
  { rewrite Hg1, Hg0. done. }
  rewrite E2. exists st2. unfold ret.
  split; [done|]. split; [done|]. split; [done|]. split.
  - rewrite Htr2, Htr1, Htr0, !no_delivery_app, Hq0, Hq1, Hq2. done.
  - rewrite Hg2, Hg1, Hg0. done.
Qed.

Lemma backend_failure_ends_job_witness :
  ∃ st', processJob sample_config env_backend_error jobA 5 fresh
         = (inl (Some BackendFailed), st')
         ∧ lastStatus st' = Some "任务失败：album not found"
         ∧ backendTask st' = Some (Object task_error)
         ∧ no_delivery (trace st') = true
         ∧ n_get st' = 2%nat.
Proof.
  apply (backend_failure_ends_job sample_config env_backend_error jobA
           task_pending task_error 1 5).
  - reflexivity.
  - intros i Hi. destruct i as [|i]; [by vm_compute|lia].
  - reflexivity.
  - by vm_compute.
  - reflexivity.
  - discriminate.
  - by left.
  - lia.
Defined.

(** A job cannot poll for ever: if the clock reading of round [N] (the
    [N+1]-th reading after [startAt]) is past the budget, then [processJob]
    has ended, with an outcome or an exception, after at most [N+1]
    rounds, whatever the backend and the chat answer. *)
Theorem polling_always_ends
    (config : Config) (env : Env) (job : QueueJob) (N fuel : nat) :
  (timeout config < clock env (S N) - clock env 0)%Z →
  (N < fuel)%nat →
  (processJob config env job fuel fresh).1 ≠ inl None.
Proof.
  intros Ht Hf. destruct (post_result env) as [[created| |]|e] eqn:Hpost.
  - destruct (processJob_reaches_polling config env job created fresh
                Hpost) as (st0 & tr0 & E0 & _ & Hc0 & _).
    simpl in *. rewrite E0. apply (loop_ends config env job _ _ N); [|done].
    by rewrite Hc0.
  - by rewrite processJob_start,
      (submit_and_poll_nullish config env job Null fuel _ Hpost eq_refl).
  - by rewrite processJob_start,
      (submit_and_poll_nullish config env job Undefined fuel _ Hpost
         eq_refl).
  - destruct (processJob_submit_failed config env job e fresh fuel Hpost)
      as (st' & -> & _). done.
Qed.

Lemma polling_always_ends_witness :
  (processJob sample_config env_stuck jobA 3 fresh).1 ≠ inl None.
Proof.
  apply (polling_always_ends sample_config env_stuck jobA 2 3).
  - reflexivity.
  - lia.
Defined.

(** *** Recalling a status sent as several messages *)

Lemma deleteAll_trace (env : Env) (mids : list string) : ∀ st k,
  has_bot env = true →
  (∀ i, (i < k)%nat → delete_ok env (n_delete st + i) = true) →
  ((k < length mids)%nat → delete_ok env (n_delete st + k) = false) →
  (k ≤ length mids)%nat →
  ∃ r st',
    deleteAll env mids st = (r, st')
    ∧ statusMsg st' = statusMsg st
    ∧ lastStatus st' = lastStatus st
    ∧ n_send st' = n_send st
    ∧ trace st'
      = trace st ++ ((λ m, EvDelete m true) <$> take k mids)
        ++ ((λ m, EvDelete m false) <$> take 1 (drop k mids)).
Proof.
  induction mids as [|mid rest IH]; intros st k Hbot Hok Hfail Hk.
  { simpl in Hk. assert (k = 0%nat) as -> by lia. simpl.
    exists (inl ()), st. unfold ret. by rewrite app_nil_r. }
  simpl deleteAll. unfold bind at 1. unfold deleteMessage. rewrite Hbot.
  destruct k as [|k].
  - rewrite Nat.add_0_r in Hfail. rewrite Hfail by (simpl; lia).
    eexists _, _. split; [reflexivity|]. by simpl.
  - pose proof (Hok 0%nat ltac:(lia)) as H0. rewrite Nat.add_0_r in H0.
    rewrite H0.
    match goal with
    | |- context [deleteAll env rest ?s1] =>
        destruct (IH s1 k Hbot) as (r & st' & E & Hm & Hl & Hs & Ht)
    end.
    + intros i Hi. simpl.
      replace (S (n_delete st + i)) with (n_delete st + S i)%nat by lia.
      apply Hok. lia.
    + intros Hlt. simpl.
      replace (S (n_delete st + k)) with (n_delete st + S k)%nat by lia.
      apply Hfail. simpl. lia.
    + simpl in Hk. lia.
    + exists r, st'. split; [exact E|]. simpl in *.
      split; [done|]. split; [done|]. split; [done|].
      rewrite Ht. by rewrite <- app_assoc.
Qed.

(** Recalling a status that was sent as several messages, on a platform
    with a bot: the messages are deleted in order; the first deletion that
    fails ends the recall, so the later messages are never deleted; in
    either case [recallStatus] returns normally and drops the reference, and
    nothing is sent. *)
Theorem recall_stops_at_first_failure
    (env : Env) (mids : list string) (st : St) (k : nat) :
  has_bot env = true →
  statusMsg st = MsgIds mids →
  (∀ i, (i < k)%nat → delete_ok env (n_delete st + i) = true) →
  ((k < length mids)%nat → delete_ok env (n_delete st + k) = false) →
  (k ≤ length mids)%nat →
  ∃ st',
    recallStatus env st = (inl (), st')
    ∧ statusMsg st' = MsgUndefined
    ∧ lastStatus st' = lastStatus st
    ∧ n_send st' = n_send st
    ∧ trace st'
      = trace st ++ ((λ m, EvDelete m true) <$> take k mids)
        ++ ((λ m, EvDelete m false) <$> take 1 (drop k mids))
        ++ [EvStatusMsg (MsgIds mids) MsgUndefined].
Proof.
  intros Hbot Hm Hok Hfail Hk.
  destruct (deleteAll_trace env mids st k Hbot Hok Hfail Hk)
    as (r & st1 & E & Hm1 & Hl1 & Hs1 & Ht1).
  unfold recallStatus, bind, get_statusMsg. rewrite Hm. simpl.
  unfold catch. rewrite E.
  destruct r as [[]|e]; unfold ret, set_statusMsg, emit; simpl;
    eexists; (split; [reflexivity|]); simpl;
    rewrite Hm1, Hm, Ht1, <- !app_assoc; done.
Qed.

Lemma recall_stops_at_first_failure_witness :
  ∃ st',
    recallStatus env_delete_once st_three_parts = (inl (), st')
    ∧ statusMsg st' = MsgUndefined
    ∧ lastStatus st' = None
    ∧ n_send st' = 0%nat
    ∧ trace st'
      = [] ++ [EvDelete "m1" true] ++ [EvDelete "m2" false]
        ++ [EvStatusMsg (MsgIds ["m1"; "m2"; "m3"]) MsgUndefined].
Proof.
  apply (recall_stops_at_first_failure env_delete_once ["m1"; "m2"; "m3"]
           st_three_parts 1).
  - reflexivity.
  - reflexivity.
  - intros i Hi. assert (i = 0%nat) as -> by lia. reflexivity.
  - intros _. reflexivity.
  - simpl. lia.
Defined.

End JobMore.

(** ** The commands: what [apply] adds to the queue *)

Module CommandFacts.
Import Queue Samples QueueFacts QueueMore Command.

(** *** What one step does to the arrays *)

Lemma step_store op s l q' :
  store (step op s).1 !! l = Some q' →
  (∃ q, store s !! l = Some q ∧ q' `sublist_of` q)
  ∨ (∃ job, op = OpEnqueue job
            ∧ (q' = [job] ∨ ∃ q, store s !! l = Some q ∧ q' = q ++ [job])).
Proof.
  destruct op as [job|cid jid|cid|i]; simpl.
  - unfold enqueue.
    assert (∀ q', store (push job s).2 !! l = Some q' →
      (∃ q, store s !! l = Some q ∧ q' `sublist_of` q)
      ∨ (∃ job0, OpEnqueue job = OpEnqueue job0
           ∧ (q' = [job0]
              ∨ ∃ q, store s !! l = Some q ∧ q' = q ++ [job0]))) as Hp.
    { clear q'. intros q'. unfold push.
      destruct (queues s !! channelCid job) as [l0|]; simpl.
      - intros Hl. destruct (decide (l0 = l)) as [->|Hne].
        + rewrite list_lookup_alter_eq in Hl.
          destruct (store s !! l) as [q0|] eqn:El; [|done].
          simpl in Hl. injection Hl as <-. right. exists job.
          split; [done|]. right. eauto.
        + rewrite list_lookup_alter_ne in Hl by done. left. eauto.
      - intros Hl.
        destruct (decide (length (store s) = l)) as [<-|Hne].
        + rewrite list_lookup_alter_eq, list_lookup_middle in Hl by done.
          simpl in Hl. injection Hl as <-. right. exists job.
          split; [done|]. by left.
        + rewrite list_lookup_alter_ne in Hl by done.
          apply lookup_app_Some in Hl as [Hl|[Hle Hl]].
          * left. eauto.
          * destruct (l - length (store s))%nat as [|[|k]] eqn:Ek;
              simpl in Hl; [lia|done|done]. }
    destruct (push job s) as [l0 s1]; simpl in *.
    destruct (maybeStart_fields (channelCid job) s1) as (Hs2 & _ & _).
    destruct (maybeStart (channelCid job) s1) as [s2 evs]; simpl in *.
    rewrite Hs2. apply Hp.
  - unfold cancel. destruct (queues s !! cid) as [l0|]; [|left; eauto].
    case_bool_decide; [left; eauto|].
    destruct (findIndex jid (arr (store s) l0)) as [[idx job]|];
      [|left; eauto].
    simpl. intros Hq.
    apply list_lookup_insert_Some in Hq as [(-> & <- & Hlt)|(_ & Hq)];
      [|left; eauto].
    apply lookup_lt_is_Some in Hlt as [q Hq]. left. exists q.
    split; [done|]. unfold arr. rewrite Hq. simpl. apply sublist_delete.
  - unfold clear. destruct (queues s !! cid) as [l0|]; left; eauto.
  - unfold settle. destruct (loops s !! i) as [lp|]; [|left; eauto].
    assert (∀ q',
      <[l_q lp := tail (arr (store s) (l_q lp))]> (store s) !! l = Some q' →
      ∃ q, store s !! l = Some q ∧ q' `sublist_of` q) as Hins.
    { clear q'. intros q' Hq.
      apply list_lookup_insert_Some in Hq as [(<- & <- & Hlt)|(_ & Hq)];
        [|eauto].
      apply lookup_lt_is_Some in Hlt as [q Hq]. exists q.
      split; [done|]. unfold arr. rewrite Hq. simpl.
      destruct q; simpl; [done|]. by apply sublist_cons. }
    destruct (tail (arr (store s) (l_q lp))) eqn:T; simpl; intros Hq;
      left; by apply Hins.
Qed.

(** A job that is started sits in an array. *)
Lemma step_started op s c j :
  EvStart c j ∈ (step op s).2 →
  ∃ l q, store (step op s).1 !! l = Some q ∧ j ∈ q.
Proof.
  destruct op as [job|cid jid|cid|i]; simpl.
  - unfold enqueue. destruct (push job s) as [l0 s1]. unfold maybeStart.
    destruct (decide (channelCid job ∈ running s1));
      [simpl; by intros ?%elem_of_nil|].
    destruct (queues s1 !! channelCid job) as [l1|];
      [|simpl; by intros ?%elem_of_nil].
    destruct (arr (store s1) l1) as [|job' rest] eqn:Ea;
      [simpl; by intros ?%elem_of_nil|].
    simpl. intros H. apply list_elem_of_singleton in H.
    injection H as -> ->. exists l1, (job' :: rest).
    unfold arr in Ea. destruct (store s1 !! l1) as [q|]; simpl in Ea;
      [|done]. subst q. split; [done|]. by apply elem_of_cons; left.
  - by intros ?%elem_of_nil.
  - by intros ?%elem_of_nil.
  - unfold settle. destruct (loops s !! i) as [lp|];
      [|simpl; by intros ?%elem_of_nil].
    destruct (tail (arr (store s) (l_q lp))) as [|job q'] eqn:T; simpl;
      intros H.
    + apply elem_of_cons in H as [H|H]; [done|].
      apply elem_of_cons in H as [H|H]; [done|]. by apply elem_of_nil in H.
    + apply elem_of_cons in H as [H|H]; [done|].
      apply elem_of_cons in H as [H|H]; [done|].
      apply list_elem_of_singleton in H. injection H as -> ->.
      exists (l_q lp), (job :: q'). split; [|by apply elem_of_cons; left].
      apply list_lookup_insert_Some. left. split; [done|]. split; [done|].
      apply lookup_lt_is_Some. unfold arr in T.
      destruct (store s !! l_q lp) as [q|]; [eauto|done].
Qed.

(** *** A command is a step of the queue *)

Section Commands.
Context (config : Job.Config).

Lemma exec_step a p :
  exec config a p = (p, [])
  ∨ ∃ op,
      exec config a p
      = (mkPlugin (match op with
                   | OpEnqueue _ => S (jobCounter p)
                   | _ => jobCounter p
                   end) (step op (queue p)).1,
         (step op (queue p)).2)
      ∧ ∀ job, op = OpEnqueue job →
               ∃ cid options id0 now,
                 job = new_job config cid options id0 now (S (jobCounter p)).
Proof.
  destruct a as [cid options id0 now|cid jobId|cid|i]; simpl.
  - unfold jm. destruct (given id0) as [a|]; [right|by left].
    exists (OpEnqueue (new_job config cid options a now (S (jobCounter p)))).
    simpl.
    destruct (enqueue (new_job config cid options a now (S (jobCounter p)))
                (queue p)) as [[pos q] evs].
    split; [done|]. intros job [= <-]. eauto.
  - unfold tasks_cancel. destruct (given jobId) as [jid|]; [right|by left].
    exists (OpCancel cid jid). simpl.
    destruct (cancel cid jid (queue p)) as [ok q]. by split.
  - right. exists (OpClear cid). unfold tasks_clear. simpl.
    destruct (clear cid (queue p)) as [n q]. by split.
  - right. exists (OpSettle i). simpl.
    destruct (settle i (queue p)) as [q evs]. by split.
Qed.

Lemma play_run acts : ∀ p,
  ∃ ops, queue (play config acts p).1 = (run ops (queue p)).1
         ∧ (play config acts p).2 = (run ops (queue p)).2.
Proof.
  induction acts as [|a acts IH]; intros p.
  { by exists []. }
  cbn [play].
  destruct (exec_step a p) as [E|(op & E & _)]; rewrite E.
  - destruct (IH p) as (ops & H1 & H2). exists ops.
    destruct (play config acts p) as [p2 e2]. by simpl in *.
  - match goal with
    | |- context [play config acts ?p1] =>
        destruct (IH p1) as (ops & H1 & H2);
        destruct (play config acts p1) as [p2 e2]
    end.
    exists (op :: ops). cbn [run]. simpl in *.
    destruct (step op (queue p)) as [s1 e1]. simpl in *.
    destruct (run ops s1) as [s2 e2']. simpl in *. by subst.
Qed.

Lemma wf_play acts : wf (queue (play config acts loaded).1).
Proof.
  destruct (play_run acts loaded) as (ops & -> & _). apply wf_reachable.
Qed.

(** *** Ids *)

Lemma issued_mono n m j : issued config n j → (n ≤ m)%nat → issued config m j.
Proof.
  intros (k & cid & options & id0 & now & Hk & ->) Hle.
  exists k, cid, options, id0, now. split; [lia|done].
Qed.

Lemma new_job_id_inj cid options id0 now k cid' options' id0' now' k' :
  id (new_job config cid options id0 now k)
  = id (new_job config cid' options' id0' now' k') → k = k'.
Proof. simpl. intros [= H]. by apply (inj pretty). Qed.

Lemma numbered_loaded : numbered config loaded.
Proof. intros l q H. done. Qed.

Lemma numbered_exec a p : numbered config p → numbered config (exec config a p).1.
Proof.
  intros Hn. destruct (exec_step a p) as [->|(op & -> & Hop)]; [done|].
  intros l q' Hq'. cbn [fst queue jobCounter] in *.
  assert (jobCounter p
          ≤ match op with
            | OpEnqueue _ => S (jobCounter p)
            | _ => jobCounter p
            end)%nat as Hle by (destruct op; lia).
  apply step_store in Hq' as [(q & Hq & Hsub)|(job & -> & Hq)].
  - destruct (Hn l q Hq) as [Hnd Hiss]. split.
    + eapply sublist_NoDup; [exact Hnd|by apply fmap_sublist].
    + intros j Hj. eapply issued_mono; [|exact Hle].
      apply Hiss. by eapply elem_of_sublist.
  - destruct (Hop job eq_refl) as (cid & options & id0 & now & ->).
    destruct Hq as [->|(q & Hq & ->)].
    + split; [apply NoDup_singleton|].
      intros j ->%list_elem_of_singleton.
      exists (S (jobCounter p)), cid, options, id0, now. by split.
    + destruct (Hn l q Hq) as [Hnd Hiss]. split.
      * rewrite fmap_app. apply NoDup_app. split; [done|].
        split; [|apply NoDup_singleton].
        intros x Hx ->%list_elem_of_singleton.
        apply list_elem_of_fmap in Hx as (j & Hid & Hj).
        destruct (Hiss j Hj) as (k & ? & ? & ? & ? & Hk & ->).
        apply new_job_id_inj in Hid. lia.
      * intros j [Hj| ->%list_elem_of_singleton]%elem_of_app.
        -- eapply issued_mono; [by apply Hiss|lia].
        -- exists (S (jobCounter p)), cid, options, id0, now. by split.
Qed.

Lemma numbered_play acts : ∀ p,
  numbered config p → numbered config (play config acts p).1.
Proof.
  induction acts as [|a acts IH]; intros p Hn; [done|]. cbn [play].
  pose proof (numbered_exec a p Hn) as H1.
  destruct (exec config a p) as [p1 e1]. cbn [fst] in H1.
  pose proof (IH p1 H1) as H2.
  by destruct (play config acts p1) as [p2 e2].
Qed.

Lemma queue_ids_unique acts c :
  NoDup (id <$> queue_of (queue (play config acts loaded).1) c).
Proof.
  pose proof (numbered_play acts loaded numbered_loaded) as Hn.
  unfold queue_of.
  destruct (queues (queue (play config acts loaded).1) !! c) as [l|];
    [|apply NoDup_nil_2].
  unfold arr.
  destruct (store (queue (play config acts loaded).1) !! l) as [q|] eqn:E;
    [|apply NoDup_nil_2].
  simpl. by apply (Hn l q).
Qed.

Lemma play_started acts : ∀ p c j,
  numbered config p → EvStart c j ∈ (play config acts p).2 →
  ∃ n, issued config n j.
Proof.
  induction acts as [|a acts IH]; intros p c j Hn; cbn [play].
  { by intros ?%elem_of_nil. }
  pose proof (numbered_exec a p Hn) as H1.
  destruct (exec_step a p) as [E|(op & E & _)]; rewrite E in *;
    cbn [fst] in H1.
  - pose proof (IH p c j Hn) as H2.
    destruct (play config acts p) as [p2 e2]. by simpl in *.
  - match goal with
    | |- context [play config acts ?p1] =>
        pose proof (IH p1 c j H1) as H2;
        destruct (play config acts p1) as [p2 e2]
    end.
    cbn [snd] in *. intros [H|H]%elem_of_app; [|eauto].
    apply step_started in H as (l & q & Hq & Hj).
    destruct (H1 l q Hq) as [_ Hiss]. eauto.
Qed.

(** The completion of [processJob] changes nothing in a submit built by the
    [jm] handler. *)
Lemma issued_final n j :
  issued config n j → Job.finalSubmit config j = submit j.
Proof.
  intros (k & cid & options & id0 & now & _ & ->).
  unfold Job.finalSubmit, new_job, build_submit. simpl.
  destruct (opt_password options), (Job.config_password config),
    (Job.config_encrypt config); reflexivity.
Qed.

End Commands.

(** Job ids are never reused within a channel: after any sequence of
    commands and settling jobs, the ids of the jobs in a channel's queue are
    pairwise distinct. *)
Theorem job_ids_unique (config : Job.Config) (acts : list Act) (c : string) :
  NoDup (id <$> queue_of (queue (play config acts loaded).1) c).
Proof. apply queue_ids_unique. Qed.

(** For every job the queue starts, the completion of the submit in
    [processJob] is the identity: the [jm] handler has already forced the
    encryption, filled in the default password and chosen the format, under
    the same configuration. *)
Theorem started_jobs_final
    (config : Job.Config) (acts : list Act) (c : string) (j : QueueJob) :
  EvStart c j ∈ (play config acts loaded).2 →
  Job.finalSubmit config j = submit j.
Proof.
  intros H.
  apply (play_started config acts loaded c j (numbered_loaded config)) in H
    as [n H].
  by eapply issued_final.
Qed.

Lemma started_jobs_final_witness :
  Job.finalSubmit sample_config
    (new_job sample_config "c" sample_options "12345" 7 1)
  = build_submit sample_config sample_options "12345".
Proof.
  apply (started_jobs_final sample_config
           [ActJm "c" sample_options (Some "12345") 7] "c").
  vm_compute. apply list_elem_of_here.
Defined.

(** [.cancel <jobId>] after any sequence of commands and settling jobs,
    for a non-empty id: when a job of the caller's channel queue has the
    id, the answer is "已取消 <jobId>" and afterwards the queue holds
    exactly the other jobs, in their order, so none with that id; when no
    job of the queue has the id, the answer is "未找到任务 <jobId>" and
    nothing changes. *)
Theorem cancel_command
    (config : Job.Config) (acts : list Act) (cid jid : string) :
  Job.truthy jid = true →
  ((∃ j, j ∈ queue_of (queue (play config acts loaded).1) cid ∧ id j = jid) →
   (tasks_cancel cid (Some jid) (play config acts loaded).1).1
   = Returned ("已取消 " +:+ jid)
   ∧ queue_of
       (queue (tasks_cancel cid (Some jid) (play config acts loaded).1).2)
       cid
     = filter (λ j, id j ≠ jid)
         (queue_of (queue (play config acts loaded).1) cid))
  ∧ ((∀ j, j ∈ queue_of (queue (play config acts loaded).1) cid →
           id j ≠ jid) →
     tasks_cancel cid (Some jid) (play config acts loaded).1
     = (Returned ("未找到任务 " +:+ jid), (play config acts loaded).1)).
Proof.
  intros Ht. pose proof (wf_play config acts) as Hw.
  pose proof (queue_ids_unique config acts cid) as Hnd.
  destruct (play config acts loaded) as [p evs]. cbn [fst] in *.
  unfold tasks_cancel, given. rewrite Ht. split.
  - intros (j & Hj & Hid).
    destruct (findIndex jid (queue_of (queue p) cid)) as [[idx job]|] eqn:F.
    + destruct (cancel_found cid jid (queue p) idx job Hw F) as [H1 H2].
      apply list_find_Some in F as (Hl & <- & _).
      destruct (cancel cid (id job) (queue p)) as [ok q]. simpl in *.
      subst ok. split; [done|]. rewrite H2. by apply delete_filter_id.
    + apply list_find_None in F.
      destruct (proj1 (Forall_forall _ _) F j Hj Hid).
  - intros Hno. rewrite (cancel_absent cid jid (queue p) Hno).
    by destruct p.
Qed.

Lemma cancel_command_witness :
  (tasks_cancel "c" (Some "J1")
     (play sample_config
        [ActJm "c" sample_options (Some "12345") 7;
         ActJm "c" sample_options (Some "678") 8] loaded).1).1
  = Returned "已取消 J1"
  ∧ tasks_cancel "d" (Some "J1")
      (play sample_config
         [ActJm "c" sample_options (Some "12345") 7;
          ActJm "c" sample_options (Some "678") 8] loaded).1
    = (Returned "未找到任务 J1",
       (play sample_config
          [ActJm "c" sample_options (Some "12345") 7;
           ActJm "c" sample_options (Some "678") 8] loaded).1).
Proof.
  split.
  - apply (cancel_command sample_config
             [ActJm "c" sample_options (Some "12345") 7;
              ActJm "c" sample_options (Some "678") 8] "c" "J1");
      [reflexivity|].
    exists (new_job sample_config "c" sample_options "12345" 7 1).
    split; [|reflexivity]. vm_compute. apply list_elem_of_here.
  - apply (cancel_command sample_config
             [ActJm "c" sample_options (Some "12345") 7;
              ActJm "c" sample_options (Some "678") 8] "d" "J1");
      [reflexivity|].
    intros j Hj. vm_compute in Hj. by apply elem_of_nil in Hj.
Defined.

(** What [.list] (without [-a]) shows after any sequence of commands and
    settling jobs: nothing, and the answer "暂无任务。", when the channel
    map has no queue for the caller's channel; otherwise a header that
    always reads "运行中: 是" and counts the jobs of the queue, then one
    line per job in queue order, the first marked "▶" and all the others
    "…". *)
Theorem list_shows_queue
    (config : Job.Config) (acts : list Act) (c : string) :
  list_lines c (play config acts loaded).1
  = match queue_of (queue (play config acts loaded).1) c with
    | [] => []
    | j :: q =>
        ("频道 " +:+ c +:+ " · 运行中: " +:+ "是" +:+ " · 队列: "
         +:+ pretty (S (length q)))
        :: job_line "▶" j :: (job_line "…" <$> q)
    end
  ∧ (queue_of (queue (play config acts loaded).1) c = [] →
     tasks_list c (play config acts loaded).1 = Returned "暂无任务。").
Proof.
  pose proof (wf_play config acts) as Hw.
  destruct (play config acts loaded) as [p evs]. cbn [fst] in *.
  assert (list_lines c p
          = match queue_of (queue p) c with
            | [] => []
            | j :: q =>
                ("频道 " +:+ c +:+ " · 运行中: " +:+ "是" +:+ " · 队列: "
                 +:+ pretty (S (length q)))
                :: job_line "▶" j :: (job_line "…" <$> q)
            end) as Hl.
  { unfold list_lines. rewrite getSummary_lookup. unfold queue_of.
    destruct (queues (queue p) !! c) as [l|] eqn:E; [|done]. simpl.
    destruct (sh_nonempty _ (wf_shaped _ Hw) c l E) as (j & q & Hq).
    pose proof (wf_running _ Hw c (mk_is_Some _ _ E)) as Hr.
    unfold arr. rewrite Hq. simpl.
    unfold channel_lines, summarize. simpl.
    rewrite bool_decide_eq_true_2 by done. simpl. f_equal. f_equal.
    apply fmap_imap_const. done. }
  split; [done|]. intros Hq. unfold tasks_list. rewrite Hl, Hq. done.
Qed.

End CommandFacts.
